(** * Unity meta-file checker: path tree, path classification, consistency check

    A shallow embedding of

    - [check_unity_meta_files/util/fs/pathtree.py]  ([PathNode], [PathTree]),
    - [check_unity_meta_files/util/git.py]          ([UnityGitRepository]),
    - [check_unity_meta_files/check_unity_meta_files.py],

    together with the few operations of Python's [pathlib.PurePosixPath] and
    [str] that this code calls.

    Python objects with identity ([PathNode]) live in an explicit store: a
    node reference is an index into the store, [is] is equality of indices,
    and every in-place update of a node is an update of its cell. *)

From Stdlib Require Import String Ascii.
From stdpp Require Import base option list strings.

Local Open Scope string_scope.
Local Open Scope list_scope.

(** ** Outcomes of Python calls *)

(** Every [raise] site of the embedded code.  All of them are [ValueError]
    in the source except [UnboundLocal] and [NoneAttribute], which are the
    interpreter's own [UnboundLocalError] and [AttributeError]. *)
Inductive error : Type :=
  | EmptyNodeName          (* PathNode.__init__: "File node name cannot be ''" *)
  | MultipleLevels         (* add_child: "Added child with multiple levels" *)
  | DuplicateChild         (* add_child: "Duplicate child added" *)
  | RemovedMissingChild    (* remove_child: "Removed non-existent child" *)
  | NoChildNamed           (* child: "... has no child named ..." *)
  | NonExistentPath        (* descendant: "Cannot remove non-existent path" *)
  | NotRelativePath        (* _check_path: "... is not a relative path" *)
  | LimitNotSubpath        (* prune: "Limit ... must be a subpath of ..." *)
  | NotAnAsset             (* meta_file_for_asset: "... is not an asset" *)
  | NotAMetaFile           (* asset_for_meta_file: "... is not a meta file" *)
  | EmptyName              (* pathlib with_suffix: "... has an empty name" *)
  | InvalidSuffix          (* pathlib with_suffix: "Invalid suffix ..." *)
  | UnboundLocal           (* a local variable read before assignment *)
  | NoneAttribute.         (* attribute access on None *)

(** A call returns a value, raises, or (for the loops that are run with a
    step budget) uses the budget up before it finishes. *)
Inductive result (A : Type) : Type :=
  | Ok (a : A)
  | Raise (e : error)
  | OutOfFuel.
Arguments Ok {A} a.
Arguments Raise {A} e.
Arguments OutOfFuel {A}.

#[global] Instance result_ret : MRet result := fun A a => Ok a.
#[global] Instance result_bind : MBind result := fun A B k r =>
  match r with
  | Ok a => k a
  | Raise e => Raise e
  | OutOfFuel => OutOfFuel
  end.

#[global] Instance result_fmap : FMap result := fun A B f r =>
  match r with
  | Ok a => Ok (f a)
  | Raise e => Raise e
  | OutOfFuel => OutOfFuel
  end.

(** The failure kinds of the specification, by raise site. *)
Inductive error_kind : Type :=
  | InvalidNameError | DuplicateChildError | NotFoundError
  | InvalidPathError | InvalidArgumentError | UsageError | InterpreterError.

Definition kind_of (e : error) : error_kind :=
  match e with
  | EmptyNodeName | MultipleLevels => InvalidNameError
  | DuplicateChild => DuplicateChildError
  | RemovedMissingChild | NoChildNamed | NonExistentPath => NotFoundError
  | NotRelativePath => InvalidPathError
  | LimitNotSubpath => InvalidArgumentError
  | NotAnAsset | NotAMetaFile | EmptyName | InvalidSuffix => UsageError
  | UnboundLocal | NoneAttribute => InterpreterError
  end.

(** ** Python [str] operations used by the code *)

Module Str.

Definition slash : ascii := "/"%char.
Definition dot : ascii := "."%char.

(** [c in s] *)
Fixpoint contains (c : ascii) (s : string) : bool :=
  match s with
  | EmptyString => false
  | String a s' => Ascii.eqb a c || contains c s'
  end.

(** [s.startswith(c)] for a one-character prefix *)
Definition startswith (c : ascii) (s : string) : bool :=
  match s with
  | EmptyString => false
  | String a _ => Ascii.eqb a c
  end.

(** [s.rfind(c)]; [None] stands for Python's -1 *)
Fixpoint rfind (c : ascii) (s : string) : option nat :=
  match s with
  | EmptyString => None
  | String a s' =>
      match rfind c s' with
      | Some i => Some (S i)
      | None => if Ascii.eqb a c then Some 0 else None
      end
  end.

(** [s[n:]] *)
Fixpoint drop (n : nat) (s : string) : string :=
  match n, s with
  | O, _ => s
  | S n', EmptyString => EmptyString
  | S n', String _ s' => drop n' s'
  end.

(** [s[:n]] *)
Fixpoint take (n : nat) (s : string) : string :=
  match n, s with
  | O, _ => EmptyString
  | S n', EmptyString => EmptyString
  | S n', String a s' => String a (take n' s')
  end.

(** [s.lstrip(c)] *)
Fixpoint lstrip (c : ascii) (s : string) : string :=
  match s with
  | EmptyString => EmptyString
  | String a s' => if Ascii.eqb a c then lstrip c s' else s
  end.

(** [s.split(c)]: never the empty list *)
Fixpoint split (c : ascii) (s : string) : list string :=
  match s with
  | EmptyString => [EmptyString]
  | String a s' =>
      if Ascii.eqb a c then EmptyString :: split c s'
      else match split c s' with
           | x :: xs => String a x :: xs
           | [] => [String a EmptyString]
           end
  end.

Definition is_empty (s : string) : bool :=
  match s with EmptyString => true | _ => false end.

End Str.

(** ** [pathlib.PurePosixPath]

    The operations of the standard library the code calls, as CPython 3.8
    implements them for POSIX paths (the code was written for a Python
    older than 3.9: see the comment in [PathTree.prune]). *)

(** A parsed path: the root ([""], ["/"] or ["//"]) and the segments after
    it.  Python's [parts] tuple is the root, when there is one, followed by
    the segments. *)
Record PurePath : Type := mkPath { root_of : string; segs : list string }.

#[global] Instance PurePath_eq_dec : EqDecision PurePath.
Proof. solve_decision. Defined.

Module Pathlib.

(** [_PosixFlavour.splitroot] *)
Definition splitroot (part : string) : string * string :=
  if Str.startswith Str.slash part then
    let stripped := Str.lstrip Str.slash part in
    if Nat.eqb (String.length part - String.length stripped) 2
    then ("//", stripped) else ("/", stripped)
  else ("", part).

Definition keep_segment (x : string) : bool :=
  negb (Str.is_empty x) && negb (String.eqb x ".").

(** [_Flavour.parse_parts] on a single string *)
Definition parse (s : string) : PurePath :=
  let '(root, rel) := splitroot s in
  if Str.contains Str.slash rel
  then mkPath root (filter (fun x => Is_true (keep_segment x)) (Str.split Str.slash rel))
  else if keep_segment rel then mkPath root [rel] else mkPath root [].

Definition parts (p : PurePath) : list string :=
  if Str.is_empty (root_of p) then segs p else root_of p :: segs p.

Definition is_absolute (p : PurePath) : bool := negb (Str.is_empty (root_of p)).

(** [p.name]: the last segment, [""] when there is none *)
Definition name (p : PurePath) : string := List.last (segs p) "".

(** [p.parent]: drops the last segment; a path without segments is its
    own parent *)
Definition parent (p : PurePath) : PurePath :=
  mkPath (root_of p) (removelast (segs p)).

(** [p / s] for a string [s] *)
Definition joinpath (p : PurePath) (s : string) : PurePath :=
  let q := parse s in
  if is_absolute q then q else mkPath (root_of p) (segs p ++ segs q).

(** [p.suffix] *)
Definition suffix (p : PurePath) : string :=
  let n := name p in
  match Str.rfind Str.dot n with
  | Some i =>
      if Nat.ltb 0 i && Nat.ltb i (String.length n - 1)
      then Str.drop i n else ""
  | None => ""
  end.

(** [p.with_suffix(suffix)] *)
Definition with_suffix (p : PurePath) (sfx : string) : result PurePath :=
  if Str.contains Str.slash sfx then Raise InvalidSuffix
  else if (negb (Str.is_empty sfx) && negb (Str.startswith Str.dot sfx))
          || String.eqb sfx "."
  then Raise InvalidSuffix
  else
    let n := name p in
    if Str.is_empty n then Raise EmptyName
    else
      let old_suffix := suffix p in
      let n' :=
        if Str.is_empty old_suffix then n +:+ sfx
        else Str.take (String.length n - String.length old_suffix) n +:+ sfx in
      Ok (mkPath (root_of p) (removelast (segs p) ++ [n'])).

(** What every path built by [parse] and [joinpath] satisfies: a known
    root, and segments that are non-empty, are not ["."], and hold no
    separator. *)
Definition valid_segment (x : string) : Prop :=
  x <> "" /\ x <> "." /\ Str.contains Str.slash x = false.

Definition valid (p : PurePath) : Prop :=
  (root_of p = "" \/ root_of p = "/" \/ root_of p = "//")
  /\ Forall valid_segment (segs p).

End Pathlib.

(** ** The object store *)

(** A reference to a [PathNode] object. *)
Abbreviation ref := nat (only parsing).

(** [collections.OrderedDict] from child name to child node: the entries in
    insertion order, one per key. *)
Module OrderedDict.

Abbreviation t := (list (string * ref)) (only parsing).

(** [k in d] *)
Fixpoint contains (k : string) (d : t) : bool :=
  match d with
  | [] => false
  | (k', _) :: d' => String.eqb k' k || contains k d'
  end.

(** [d[k]] *)
Fixpoint get (k : string) (d : t) : option ref :=
  match d with
  | [] => None
  | (k', v) :: d' => if String.eqb k' k then Some v else get k d'
  end.

(** [d[k] = v]: a present key keeps its place, a new key goes last *)
Fixpoint set (k : string) (v : ref) (d : t) : t :=
  match d with
  | [] => [(k, v)]
  | (k', v') :: d' =>
      if String.eqb k' k then (k', v) :: d' else (k', v') :: set k v d'
  end.

(** [d.pop(k)] for a present key (the popped value is not used) *)
Fixpoint pop (k : string) (d : t) : t :=
  match d with
  | [] => []
  | (k', v') :: d' =>
      if String.eqb k' k then pop k d' else (k', v') :: pop k d'
  end.

Definition keys (d : t) : list string := map fst d.
Definition values (d : t) : list ref := map snd d.

End OrderedDict.

(** The attributes of one [PathNode] object. *)
Record PathNode : Type := mkNode {
  _name : string;
  _parent : option ref;        (* [None] for a root node *)
  _children : OrderedDict.t
}.

(** The store holds every [PathNode] ever created, in creation order; a
    node that was unlinked from its parent stays in the store, as garbage or
    as the target of a reference the caller kept. *)
Abbreviation store := (list PathNode) (only parsing).

(** Reading through a reference.  A reference handed out by the code always
    points into the store; the default only makes the function total. *)
Definition deref (h : store) (r : ref) : PathNode :=
  default (mkNode "" None []) (h !! r).

(** In-place update of the children mapping of the object at [r]. *)
Definition set_children (h : store) (r : ref) (d : OrderedDict.t) : store :=
  <[r := mkNode (_name (deref h r)) (_parent (deref h r)) d]> h.

(** ** [PathNode] *)

Module PathNode.

(** [PathNode(name, parent)]: the new object's reference is the next free
    index *)
Definition init (h : store) (name : string) (parent : option ref)
  : result (store * ref) :=
  if Nat.eqb (String.length name) 0 then Raise EmptyNodeName
  else Ok (h ++ [mkNode name parent []], length h).

Definition name (h : store) (self : ref) : string := _name (deref h self).

Definition parent (h : store) (self : ref) : option ref := _parent (deref h self).

Definition children (h : store) (self : ref) : list ref :=
  OrderedDict.values (_children (deref h self)).

Definition children_count (h : store) (self : ref) : nat :=
  length (_children (deref h self)).

Definition has_children (h : store) (self : ref) : bool :=
  Nat.ltb 0 (children_count h self).

Definition has_child (h : store) (self : ref) (childname : string) : bool :=
  OrderedDict.contains childname (_children (deref h self)).

Definition add_child (h : store) (self : ref) (childname : string)
  : result (store * ref) :=
  if Nat.ltb 1 (length (Pathlib.parts (Pathlib.parse childname)))
  then Raise MultipleLevels
  else if OrderedDict.contains childname (_children (deref h self))
  then Raise DuplicateChild
  else
    '(h1, child) ← init h childname (Some self);
    Ok (set_children h1 self
          (OrderedDict.set childname child (_children (deref h1 self))),
        child).

Definition remove_child (h : store) (self : ref) (childname : string)
  : result (store * ref) :=
  if negb (OrderedDict.contains childname (_children (deref h self)))
  then Raise RemovedMissingChild
  else
    Ok (set_children h self (OrderedDict.pop childname (_children (deref h self))),
        self).

Definition child (h : store) (self : ref) (childname : string) : result ref :=
  match OrderedDict.get childname (_children (deref h self)) with
  | Some c => Ok c
  | None => Raise NoChildNamed
  end.

(** the [for part in path.parts] loop of [has_descendant] *)
Fixpoint has_descendant_loop (h : store) (node : ref) (parts : list string)
  : result bool :=
  match parts with
  | [] => Ok true
  | part :: rest =>
      if has_child h node part
      then node' ← child h node part; has_descendant_loop h node' rest
      else Ok false
  end.

Definition has_descendant (h : store) (self : ref) (path : PurePath) : result bool :=
  has_descendant_loop h self (Pathlib.parts path).

(** the [for part in path.parts] loop of [descendant] *)
Fixpoint descendant_loop (h : store) (node : ref) (parts : list string)
  : result ref :=
  match parts with
  | [] => Ok node
  | part :: rest =>
      if has_child h node part
      then node' ← child h node part; descendant_loop h node' rest
      else Raise NonExistentPath
  end.

Definition descendant (h : store) (self : ref) (path : PurePath) : result ref :=
  descendant_loop h self (Pathlib.parts path).

Definition is_root_node (h : store) (self : ref) : bool :=
  match parent h self with None => true | Some _ => false end.

Definition is_child_of (h : store) (self node : ref) : bool :=
  bool_decide (parent h self = Some node).

Definition is_parent_of (h : store) (self node : ref) : bool :=
  bool_decide (parent h node = Some self).

Definition clear (h : store) (self : ref) : store := set_children h self [].

End PathNode.

(** ** [PathTree] *)

Record PathTree : Type := mkTree {
  _rootpath : PurePath;
  _root : ref
}.

Module PathTree.

(** [PathTree(path)] *)
Definition init (h : store) (path : PurePath) : result (store * PathTree) :=
  '(h1, r) ← PathNode.init h "." None;
  Ok (h1, mkTree path r).

Definition rootpath (t : PathTree) : PurePath := _rootpath t.

Definition _check_path (path : PurePath) : result unit :=
  if Pathlib.is_absolute path then Raise NotRelativePath else Ok tt.

(** the [for part in path.parts] loop of [add] *)
Fixpoint add_loop (h : store) (node : ref) (parts : list string)
  : result (store * ref) :=
  match parts with
  | [] => Ok (h, node)
  | part :: rest =>
      if PathNode.has_child h node part
      then node' ← PathNode.child h node part; add_loop h node' rest
      else '(h', node') ← PathNode.add_child h node part; add_loop h' node' rest
  end.

Definition add (h : store) (t : PathTree) (path : PurePath) : result (store * ref) :=
  _ ← _check_path path;
  add_loop h (_root t) (Pathlib.parts path).

Definition clear (h : store) (t : PathTree) : store := PathNode.clear h (_root t).

Definition is_path_to_root (path : PurePath) : bool :=
  Nat.eqb (length (Pathlib.parts path)) 0.

Definition remove (h : store) (t : PathTree) (path : PurePath)
  : result (store * option ref) :=
  if is_path_to_root path then Ok (clear h t, None)
  else
    parent ← PathNode.descendant h (_root t) (Pathlib.parent path);
    '(h', _) ← PathNode.remove_child h parent (Pathlib.name path);
    Ok (h', Some parent).

Definition descendant (h : store) (t : PathTree) (path : PurePath) : result ref :=
  PathNode.descendant h (_root t) path.

Definition has_descendant (h : store) (t : PathTree) (path : PurePath) : result bool :=
  PathNode.has_descendant h (_root t) path.

Definition children (h : store) (t : PathTree) (path : PurePath) : result (list ref) :=
  node ← descendant h t path;
  Ok (PathNode.children h node).

Definition children_count (h : store) (t : PathTree) (path : PurePath) : result nat :=
  _ ← _check_path path;
  node ← PathNode.descendant h (_root t) path;
  Ok (PathNode.children_count h node).

Definition has_children (h : store) (t : PathTree) (path : PurePath) : result bool :=
  n ← children_count h t path;
  Ok (Nat.ltb 0 n).

(** [traverse_breadth_first]: [q] is the deque, leftmost element first;
    one unit of fuel per [popleft] *)
Fixpoint bfs_loop (fuel : nat) (h : store) (q : list ref) : result (list ref) :=
  match fuel with
  | O => OutOfFuel
  | S fuel' =>
      match q with
      | [] => Ok []
      | node :: q' =>
          let q'' :=
            if Nat.ltb 0 (PathNode.children_count h node)
            then q' ++ PathNode.children h node else q' in
          rest ← bfs_loop fuel' h q'';
          Ok (node :: rest)
      end
  end.

Definition traverse_breadth_first (fuel : nat) (h : store) (t : PathTree)
  : result (list ref) :=
  bfs_loop fuel h [_root t].

(** [traverse_depth_first]: [s] is the Python list used as a stack, its
    LAST element (the one [s.pop()] takes) written first; appending the
    children in insertion order therefore puts them, reversed, in front.
    One unit of fuel per [pop]. *)
Fixpoint dfs_loop (fuel : nat) (h : store) (s : list ref) : result (list ref) :=
  match fuel with
  | O => OutOfFuel
  | S fuel' =>
      match s with
      | [] => Ok []
      | node :: s' =>
          let s'' :=
            if Nat.ltb 0 (PathNode.children_count h node)
            then rev (PathNode.children h node) ++ s' else s' in
          rest ← dfs_loop fuel' h s'';
          Ok (node :: rest)
      end
  end.

Definition traverse_depth_first (fuel : nat) (h : store) (t : PathTree)
  : result (list ref) :=
  dfs_loop fuel h [_root t].

(** the [for node in nodes] loop of [all_paths]: the paths it yields and
    the entries it appends to the deque.  [node.has_children] is read
    without being called, a bound method and so always true: an entry is
    appended for every node. *)
Fixpoint all_paths_nodes (h : store) (base : PurePath) (nodes : list ref)
  : list PurePath * list (PurePath * list ref) :=
  match nodes with
  | [] => ([], [])
  | node :: nodes' =>
      let path := Pathlib.joinpath base (PathNode.name h node) in
      let '(ys, qs) := all_paths_nodes h base nodes' in
      (path :: ys, (path, PathNode.children h node) :: qs)
  end.

(** the [while len(q) > 0] loop of [all_paths]; one unit of fuel per
    [popleft] *)
Fixpoint all_paths_loop (fuel : nat) (h : store) (q : list (PurePath * list ref))
  : result (list PurePath) :=
  match fuel with
  | O => OutOfFuel
  | S fuel' =>
      match q with
      | [] => Ok []
      | (base, nodes) :: q' =>
          let '(ys, qs) := all_paths_nodes h base nodes in
          rest ← all_paths_loop fuel' h (q' ++ qs);
          Ok (ys ++ rest)
      end
  end.

Definition all_paths (fuel : nat) (h : store) (t : PathTree) : result (list PurePath) :=
  all_paths_loop fuel h [(Pathlib.parse ".", [_root t])].

(** the [for path in paths] loop of [from_iterable] *)
Fixpoint add_all (h : store) (t : PathTree) (paths : list PurePath) : result store :=
  match paths with
  | [] => Ok h
  | path :: rest => '(h', _) ← add h t path; add_all h' t rest
  end.

Definition from_iterable (h : store) (paths : list PurePath) (rootpath : PurePath)
  : result (store * PathTree) :=
  '(h1, tree) ← init h rootpath;
  h2 ← add_all h1 tree paths;
  Ok (h2, tree).

(** first loop of [prune]: climb while the parent is neither [None] nor
    the limit node *)
Fixpoint prune_climb (fuel : nat) (h : store) (limit_node cur_node : ref) : result ref :=
  match fuel with
  | O => OutOfFuel
  | S fuel' =>
      match PathNode.parent h cur_node with
      | None => Ok cur_node
      | Some p =>
          if bool_decide (p = limit_node) then Ok cur_node
          else prune_climb fuel' h limit_node p
      end
  end.

(** second loop of [prune]: unlink childless ancestors *)
Fixpoint prune_unlink (fuel : nat) (h : store) (limit_node parent : ref)
  : result (store * ref) :=
  match fuel with
  | O => OutOfFuel
  | S fuel' =>
      if negb (PathNode.is_root_node h parent)
         && negb (bool_decide (parent = limit_node))
         && negb (PathNode.has_children h parent)
      then
        let childname := PathNode.name h parent in
        match PathNode.parent h parent with
        | None => Raise NoneAttribute
        | Some parent' =>
            '(h', _) ← PathNode.remove_child h parent' childname;
            prune_unlink fuel' h' limit_node parent'
        end
      else Ok (h, parent)
  end.

(** [prune].  Both loops walk parent references; a parent is always
    created before its child, so each walk takes fewer steps than the
    store has objects, and that is the budget the loops get. *)
Definition prune (h : store) (t : PathTree) (path limit_path : PurePath)
  : result (store * ref) :=
  node ← descendant h t path;
  limit_node ← descendant h t limit_path;
  cur_node ← prune_climb (length h) h limit_node node;
  match PathNode.parent h cur_node with
  | None => Raise LimitNotSubpath
  | Some _ =>
      match PathNode.parent h node with
      | None => Raise NoneAttribute
      | Some parent =>
          '(h1, _) ← PathNode.remove_child h parent (PathNode.name h node);
          prune_unlink (length h) h1 limit_node parent
      end
  end.

End PathTree.

(** ** [UnityGitRepository] *)

(** One entry of the mapping returned by [staged_at]: the change type with
    the tuples of paths it maps to, in the order the [for] loop sees them. *)
Inductive staged_entry : Type :=
  | StagedA (paths : list PurePath)                 (* "A": (path,) *)
  | StagedD (paths : list PurePath)                 (* "D": (path,) *)
  | StagedR (paths : list (PurePath * PurePath)).   (* "R": (old, new) *)

(** What the checker reads of a repository: its root, the answers of
    [tracked_at] and [staged_at] (collections in iteration order) and of the
    two file-system queries. *)
Record Repository : Type := mkRepo {
  root : PurePath;
  tracked_at : string -> list PurePath;
  staged_at : string -> list staged_entry;
  path_exists : PurePath -> bool;
  is_file : PurePath -> bool
}.

Module UnityGitRepository.

Definition is_hidden (path : PurePath) : bool :=
  existsb (Str.startswith Str.dot) (Pathlib.parts path).

Definition is_asset (path : PurePath) : bool :=
  let parts := Pathlib.parts path in
  if Nat.ltb 1 (length parts) && bool_decide (parts !! 0 = Some "Assets")
  then negb (is_hidden path) && negb (String.eqb (Pathlib.suffix path) ".meta")
  else false.

Definition is_meta_file (path : PurePath) : bool :=
  let parts := Pathlib.parts path in
  if Nat.ltb 1 (length parts) && bool_decide (parts !! 0 = Some "Assets")
  then negb (is_hidden path) && String.eqb (Pathlib.suffix path) ".meta"
  else false.

Definition meta_file_for_asset (asset_path : PurePath) : result PurePath :=
  if String.eqb (Pathlib.suffix asset_path) ".meta" then Raise NotAnAsset
  else Pathlib.with_suffix asset_path (Pathlib.suffix asset_path +:+ ".meta").

Definition asset_for_meta_file (meta_file_path : PurePath) : result PurePath :=
  if negb (String.eqb (Pathlib.suffix meta_file_path) ".meta") then Raise NotAMetaFile
  else Pathlib.with_suffix meta_file_path "".

(** [proposed].  The local variable [path] is bound by the loops of the
    "D" and "A" branches only; the "R" branch reads it. *)
Section Proposed.

Variable tree : PathTree.

Definition limit : PurePath := Pathlib.parse "Assets".

Fixpoint proposed_D (h : store) (path : option PurePath) (paths : list PurePath)
  : result (store * option PurePath) :=
  match paths with
  | [] => Ok (h, path)
  | p :: rest =>
      '(h', _) ← PathTree.prune h tree p limit;
      proposed_D h' (Some p) rest
  end.

Fixpoint proposed_A (h : store) (path : option PurePath) (paths : list PurePath)
  : result (store * option PurePath) :=
  match paths with
  | [] => Ok (h, path)
  | p :: rest =>
      '(h', _) ← PathTree.add h tree p;
      proposed_A h' (Some p) rest
  end.

Fixpoint proposed_R (h : store) (path : option PurePath)
    (paths : list (PurePath * PurePath)) : result store :=
  match paths with
  | [] => Ok h
  | (old, new) :: rest =>
      match path with
      | None => Raise UnboundLocal
      | Some p =>
          '(h1, _) ← PathTree.prune h tree p limit;
          '(h2, _) ← PathTree.add h1 tree new;
          proposed_R h2 path rest
      end
  end.

Fixpoint proposed_changes (h : store) (path : option PurePath)
    (changes : list staged_entry) : result store :=
  match changes with
  | [] => Ok h
  | StagedD paths :: rest =>
      '(h', path') ← proposed_D h path paths;
      proposed_changes h' path' rest
  | StagedA paths :: rest =>
      '(h', path') ← proposed_A h path paths;
      proposed_changes h' path' rest
  | StagedR paths :: rest =>
      h' ← proposed_R h path paths;
      proposed_changes h' path rest
  end.

End Proposed.

Definition proposed (r : Repository) : result (store * PathTree) :=
  let assets := List.filter is_asset (tracked_at r "Assets/") in
  '(h, tree) ← PathTree.from_iterable [] assets (Pathlib.joinpath (root r) "Assets");
  h' ← proposed_changes tree h None (staged_at r "Assets/");
  Ok (h', tree).

End UnityGitRepository.

(** ** [check_unity_meta_files] *)

(** A Python [set] of paths, as a list without repetition; only membership
    is observable. *)
Definition set_add (x : PurePath) (s : list PurePath) : list PurePath :=
  if bool_decide (x ∈ s) then s else s ++ [x].

Module Checker.

Import UnityGitRepository.

Section Staged.

Variable tracked_tree : PathTree.

Fixpoint staged_D (h : store) (paths : list PurePath) : result store :=
  match paths with
  | [] => Ok h
  | path :: rest =>
      if negb (is_hidden path)
      then '(h', _) ← PathTree.prune h tracked_tree path (Pathlib.parse "Assets");
           staged_D h' rest
      else staged_D h rest
  end.

Fixpoint staged_A (h : store) (paths : list PurePath) : result store :=
  match paths with
  | [] => Ok h
  | path :: rest =>
      if negb (is_hidden path)
      then '(h', _) ← PathTree.add h tracked_tree path; staged_A h' rest
      else staged_A h rest
  end.

(** one iteration of the "R" loop *)
Definition staged_rename (h : store) (old new : PurePath) : result store :=
  h1 ← (if negb (is_hidden old)
        then '(h', _) ← PathTree.prune h tracked_tree old (Pathlib.parse "Assets");
             Ok h'
        else Ok h);
  if negb (is_hidden new)
  then '(h2, _) ← PathTree.add h1 tracked_tree new; Ok h2
  else Ok h1.

Fixpoint staged_R (h : store) (paths : list (PurePath * PurePath)) : result store :=
  match paths with
  | [] => Ok h
  | (old, new) :: rest => h' ← staged_rename h old new; staged_R h' rest
  end.

Fixpoint apply_staged (h : store) (changes : list staged_entry) : result store :=
  match changes with
  | [] => Ok h
  | StagedD paths :: rest => h' ← staged_D h paths; apply_staged h' rest
  | StagedA paths :: rest => h' ← staged_A h paths; apply_staged h' rest
  | StagedR paths :: rest => h' ← staged_R h paths; apply_staged h' rest
  end.

End Staged.

(** lines 13-42: the tree of the proposed state *)
Definition build (r : Repository) : result (store * PathTree) :=
  let tracked := List.filter (fun p => negb (is_hidden p)) (tracked_at r "Assets/") in
  '(h, tracked_tree) ← PathTree.from_iterable [] tracked (root r);
  h' ← apply_staged tracked_tree h (staged_at r "Assets/");
  Ok (h', tracked_tree).

(** lines 44-52: the body of the [for path in tracked_tree.all_paths()]
    loop, on the two sets *)
Definition classify_path (r : Repository) (acc : list PurePath * list PurePath)
    (path : PurePath) : result (list PurePath * list PurePath) :=
  let '(missing, orphans) := acc in
  if is_asset path && path_exists r path then
    meta_file_path ← meta_file_for_asset path;
    if negb (is_file r meta_file_path)
    then Ok (set_add meta_file_path missing, orphans)
    else Ok (missing, orphans)
  else if is_meta_file path && is_file r path then
    asset_path ← asset_for_meta_file path;
    if negb (path_exists r asset_path)
    then Ok (missing, set_add path orphans)
    else Ok (missing, orphans)
  else Ok (missing, orphans).

Fixpoint classify (r : Repository) (acc : list PurePath * list PurePath)
    (paths : list PurePath) : result (list PurePath * list PurePath) :=
  match paths with
  | [] => Ok acc
  | path :: rest => acc' ← classify_path r acc path; classify r acc' rest
  end.

Definition check_unity_meta_files (fuel : nat) (r : Repository)
  : result (bool * list PurePath * list PurePath) :=
  '(h, tracked_tree) ← build r;
  paths ← PathTree.all_paths fuel h tracked_tree;
  '(missing, orphans) ← classify r ([], []) paths;
  Ok (Nat.eqb (length missing + length orphans) 0, missing, orphans).

End Checker.

(** ** Running the code *)

Definition Path (s : string) : PurePath := Pathlib.parse s.

Definition tree_of (paths : list string) : result (store * PathTree) :=
  PathTree.from_iterable [] (map Path paths) (Path "path/to/some/dir").

Definition names_of (h : store) (rs : list ref) : list string :=
  map (PathNode.name h) rs.

(** ** Well-formed stores *)

(** What every store built by the operations above satisfies: the keys of a
    children mapping are distinct, and each entry [(k, c)] of the mapping of
    node [i] points to a node created after [i], named [k], whose parent
    reference is [i]. *)
Definition wf_store (h : store) : Prop :=
  forall i nd, h !! i = Some nd ->
    NoDup (OrderedDict.keys (_children nd)) /\
    forall k c, (k, c) ∈ _children nd ->
      i < c /\ exists ndc, h !! c = Some ndc /\ _name ndc = k /\ _parent ndc = Some i.

(** A tree over a well-formed store: its root is a node without parent. *)
Definition wf_tree (h : store) (t : PathTree) : Prop :=
  wf_store h /\ exists nd, h !! _root t = Some nd /\ _parent nd = None.

(** The node reached from [node] by following child names, if there is one:
    the walk of [has_descendant] and [descendant] without their outcomes. *)
Fixpoint walk (h : store) (node : ref) (parts : list string) : option ref :=
  match parts with
  | [] => Some node
  | part :: rest =>
      match OrderedDict.get part (_children (deref h node)) with
      | Some c => walk h c rest
      | None => None
      end
  end.

(** [h'] has every node of [h], under the same reference, with the same
    name and the same parent reference: what an update of children
    mappings and the creation of nodes do to a store. *)
Definition extends (h h' : store) : Prop :=
  forall i nd, h !! i = Some nd ->
    exists nd', h' !! i = Some nd' /\ _name nd' = _name nd /\ _parent nd' = _parent nd.

(** Readers for the outcome of a call that builds a tree. *)
Definition store_of (r : result (store * PathTree)) : store :=
  match r with Ok (h, _) => h | _ => [] end.

Definition tree_in (r : result (store * PathTree)) : PathTree :=
  match r with Ok (_, t) => t | _ => mkTree (Path ".") 0 end.

(** ** Traversal orders, as recursive definitions *)

(** The nodes below and including [n], a node before its descendants, the
    children of a node last-inserted first and the whole subtree of a child
    before the next child.  [d] bounds the depth to which the recursion
    descends; in a well-formed store the number of objects is enough. *)
Fixpoint preorder_last_first (d : nat) (h : store) (n : ref) : list ref :=
  match d with
  | O => [n]
  | S d' => n :: flat_map (preorder_last_first d' h) (rev (PathNode.children h n))
  end.

(** ** Measures and invariants used for the checker *)

(** Number of nodes below and including [n]. *)
Definition weight (h : store) (n : ref) : nat :=
  length (preorder_last_first (length h) h n).

(** What is left to do for [all_paths] with the deque [q]: one step for
    each entry, and all that is below the nodes it holds. *)
Definition potential (h : store) (q : list (PurePath * list ref)) : nat :=
  list_sum (map (fun e => S (list_sum (map (weight h) (snd e)))) q).

(** A segment that is valid and does not start with a dot. *)
Definition plain_name (s : string) : Prop :=
  Pathlib.valid_segment s /\ Str.startswith Str.dot s = false.

(** A relative path all of whose segments are plain. *)
Definition visible_path (p : PurePath) : Prop :=
  root_of p = "" /\ Forall plain_name (segs p).

(** Every node of the store is named ["."] or has a plain name. *)
Definition visible_names (h : store) : Prop :=
  forall i nd, h !! i = Some nd -> _name nd = "." \/ plain_name (_name nd).

(** The paths of a staged entry are paths as [pathlib] builds them. *)
Definition valid_entry (e : staged_entry) : Prop :=
  match e with
  | StagedA paths | StagedD paths => Forall Pathlib.valid paths
  | StagedR paths => Forall (fun on => Pathlib.valid (fst on) /\ Pathlib.valid (snd on)) paths
  end.

Definition valid_repository (r : Repository) : Prop :=
  Forall Pathlib.valid (tracked_at r "Assets/")
  /\ Forall valid_entry (staged_at r "Assets/").

(** ** What the checker has to report, in the words of its specification *)

(** [x] is the companion path of an enumerated path that exists and is an
    asset path, and [x] is not a file. *)
Definition is_missing (r : Repository) (paths : list PurePath) (x : PurePath) : Prop :=
  exists p, p ∈ paths
            /\ UnityGitRepository.is_asset p = true
            /\ path_exists r p = true
            /\ UnityGitRepository.meta_file_for_asset p = Ok x
            /\ is_file r x = false.

(** [x] is an enumerated path that is a file and a metadata-file path, and
    the asset path derived from it does not exist. *)
Definition is_orphan (r : Repository) (paths : list PurePath) (x : PurePath) : Prop :=
  x ∈ paths
  /\ UnityGitRepository.is_meta_file x = true
  /\ is_file r x = true
  /\ exists a, UnityGitRepository.asset_for_meta_file x = Ok a
               /\ path_exists r a = false.

(** ** Repositories to run the checker on *)

(** [Assets/a] tracked and in the working tree, without its [.meta]. *)
Definition repo_missing_meta : Repository :=
  mkRepo (Path "/repo")
    (fun _ => [Path "Assets/a"])
    (fun _ => [])
    (fun p => bool_decide (p = Path "Assets" \/ p = Path "Assets/a"))
    (fun p => bool_decide (p = Path "Assets/a")).

(** A hidden directory next to an asset with its [.meta]; a hidden file is
    staged as added, and an asset is renamed into a hidden directory. *)
Definition repo_hidden : Repository :=
  mkRepo (Path "/repo")
    (fun _ => [Path "Assets/.hidden/a"; Path "Assets/b"; Path "Assets/b.meta";
               Path "Assets/c"; Path "Assets/c.meta"])
    (fun _ => [StagedA [Path "Assets/.new"];
               StagedR [(Path "Assets/c", Path "Assets/.hidden/c")]])
    (fun p => bool_decide (p ∈ [Path "Assets"; Path "Assets/.hidden";
                               Path "Assets/.hidden/a"; Path "Assets/.hidden/c";
                               Path "Assets/.new"; Path "Assets/b";
                               Path "Assets/b.meta"; Path "Assets/c.meta"]))
    (fun p => bool_decide (p ∈ [Path "Assets/.hidden/a"; Path "Assets/.hidden/c";
                               Path "Assets/.new"; Path "Assets/b";
                               Path "Assets/b.meta"; Path "Assets/c.meta"])).

(** [Assets/n] staged as added and [Assets/b] renamed to [Assets/c]. *)
Definition repo_add_then_rename : Repository :=
  mkRepo (Path "/repo")
    (fun _ => [Path "Assets/b"; Path "Assets/keep"])
    (fun _ => [StagedA [Path "Assets/n"];
               StagedR [(Path "Assets/b", Path "Assets/c")]])
    (fun p => bool_decide (p ∈ [Path "Assets"; Path "Assets/n"; Path "Assets/c";
                               Path "Assets/keep"]))
    (fun p => bool_decide (p ∈ [Path "Assets/n"; Path "Assets/c"; Path "Assets/keep"])).

(** [Assets/a] staged as deleted and [Assets/b] renamed to [Assets/c]. *)
Definition repo_delete_then_rename : Repository :=
  mkRepo (Path "/repo")
    (fun _ => [Path "Assets/a"; Path "Assets/b"; Path "Assets/keep"])
    (fun _ => [StagedD [Path "Assets/a"];
               StagedR [(Path "Assets/b", Path "Assets/c")]])
    (fun p => bool_decide (p ∈ [Path "Assets"; Path "Assets/c"; Path "Assets/keep"]))
    (fun p => bool_decide (p ∈ [Path "Assets/c"; Path "Assets/keep"])).

(** Only a rename staged: [Assets/b] to [Assets/c]. *)
Definition repo_rename_only : Repository :=
  mkRepo (Path "/repo")
    (fun _ => [Path "Assets/b"; Path "Assets/keep"])
    (fun _ => [StagedR [(Path "Assets/b", Path "Assets/c")]])
    (fun p => bool_decide (p ∈ [Path "Assets"; Path "Assets/c"; Path "Assets/keep"]))
    (fun p => bool_decide (p ∈ [Path "Assets/c"; Path "Assets/keep"])).

(** Whether the tree an operation built has the path. *)
Definition has (r : result (store * PathTree)) (path : string) : result bool :=
  '(h, t) ← r; PathTree.has_descendant h t (Path path).

(** ** Ancestors, and what [prune] leaves behind *)

(** [a] is a proper ancestor of [n]: [n] is reached from [a] through a
    non-empty sequence of child names. *)
Definition proper_ancestor (h : store) (a n : ref) : Prop :=
  exists rest, rest <> [] /\ walk h a rest = Some n.

(** [h'] is [h] with the child [k] of the node at [qs] unlinked: that node
    lost the entry [k], and any other node whose children mapping changed
    lies below the unlinked child. *)
Definition unlinked (h h' : store) (root : ref) (qs : list string) (k : string) : Prop :=
  exists s,
    walk h root qs = Some s
    /\ _children (deref h' s) = OrderedDict.pop k (_children (deref h s))
    /\ forall x, x <> s ->
         _children (deref h' x) <> _children (deref h x) ->
         exists r, walk h root (qs ++ k :: r) = Some x.

(** [h'] names the nodes of [h] and links them to their parents as [h]
    does. *)
Definition same_nodes (h h' : store) : Prop :=
  length h' = length h
  /\ forall x, _name (deref h' x) = _name (deref h x)
               /\ _parent (deref h' x) = _parent (deref h x).

(** ** Repository states as git reports them *)

(** The path is in the tree. *)
Definition present (h : store) (t : PathTree) (p : PurePath) : Prop :=
  is_Some (walk h (_root t) (Pathlib.parts p)).

(** The paths the checker prunes, in the order of its loops: the deleted
    paths and the old sides of the renames, the hidden ones left out. *)
Fixpoint pruned_paths (changes : list staged_entry) : list PurePath :=
  match changes with
  | [] => []
  | StagedA _ :: rest => pruned_paths rest
  | StagedD paths :: rest =>
      List.filter (fun p => negb (UnityGitRepository.is_hidden p)) paths
      ++ pruned_paths rest
  | StagedR paths :: rest =>
      List.filter (fun p => negb (UnityGitRepository.is_hidden p)) (map fst paths)
      ++ pruned_paths rest
  end.

Definition relative_entry (e : staged_entry) : Prop :=
  match e with
  | StagedA paths | StagedD paths =>
      Forall (fun p => Pathlib.is_absolute p = false) paths
  | StagedR paths =>
      Forall (fun on => Pathlib.is_absolute (fst on) = false
                        /\ Pathlib.is_absolute (snd on) = false) paths
  end.

(** The path names something inside [Assets]. *)
Definition under_assets (p : PurePath) : Prop :=
  exists x rest, Pathlib.parts p = "Assets" :: x :: rest.

(** What git guarantees of the two listings: all paths are relative
    [pathlib] paths; the tracked paths are files inside [Assets], so none
    is a prefix of another; and the paths reported as deleted or renamed
    away are tracked paths, each reported once. *)
Definition consistent_repository (r : Repository) : Prop :=
  valid_repository r
  /\ Forall (fun p => Pathlib.is_absolute p = false) (tracked_at r "Assets/")
  /\ Forall relative_entry (staged_at r "Assets/")
  /\ Forall under_assets (tracked_at r "Assets/")
  /\ (forall p q,
         p ∈ tracked_at r "Assets/" -> q ∈ tracked_at r "Assets/" ->
         Pathlib.parts p `prefix_of` Pathlib.parts q -> p = q)
  /\ NoDup (pruned_paths (staged_at r "Assets/"))
  /\ Forall (fun p => p ∈ tracked_at r "Assets/") (pruned_paths (staged_at r "Assets/")).

(** The names met by a traversal of the tree built from [paths]. *)
Definition traversal_names
    (traverse : nat -> store -> PathTree -> result (list ref))
    (paths : list string) : result (list string) :=
  '(h, t) ← tree_of paths;
  nodes ← traverse (S (length h)) h t;
  Ok (names_of h nodes).

Definition all_paths_of (paths : list string) : result (list PurePath) :=
  '(h, t) ← tree_of paths; PathTree.all_paths (S (S (length h))) h t.

(** [Assets/a/b/c] and [Assets/a/e] tracked, [Assets/a/b/c] staged as
    deleted. *)
Definition repo_remove_nested : Repository :=
  mkRepo (Path "/repo")
    (fun _ => [Path "Assets/a/b/c"; Path "Assets/a/e"])
    (fun _ => [StagedD [Path "Assets/a/b/c"]])
    (fun p => bool_decide (p ∈ [Path "Assets"; Path "Assets/a"; Path "Assets/a/e"]))
    (fun p => bool_decide (p ∈ [Path "Assets/a/e"])).

(** ** Further traversal orders and operation sequences *)

(** The nodes level by level: [ns], then the children of the nodes of
    [ns] in insertion order, then theirs, and so on; [d] bounds the number
    of levels after the first. *)
Fixpoint level_order (d : nat) (h : store) (ns : list ref) : list ref :=
  match d with
  | O => ns
  | S d' => ns ++ level_order d' h (flat_map (PathNode.children h) ns)
  end.

(** Every key of a children mapping is a path segment as [pathlib] yields
    them: what [PathTree.add] builds from the parts of valid paths. *)
Definition segment_keys (h : store) : Prop :=
  Forall (fun nd => Forall Pathlib.valid_segment (OrderedDict.keys (_children nd))) h.

(** An entry of the deque of [all_paths] as the loop appends them: the
    path of a node of the tree, with the children of that node. *)
Definition entry_of_tree (h : store) (t : PathTree) (e : PurePath * list ref) : Prop :=
  exists bs b,
    fst e = mkPath "" bs /\ walk h (_root t) bs = Some b
    /\ snd e = PathNode.children h b.

(** No list is listed twice, and none is a prefix of another. *)
Definition antichain (l : list (list string)) : Prop :=
  NoDup l /\ forall x y, x ∈ l -> y ∈ l -> x `prefix_of` y -> x = y.

(** The children of every node are keyed by path segments, and the root
    is named as [PathTree.__init__] names it. *)
Definition path_keyed (h : store) (t : PathTree) : Prop :=
  segment_keys h /\ PathNode.name h (_root t) = ".".

(** ** Sequences of calls on a tree *)

(** A call of one of the mutators of [PathTree]. *)
Inductive tree_op : Type :=
  | OpAdd (path : PurePath)
  | OpRemove (path : PurePath)
  | OpPrune (path limit_path : PurePath)
  | OpClear.

(** The store after the call; the value the call returns is dropped. *)
Definition apply_op (h : store) (t : PathTree) (op : tree_op) : result store :=
  match op with
  | OpAdd path => '(h', _) ← PathTree.add h t path; Ok h'
  | OpRemove path => '(h', _) ← PathTree.remove h t path; Ok h'
  | OpPrune path limit_path => '(h', _) ← PathTree.prune h t path limit_path; Ok h'
  | OpClear => Ok (PathTree.clear h t)
  end.

(** The calls one after the other; the first to raise ends the run. *)
Fixpoint apply_ops (h : store) (t : PathTree) (ops : list tree_op) : result store :=
  match ops with
  | [] => Ok h
  | op :: rest => h' ← apply_op h t op; apply_ops h' t rest
  end.

(** ** [GitRepository.staged_at]: the loop over the words of git's output *)

Module GitRepository.

(** A path tuple, [(path,)] or [(path_from, path_to)], is the list of its
    paths; a Python [set] of tuples is a list without repetition, of which
    only membership is observable. *)
Definition tuple_set_add (tup : list PurePath) (s : list (list PurePath))
  : list (list PurePath) :=
  if bool_decide (tup ∈ s) then s else s ++ [tup].

(** [changes.setdefault(key, set()).add(tup)] on the dict [changes], the
    keys in insertion order *)
Fixpoint setdefault_add (key : string) (tup : list PurePath)
    (changes : list (string * list (list PurePath)))
  : list (string * list (list PurePath)) :=
  match changes with
  | [] => [(key, tuple_set_add tup [])]
  | (k, s) :: rest =>
      if String.eqb k key then (k, tuple_set_add tup s) :: rest
      else (k, s) :: setdefault_add key tup rest
  end.

(** [words[i]], read only where the guards of the loop have checked the
    index *)
Definition word (words : list string) (i : nat) : string :=
  default "" (words !! i).

(** the [while i < len(words)] loop (lines 134-166); one unit of fuel per
    round *)
Fixpoint staged_at_loop (fuel : nat) (words : list string) (i : nat)
    (changes : list (string * list (list PurePath)))
  : result (list (string * list (list PurePath))) :=
  match fuel with
  | O => OutOfFuel
  | S fuel' =>
      if Nat.ltb i (length words) then
        let change := word words i in
        if String.eqb change "A" && Nat.ltb (i + 1) (length words) then
          let path := Pathlib.parse (word words (i + 1)) in
          staged_at_loop fuel' words (i + 2) (setdefault_add change [path] changes)
        else if String.eqb change "D" && Nat.ltb (i + 1) (length words) then
          let path := Pathlib.parse (word words (i + 1)) in
          staged_at_loop fuel' words (i + 2) (setdefault_add change [path] changes)
        else if Str.startswith "R"%char change && Nat.ltb (i + 2) (length words) then
          let path_from := Pathlib.parse (word words (i + 1)) in
          let path_to := Pathlib.parse (word words (i + 2)) in
          staged_at_loop fuel' words (i + 3)
            (setdefault_add "R" [path_from; path_to] changes)
        else staged_at_loop fuel' words (i + 1) changes
      else Ok changes
  end.

(** lines 131-167, from the list [words] on: [i = 0], [changes = {}] *)
Definition staged_at_words (fuel : nat) (words : list string)
  : result (list (string * list (list PurePath))) :=
  staged_at_loop fuel words 0 [].

(** [changes.get(key, set())] *)
Fixpoint changes_get (key : string) (changes : list (string * list (list PurePath)))
  : list (list PurePath) :=
  match changes with
  | [] => []
  | (k, s) :: rest => if String.eqb k key then s else changes_get key rest
  end.

End GitRepository.

(** What [git diff --cached --name-status -z] prints, record by record: a
    status word followed by one path, or by two after a rename; any other
    word stands for itself. *)
Inductive status_record : Type :=
  | RecA (path : string)
  | RecD (path : string)
  | RecR (score path_from path_to : string)
  | RecWord (w : string).

Definition words_of (r : status_record) : list string :=
  match r with
  | RecA path => ["A"; path]
  | RecD path => ["D"; path]
  | RecR score path_from path_to => [String "R" score; path_from; path_to]
  | RecWord w => [w]
  end.

(** The word is one the loop takes for a status. *)
Definition looks_like_status (w : string) : bool :=
  String.eqb w "A" || String.eqb w "D" || Str.startswith "R"%char w.

Definition plain_record (r : status_record) : Prop :=
  match r with
  | RecWord w => looks_like_status w = false
  | _ => True
  end.

(** ** Ordered dictionaries *)

Section OrderedDictFacts.

Import OrderedDict.
Implicit Types (k : string) (c v : ref) (d : OrderedDict.t).

Lemma contains_get_None k d : contains k d = false <-> get k d = None.
Proof.
  induction d as [|[k' v'] d IH]; simpl; [done|].
  destruct (String.eqb k' k); simpl; [split; discriminate | done].
Qed.

Lemma contains_get_Some k d : contains k d = true <-> exists c, get k d = Some c.
Proof.
  induction d as [|[k' v'] d IH]; simpl.
  - split; [discriminate | by intros [? ?]].
  - destruct (String.eqb k' k); simpl; [split; eauto | done].
Qed.

Lemma get_elem k c d : get k d = Some c -> (k, c) ∈ d.
Proof.
  induction d as [|[k' v'] d IH]; simpl; [done|].
  destruct (String.eqb_spec k' k) as [->|].
  - intros [= ->]. apply list_elem_of_here.
  - intros H. apply list_elem_of_further. auto.
Qed.

Lemma elem_keys k c d : (k, c) ∈ d -> k ∈ keys d.
Proof. intros H. apply list_elem_of_fmap. by exists (k, c). Qed.

Lemma elem_get k c d : NoDup (keys d) -> (k, c) ∈ d -> get k d = Some c.
Proof.
  induction d as [|[k' v'] d IH]; simpl; intros Hnd Hin.
  - by apply elem_of_nil in Hin.
  - apply NoDup_cons in Hnd as [Hk' Hnd].
    apply elem_of_cons in Hin as [[= -> ->] | Hin].
    + by rewrite String.eqb_refl.
    + destruct (String.eqb_spec k' k) as [->|]; [|auto].
      destruct Hk'. eapply elem_keys; eauto.
Qed.

Lemma set_new k v d : contains k d = false -> set k v d = d ++ [(k, v)].
Proof.
  induction d as [|[k' v'] d IH]; simpl; [done|].
  destruct (String.eqb k' k); simpl; [done|].
  intros H. by rewrite IH.
Qed.

Lemma get_snoc k k' v d :
  get k (d ++ [(k', v)]) =
  match get k d with
  | Some c => Some c
  | None => if String.eqb k' k then Some v else None
  end.
Proof.
  induction d as [|[k1 v1] d IH]; simpl; [done|].
  by destruct (String.eqb k1 k).
Qed.

Lemma elem_pop k k' c d : (k', c) ∈ pop k d <-> (k', c) ∈ d /\ k' <> k.
Proof.
  induction d as [|[k1 v1] d IH]; simpl.
  - split; [by intros ?%elem_of_nil | by intros [?%elem_of_nil _]].
  - destruct (String.eqb_spec k1 k) as [->|Hne].
    + rewrite IH, elem_of_cons. split; [tauto|].
      intros [[[= -> ->]|H] Hk]; [done | tauto].
    + rewrite !elem_of_cons, IH. split; [|tauto].
      intros [[= -> ->]|[H Hk]]; tauto.
Qed.

Lemma get_pop k k' d :
  get k' (pop k d) = if String.eqb k k' then None else get k' d.
Proof.
  induction d as [|[k1 v1] d IH]; simpl.
  - by destruct (String.eqb k k').
  - destruct (String.eqb_spec k1 k) as [->|Hne].
    + rewrite IH. by destruct (String.eqb k k').
    + simpl. rewrite IH.
      destruct (String.eqb_spec k1 k') as [->|]; [|done].
      destruct (String.eqb_spec k k'); [congruence | done].
Qed.

Lemma contains_pop k d : contains k (pop k d) = false.
Proof. apply contains_get_None. by rewrite get_pop, String.eqb_refl. Qed.

Lemma keys_pop k d : keys (pop k d) = filter (fun k' => k' <> k) (keys d).
Proof.
  induction d as [|[k1 v1] d IH]; simpl; [done|].
  destruct (String.eqb_spec k1 k) as [->|Hne].
  - rewrite filter_cons_False by tauto. done.
  - rewrite filter_cons_True by done. simpl. by rewrite IH.
Qed.

Lemma NoDup_keys_pop k d : NoDup (keys d) -> NoDup (keys (pop k d)).
Proof. rewrite keys_pop. apply NoDup_filter. Qed.

Lemma NoDup_keys_snoc k v d :
  NoDup (keys d) -> contains k d = false -> NoDup (keys (d ++ [(k, v)])).
Proof.
  intros Hnd Hc. unfold keys. rewrite map_app. simpl.
  apply NoDup_app. split; [done|]. split; [|apply NoDup_singleton].
  intros x Hx ->%list_elem_of_singleton.
  apply list_elem_of_fmap in Hx as [[k' c] [? Hin]]. simpl in *. subst k'.
  apply contains_get_None in Hc.
  by rewrite (elem_get _ _ _ Hnd Hin) in Hc.
Qed.

Lemma length_pop_le k d : length (pop k d) <= length d.
Proof.
  induction d as [|[k1 v1] d IH]; simpl; [done|].
  destruct (String.eqb k1 k); simpl; lia.
Qed.

End OrderedDictFacts.

(** ** The store *)

Section StoreFacts.

Implicit Types (h : store) (r i c : ref) (d : OrderedDict.t) (nd : PathNode).

Lemma deref_Some h i nd : h !! i = Some nd -> deref h i = nd.
Proof. unfold deref. by intros ->. Qed.

Lemma deref_ge h i : length h <= i -> deref h i = mkNode "" None [].
Proof. intros H. unfold deref. by rewrite lookup_ge_None_2. Qed.

Lemma deref_app_l h h' i : i < length h -> deref (h ++ h') i = deref h i.
Proof. intros H. unfold deref. by rewrite lookup_app_l. Qed.

Lemma deref_alloc h nd : deref (h ++ [nd]) (length h) = nd.
Proof. unfold deref. by rewrite list_lookup_middle. Qed.

Lemma length_set_children h r d : length (set_children h r d) = length h.
Proof. apply length_insert. Qed.

Lemma deref_set_children_eq h r d :
  r < length h ->
  deref (set_children h r d) r = mkNode (_name (deref h r)) (_parent (deref h r)) d.
Proof. intros H. unfold deref at 1, set_children. by rewrite list_lookup_insert_eq. Qed.

Lemma deref_set_children_ne h r d i :
  i <> r -> deref (set_children h r d) i = deref h i.
Proof. intros H. unfold deref, set_children. by rewrite list_lookup_insert_ne. Qed.

(** An update of a children mapping leaves every name and parent
    reference as it was. *)
Lemma name_set_children h r d i :
  _name (deref (set_children h r d) i) = _name (deref h i).
Proof.
  destruct (decide (i = r)) as [->|]; [|by rewrite deref_set_children_ne].
  destruct (decide (r < length h)); [by rewrite deref_set_children_eq|].
  unfold set_children. by rewrite list_insert_ge by lia.
Qed.

Lemma parent_set_children h r d i :
  _parent (deref (set_children h r d) i) = _parent (deref h i).
Proof.
  destruct (decide (i = r)) as [->|]; [|by rewrite deref_set_children_ne].
  destruct (decide (r < length h)); [by rewrite deref_set_children_eq|].
  unfold set_children. by rewrite list_insert_ge by lia.
Qed.

Lemma lookup_set_children_Some h r d i nd :
  set_children h r d !! i = Some nd ->
  exists nd0, h !! i = Some nd0 /\ _name nd = _name nd0 /\ _parent nd = _parent nd0
              /\ _children nd = if decide (i = r) then d else _children nd0.
Proof.
  unfold set_children. intros H.
  destruct (decide (i = r)) as [->|Hne].
  - assert (r < length h) as Hlt.
    { apply lookup_lt_Some in H. by rewrite length_insert in H. }
    rewrite list_lookup_insert_eq in H by done. injection H as <-.
    destruct (lookup_lt_is_Some_2 h r Hlt) as [nd0 E].
    exists nd0. by rewrite (deref_Some _ _ _ E).
  - rewrite list_lookup_insert_ne in H by done. eauto.
Qed.

Lemma lookup_set_children_keeps h r d c ndc :
  h !! c = Some ndc ->
  exists ndc', set_children h r d !! c = Some ndc'
               /\ _name ndc' = _name ndc /\ _parent ndc' = _parent ndc.
Proof.
  intros E. unfold set_children.
  destruct (decide (c = r)) as [->|Hne].
  - rewrite list_lookup_insert_eq by (by eapply lookup_lt_Some).
    eexists; split; [done|]. by rewrite (deref_Some _ _ _ E).
  - rewrite list_lookup_insert_ne by done. eauto.
Qed.

(** Replacing the children of [r] by entries that are themselves in order
    keeps the store well-formed. *)
Lemma wf_store_set_children h r d :
  wf_store h ->
  NoDup (OrderedDict.keys d) ->
  (forall k c, (k, c) ∈ d ->
     r < c /\ exists ndc, h !! c = Some ndc /\ _name ndc = k /\ _parent ndc = Some r) ->
  wf_store (set_children h r d).
Proof.
  intros Hwf Hnd Hd i nd Hi.
  apply lookup_set_children_Some in Hi as (nd0 & E0 & _ & _ & Hch).
  destruct (Hwf i nd0 E0) as [Hnd0 Hc0].
  assert (forall k c, (k, c) ∈ _children nd ->
            i < c /\ exists ndc, h !! c = Some ndc /\ _name ndc = k
                                /\ _parent ndc = Some i) as Hall.
  { rewrite Hch. destruct (decide (i = r)) as [->|]; auto. }
  split.
  - rewrite Hch. by destruct (decide (i = r)).
  - intros k c Hin. destruct (Hall k c Hin) as [Hlt (ndc & Ec & Hn & Hp)].
    split; [done|].
    destruct (lookup_set_children_keeps h r d c ndc Ec) as (ndc' & E' & Hn' & Hp').
    exists ndc'. split; [done|]. by rewrite Hn', Hp'.
Qed.

Lemma wf_store_alloc h n p : wf_store h -> wf_store (h ++ [mkNode n p []]).
Proof.
  intros Hwf i nd Hi.
  apply lookup_app_Some in Hi as [Hi | [_ Hi]].
  - destruct (Hwf i nd Hi) as [Hnd Hc]. split; [done|].
    intros k c Hin. destruct (Hc k c Hin) as [Hlt (ndc & Ec & Hn & Hp)].
    split; [done|]. exists ndc. split; [|done].
    by apply lookup_app_l_Some.
  - apply list_lookup_singleton_Some in Hi as [_ <-]. simpl.
    split; [apply NoDup_nil_2 | by intros k c ?%elem_of_nil].
Qed.

Lemma wf_store_nil : wf_store [].
Proof. intros i nd Hi. by rewrite lookup_nil in Hi. Qed.

End StoreFacts.

(** * Properties *)

(** ** Strings *)

Section StrFacts.

Implicit Types (s : string) (c : ascii).

Lemma str_app_cons a s t : String a s +:+ t = String a (s +:+ t).
Proof. reflexivity. Qed.

Lemma str_app_nil_l s : "" +:+ s = s.
Proof. reflexivity. Qed.

(** unfold one step of an append whose left operand is known *)
Ltac step_app := rewrite ?str_app_cons, ?str_app_nil_l; simpl.

Lemma str_length_app s1 s2 :
  String.length (s1 +:+ s2) = String.length s1 + String.length s2.
Proof. induction s1 as [|a s1 IH]; step_app; [done | by rewrite IH]. Qed.

Lemma str_app_empty_r s : s +:+ "" = s.
Proof. induction s as [|a s IH]; step_app; [done | by rewrite IH]. Qed.

Lemma app_assoc_str s1 s2 s3 : (s1 +:+ s2) +:+ s3 = s1 +:+ (s2 +:+ s3).
Proof. induction s1 as [|a s1 IH]; step_app; [done | by rewrite IH]. Qed.

Lemma is_empty_true s : Str.is_empty s = true <-> s = "".
Proof. destruct s; simpl; split; congruence. Qed.

Lemma is_empty_false s : Str.is_empty s = false <-> s <> "".
Proof. destruct s; simpl; split; congruence. Qed.

Lemma str_is_empty_app s1 s2 : s1 <> "" -> Str.is_empty (s1 +:+ s2) = false.
Proof. by destruct s1. Qed.

Lemma str_contains_app c s1 s2 :
  Str.contains c (s1 +:+ s2) = Str.contains c s1 || Str.contains c s2.
Proof.
  induction s1 as [|a s1 IH]; step_app; [done|].
  rewrite IH. by rewrite orb_assoc.
Qed.

Lemma str_contains_drop c n s :
  Str.contains c s = false -> Str.contains c (Str.drop n s) = false.
Proof.
  revert s; induction n as [|n IH]; intros [|a s]; simpl; try done.
  intros [_ H]%orb_false_elim. by apply IH.
Qed.

Lemma rfind_app c s1 s2 :
  Str.rfind c (s1 +:+ s2) =
  match Str.rfind c s2 with
  | Some i => Some (String.length s1 + i)
  | None => Str.rfind c s1
  end.
Proof.
  induction s1 as [|a s1 IH]; step_app.
  - by destruct (Str.rfind c s2).
  - rewrite IH. by destruct (Str.rfind c s2).
Qed.

Lemma rfind_lt c s i : Str.rfind c s = Some i -> i < String.length s.
Proof.
  revert i; induction s as [|a s IH]; simpl; intros i; [done|].
  destruct (Str.rfind c s) as [j|].
  - intros [= <-]. specialize (IH j eq_refl). lia.
  - destruct (Ascii.eqb a c); intros [= <-]. lia.
Qed.

Lemma rfind_startswith c s i :
  Str.rfind c s = Some i -> Str.startswith c (Str.drop i s) = true.
Proof.
  revert i; induction s as [|a s IH]; simpl; intros i; [done|].
  destruct (Str.rfind c s) as [j|].
  - intros [= <-]. simpl. by apply IH.
  - destruct (Ascii.eqb a c) eqn:E; intros [= <-]. by simpl.
Qed.

Lemma take_drop_str n s : Str.take n s +:+ Str.drop n s = s.
Proof.
  revert s; induction n as [|n IH]; intros [|a s]; simpl; try done.
  by rewrite str_app_cons, IH.
Qed.

Lemma str_length_drop n s : String.length (Str.drop n s) = String.length s - n.
Proof. revert s; induction n as [|n IH]; intros [|a s]; simpl; auto. Qed.

Lemma str_take_app_length s1 s2 : Str.take (String.length s1) (s1 +:+ s2) = s1.
Proof. induction s1 as [|a s1 IH]; step_app; [by destruct s2 | by rewrite IH]. Qed.

Lemma str_drop_app_length s1 s2 : Str.drop (String.length s1) (s1 +:+ s2) = s2.
Proof. induction s1 as [|a s1 IH]; step_app; [done | by rewrite IH]. Qed.

Lemma str_startswith_app c s1 s2 :
  Str.startswith c s1 = true -> Str.startswith c (s1 +:+ s2) = true.
Proof. by destruct s1. Qed.

End StrFacts.

(** ** Suffixes and companion paths *)

Section Companion.

Import Pathlib UnityGitRepository.

(** The suffix is either empty or the tail of the name from its last dot,
    which is neither the first nor the last character. *)
Lemma suffix_cases p :
  suffix p = "" \/
  exists i, 0 < i /\ i < String.length (name p)
            /\ suffix p = Str.drop i (name p)
            /\ Str.startswith Str.dot (suffix p) = true.
Proof.
  unfold suffix. destruct (Str.rfind Str.dot (name p)) as [i|] eqn:E; [|by left].
  destruct (Nat.ltb_spec 0 i); simpl; [|by left].
  destruct (Nat.ltb_spec i (String.length (name p) - 1)); [|by left].
  right. exists i. repeat split; try lia; auto using rfind_startswith.
Qed.

Lemma suffix_no_slash p :
  Str.contains Str.slash (name p) = false ->
  Str.contains Str.slash (suffix p) = false.
Proof.
  intros H. destruct (suffix_cases p) as [-> | (i & _ & _ & -> & _)]; [done|].
  by apply str_contains_drop.
Qed.

(** Replacing the suffix by itself followed by [".meta"] appends [".meta"]
    to the name. *)
Lemma with_suffix_append_meta p :
  name p <> "" -> Str.contains Str.slash (name p) = false ->
  with_suffix p (suffix p +:+ ".meta")
  = Ok (mkPath (root_of p) (removelast (segs p) ++ [name p +:+ ".meta"])).
Proof.
  intros Hne Hsl. unfold with_suffix.
  rewrite str_contains_app, (suffix_no_slash p Hsl). simpl.
  assert (Str.startswith Str.dot (suffix p +:+ ".meta") = true) as ->.
  { destruct (suffix_cases p) as [-> | (i & _ & _ & _ & H)]; [done|].
    by apply str_startswith_app. }
  rewrite andb_false_r. simpl.
  assert ((suffix p +:+ ".meta" =? ".")%string = false) as ->.
  { apply String.eqb_neq. intros H%(f_equal String.length).
    rewrite str_length_app in H. simpl in H. lia. }
  apply is_empty_false in Hne as Hne'. rewrite Hne'.
  do 3 f_equal.
  destruct (suffix_cases p) as [E | (i & Hi & Hlt & E & _)].
  - rewrite E. done.
  - assert (Str.is_empty (suffix p) = false) as ->.
    { apply is_empty_false. intros H0. rewrite H0 in E.
      apply (f_equal String.length) in E. rewrite str_length_drop in E.
      simpl in E. lia. }
    rewrite E, str_length_drop.
    replace (String.length (name p) - (String.length (name p) - i)) with i by lia.
    by rewrite <- app_assoc_str, take_drop_str.
Qed.

Lemma suffix_of_meta root l n :
  n <> "" -> suffix (mkPath root (l ++ [n +:+ ".meta"])) = ".meta".
Proof.
  intros Hne. unfold suffix, name. simpl. rewrite last_last.
  rewrite rfind_app. simpl.
  assert (0 < String.length n) by (destruct n; simpl; [done | lia]).
  rewrite Nat.add_0_r, str_length_app. simpl.
  destruct (Nat.ltb_spec 0 (String.length n)); [|lia].
  destruct (Nat.ltb_spec (String.length n) (String.length n + 5 - 1)); [|lia].
  simpl. apply str_drop_app_length.
Qed.

Lemma with_suffix_strip_meta root l n :
  n <> "" ->
  with_suffix (mkPath root (l ++ [n +:+ ".meta"])) "" = Ok (mkPath root (l ++ [n])).
Proof.
  intros Hne. unfold with_suffix. simpl.
  rewrite (suffix_of_meta root l n Hne).
  unfold name. simpl. rewrite last_last, removelast_last.
  rewrite (str_is_empty_app n ".meta" Hne).
  simpl. rewrite str_length_app. simpl.
  replace (String.length n + 5 - 5) with (String.length n) by lia.
  by rewrite str_take_app_length, str_app_empty_r.
Qed.

End Companion.

Section CompanionTheorem.

Import Pathlib UnityGitRepository.

(** C6.  For a path whose final segment is non-empty and whose suffix is
    not [".meta"], [meta_file_for_asset] appends [".meta"] to the final
    segment, after the suffix that segment already has ([a.png] becomes
    [a.png.meta]), and [asset_for_meta_file] takes the result back to the
    path itself.  [meta_file_for_asset] raises its [ValueError] on a path
    whose suffix is [".meta"], [asset_for_meta_file] on a path whose
    suffix is not. *)
Theorem companion_round_trip :
  (forall p,
      valid p -> is_absolute p = false -> name p <> "" -> suffix p <> ".meta" ->
      meta_file_for_asset p
      = Ok (mkPath (root_of p) (removelast (segs p) ++ [name p +:+ ".meta"]))
      /\ (meta_file_for_asset p ≫= asset_for_meta_file) = Ok p)
  /\ meta_file_for_asset (Path "a.png") = Ok (Path "a.png.meta")
  /\ (forall p, suffix p = ".meta" -> meta_file_for_asset p = Raise NotAnAsset)
  /\ (forall p, suffix p <> ".meta" -> asset_for_meta_file p = Raise NotAMetaFile).
Proof.
  split; [|split; [done|split]].
  - intros p [_ Hv] _ Hne Hsfx.
    assert (segs p <> []) as Hsegs.
    { intros E. apply Hne. unfold name. by rewrite E. }
    assert (Str.contains Str.slash (name p) = false) as Hsl.
    { unfold name. rewrite Forall_forall in Hv.
      apply (Hv (List.last (segs p) "")).
      rewrite (app_removelast_last "" Hsegs) at 2.
      apply elem_of_app. right. by apply list_elem_of_singleton. }
    assert (meta_file_for_asset p
            = Ok (mkPath (root_of p) (removelast (segs p) ++ [name p +:+ ".meta"])))
      as Hmeta.
    { unfold meta_file_for_asset.
      apply String.eqb_neq in Hsfx. rewrite Hsfx.
      by apply with_suffix_append_meta. }
    split; [exact Hmeta|].
    rewrite Hmeta. simpl. unfold asset_for_meta_file.
    rewrite suffix_of_meta by done. simpl.
    rewrite with_suffix_strip_meta by done.
    destruct p as [r l]. simpl in *. unfold name. simpl.
    by rewrite <- (app_removelast_last "" Hsegs).
  - intros p E. unfold meta_file_for_asset. by rewrite E.
  - intros p E. unfold asset_for_meta_file.
    apply String.eqb_neq in E. by rewrite E.
Qed.

Lemma companion_round_trip_witness :
  meta_file_for_asset (Path "Assets/dir/a.png") = Ok (Path "Assets/dir/a.png.meta")
  /\ (meta_file_for_asset (Path "Assets/dir/a.png") ≫= asset_for_meta_file)
     = Ok (Path "Assets/dir/a.png").
Proof.
  apply (proj1 companion_round_trip (Path "Assets/dir/a.png")).
  - split; [by left | repeat constructor; done].
  - reflexivity.
  - discriminate.
  - discriminate.
Defined.

End CompanionTheorem.

(** ** Nodes: lookups and the two walks *)

Section NodeFacts.

Implicit Types (h : store) (n m c self : ref) (k : string) (ps : list string).

Lemma has_child_false h n k :
  PathNode.has_child h n k = false <->
  OrderedDict.get k (_children (deref h n)) = None.
Proof. apply contains_get_None. Qed.

Lemma has_child_true h n k :
  PathNode.has_child h n k = true <->
  exists c, OrderedDict.get k (_children (deref h n)) = Some c.
Proof. apply contains_get_Some. Qed.

Lemma child_get h n k c :
  OrderedDict.get k (_children (deref h n)) = Some c -> PathNode.child h n k = Ok c.
Proof. unfold PathNode.child. by intros ->. Qed.

(** [descendant] returns the node the walk reaches and raises when the walk
    gets stuck. *)
Lemma descendant_loop_walk h n ps :
  PathNode.descendant_loop h n ps =
  match walk h n ps with Some m => Ok m | None => Raise NonExistentPath end.
Proof.
  revert n; induction ps as [|k ps IH]; intros n; simpl; [done|].
  destruct (OrderedDict.get k (_children (deref h n))) as [c|] eqn:E.
  - rewrite (proj2 (has_child_true h n k)) by eauto.
    rewrite (child_get _ _ _ _ E). simpl. apply IH.
  - by rewrite (proj2 (has_child_false h n k)).
Qed.

(** [has_descendant] never raises: it answers whether the walk gets
    through. *)
Lemma has_descendant_loop_walk h n ps :
  PathNode.has_descendant_loop h n ps =
  Ok (match walk h n ps with Some _ => true | None => false end).
Proof.
  revert n; induction ps as [|k ps IH]; intros n; simpl; [done|].
  destruct (OrderedDict.get k (_children (deref h n))) as [c|] eqn:E.
  - rewrite (proj2 (has_child_true h n k)) by eauto.
    rewrite (child_get _ _ _ _ E). simpl. apply IH.
  - by rewrite (proj2 (has_child_false h n k)).
Qed.

Lemma walk_app h n ps qs :
  walk h n (ps ++ qs) = walk h n ps ≫= fun m => walk h m qs.
Proof.
  revert n; induction ps as [|k ps IH]; intros n; simpl; [done|].
  destruct (OrderedDict.get k (_children (deref h n))); [apply IH | done].
Qed.

Lemma walk_snoc h n ps k c :
  walk h n (ps ++ [k]) = Some c <->
  exists m, walk h n ps = Some m
            /\ OrderedDict.get k (_children (deref h m)) = Some c.
Proof.
  rewrite walk_app. destruct (walk h n ps) as [m|]; simpl.
  - destruct (OrderedDict.get k (_children (deref h m))) as [c'|] eqn:E.
    + split; [intros [= ->]; eauto | intros (m' & [= <-] & E'); congruence].
    + split; [done | intros (m' & [= <-] & E'); congruence].
  - split; [done | by intros (m' & ? & _)].
Qed.

(** In a well-formed store an entry of a children mapping tells the name
    and the parent of the node it points to. *)
Lemma wf_get h n k c :
  wf_store h -> OrderedDict.get k (_children (deref h n)) = Some c ->
  n < c /\ c < length h /\ PathNode.name h c = k /\ PathNode.parent h c = Some n.
Proof.
  intros Hwf E. unfold deref in E at 1.
  destruct (h !! n) as [nd|] eqn:En; [|done]. simpl in E.
  destruct (Hwf n nd En) as [_ Hc].
  destruct (Hc k c (get_elem _ _ _ E)) as [Hlt (ndc & Ec & Hn & Hp)].
  unfold PathNode.name, PathNode.parent. rewrite (deref_Some _ _ _ Ec).
  repeat split; try done. by eapply lookup_lt_Some.
Qed.

Lemma wf_parent_get h n k c :
  wf_store h -> n < length h ->
  (k, c) ∈ _children (deref h n) ->
  OrderedDict.get k (_children (deref h n)) = Some c.
Proof.
  intros Hwf Hn Hin.
  destruct (lookup_lt_is_Some_2 h n Hn) as [nd En].
  rewrite (deref_Some _ _ _ En) in *.
  destruct (Hwf n nd En) as [Hnd _]. by apply elem_get.
Qed.

Lemma walk_lt h n ps m :
  wf_store h -> n < length h -> walk h n ps = Some m -> m < length h.
Proof.
  intros Hwf. revert n; induction ps as [|k ps IH]; intros n Hn; simpl.
  - by intros [= <-].
  - destruct (OrderedDict.get k (_children (deref h n))) as [c|] eqn:E; [|done].
    destruct (wf_get h n k c Hwf E) as (_ & Hc & _). by apply IH.
Qed.

(** The walk moves to strictly later nodes. *)
Lemma walk_le h n ps m :
  wf_store h -> walk h n ps = Some m -> n + length ps <= m.
Proof.
  intros Hwf. revert n; induction ps as [|k ps IH]; intros n; simpl.
  - intros [= <-]. lia.
  - destruct (OrderedDict.get k (_children (deref h n))) as [c|] eqn:E; [|done].
    destruct (wf_get h n k c Hwf E) as (Hlt & _). intros H%IH. lia.
Qed.

End NodeFacts.

(** ** [add_child], [remove_child] *)

Section ChildFacts.

Implicit Types (h : store) (n m c self : ref) (k : string) (ps : list string).

(** What a successful [add_child] did. *)
Lemma add_child_Ok h self k h' c :
  PathNode.add_child h self k = Ok (h', c) ->
  length (Pathlib.parts (Pathlib.parse k)) <= 1
  /\ PathNode.has_child h self k = false
  /\ k <> ""
  /\ c = length h
  /\ h' = set_children (h ++ [mkNode k (Some self) []]) self
            (OrderedDict.set k (length h)
               (_children (deref (h ++ [mkNode k (Some self) []]) self))).
Proof.
  unfold PathNode.add_child, PathNode.has_child, PathNode.init.
  destruct (Nat.ltb_spec 1 (length (Pathlib.parts (Pathlib.parse k)))); [done|].
  destruct (OrderedDict.contains k (_children (deref h self))); [done|].
  destruct (Nat.eqb_spec (String.length k) 0) as [|Hk]; [done|].
  simpl. intros [= <- <-]. repeat split; try done; try lia.
  intros ->. by apply Hk.
Qed.

(** The store after [add_child] on an allocated node: the new node takes
    the next reference and is entered last in the children mapping. *)
Lemma add_child_spec h self k :
  self < length h ->
  length (Pathlib.parts (Pathlib.parse k)) <= 1 ->
  PathNode.has_child h self k = false ->
  k <> "" ->
  PathNode.add_child h self k =
  Ok (set_children (h ++ [mkNode k (Some self) []]) self
        (_children (deref h self) ++ [(k, length h)]),
      length h).
Proof.
  intros Hself Hparts Hc Hk.
  unfold PathNode.add_child, PathNode.init. unfold PathNode.has_child in Hc.
  destruct (Nat.ltb_spec 1 (length (Pathlib.parts (Pathlib.parse k)))); [lia|].
  rewrite Hc.
  destruct (Nat.eqb_spec (String.length k) 0) as [E|_].
  { destruct k; [done | discriminate]. }
  simpl. rewrite deref_app_l by done. by rewrite set_new.
Qed.

Lemma add_child_length h self k h' c :
  PathNode.add_child h self k = Ok (h', c) -> length h' = S (length h).
Proof.
  intros (_ & _ & _ & _ & ->)%add_child_Ok.
  rewrite length_set_children, length_app. simpl. lia.
Qed.

Lemma add_child_wf h self k h' c :
  wf_store h -> self < length h ->
  PathNode.add_child h self k = Ok (h', c) -> wf_store h'.
Proof.
  intros Hwf Hself H.
  destruct (add_child_Ok _ _ _ _ _ H) as (_ & Hc & _ & _ & ->).
  rewrite deref_app_l by done.
  unfold PathNode.has_child in Hc. rewrite set_new by done.
  destruct (lookup_lt_is_Some_2 h self Hself) as [nd En].
  rewrite (deref_Some _ _ _ En) in *.
  destruct (Hwf self nd En) as [Hnd Hch].
  apply wf_store_set_children.
  - by apply wf_store_alloc.
  - by apply NoDup_keys_snoc.
  - intros k' c' [Hin | [= -> ->]%list_elem_of_singleton]%elem_of_app.
    + destruct (Hch k' c' Hin) as [Hlt (ndc & Ec & Hn & Hp)].
      split; [done|]. exists ndc. split; [|done]. by apply lookup_app_l_Some.
    + split; [done|]. eexists. split; [by apply list_lookup_middle | done].
Qed.

(** After [add_child] the new entry is found under its name. *)
Lemma add_child_get h self k h' c :
  self < length h ->
  PathNode.add_child h self k = Ok (h', c) ->
  OrderedDict.get k (_children (deref h' self)) = Some c.
Proof.
  intros Hself H.
  destruct (add_child_Ok _ _ _ _ _ H) as (_ & Hc & _ & -> & ->).
  rewrite deref_set_children_eq by (rewrite length_app; simpl; lia).
  simpl. rewrite deref_app_l by done.
  unfold PathNode.has_child in Hc. rewrite set_new by done.
  rewrite get_snoc, (proj1 (contains_get_None _ _) Hc).
  by rewrite String.eqb_refl.
Qed.

(** [add_child] only adds: every entry that was found before is found
    after. *)
Lemma add_child_mono h self k h' c x k0 c0 :
  PathNode.add_child h self k = Ok (h', c) ->
  OrderedDict.get k0 (_children (deref h x)) = Some c0 ->
  OrderedDict.get k0 (_children (deref h' x)) = Some c0.
Proof.
  intros H E.
  destruct (add_child_Ok _ _ _ _ _ H) as (_ & Hc & _ & -> & ->).
  assert (x < length h) as Hx.
  { destruct (decide (x < length h)); [done|].
    rewrite deref_ge in E by lia. done. }
  destruct (decide (x = self)) as [->|Hne].
  - rewrite deref_set_children_eq by (rewrite length_app; simpl; lia).
    simpl. rewrite deref_app_l by done.
    unfold PathNode.has_child in Hc. rewrite set_new by done.
    by rewrite get_snoc, E.
  - rewrite deref_set_children_ne by done. by rewrite deref_app_l.
Qed.

(** The new node has the given name, the parent reference and no child. *)
Lemma add_child_new_node h self k h' c :
  PathNode.add_child h self k = Ok (h', c) ->
  self <> length h ->
  deref h' c = mkNode k (Some self) [].
Proof.
  intros H Hne.
  destruct (add_child_Ok _ _ _ _ _ H) as (_ & _ & _ & -> & ->).
  rewrite deref_set_children_ne by done. apply deref_alloc.
Qed.

Lemma remove_child_Ok h self k h' r :
  PathNode.remove_child h self k = Ok (h', r) ->
  PathNode.has_child h self k = true /\ r = self
  /\ h' = set_children h self (OrderedDict.pop k (_children (deref h self))).
Proof.
  unfold PathNode.remove_child, PathNode.has_child.
  destruct (OrderedDict.contains k (_children (deref h self))); [|done].
  simpl. by intros [= <- <-].
Qed.

Lemma remove_child_spec h self k :
  PathNode.has_child h self k = true ->
  PathNode.remove_child h self k =
  Ok (set_children h self (OrderedDict.pop k (_children (deref h self))), self).
Proof. unfold PathNode.remove_child, PathNode.has_child. by intros ->. Qed.

Lemma pop_wf h self k :
  wf_store h ->
  wf_store (set_children h self (OrderedDict.pop k (_children (deref h self)))).
Proof.
  intros Hwf.
  destruct (decide (self < length h)) as [Hself|Hge].
  - destruct (lookup_lt_is_Some_2 h self Hself) as [nd En].
    rewrite (deref_Some _ _ _ En).
    destruct (Hwf self nd En) as [Hnd Hch].
    apply wf_store_set_children; [done | by apply NoDup_keys_pop |].
    intros k' c' [Hin _]%elem_pop. auto.
  - unfold set_children. by rewrite list_insert_ge by lia.
Qed.

Lemma remove_child_wf h self k h' r :
  wf_store h -> PathNode.remove_child h self k = Ok (h', r) -> wf_store h'.
Proof. intros Hwf (_ & _ & ->)%remove_child_Ok. by apply pop_wf. Qed.

End ChildFacts.

(** ** [PathTree.add] *)

Section AddFacts.

Implicit Types (h : store) (n m c : ref) (k : string) (ps : list string).

(** On a path that is already there [add] changes nothing and returns the
    node the walk reaches. *)
Lemma add_loop_present h n ps m :
  walk h n ps = Some m -> PathTree.add_loop h n ps = Ok (h, m).
Proof.
  revert n; induction ps as [|k ps IH]; intros n; simpl.
  - by intros [= <-].
  - destruct (OrderedDict.get k (_children (deref h n))) as [c|] eqn:E; [|done].
    rewrite (proj2 (has_child_true h n k)) by eauto.
    rewrite (child_get _ _ _ _ E). simpl. apply IH.
Qed.

Lemma add_loop_mono h n ps h' m x k0 c0 :
  PathTree.add_loop h n ps = Ok (h', m) ->
  OrderedDict.get k0 (_children (deref h x)) = Some c0 ->
  OrderedDict.get k0 (_children (deref h' x)) = Some c0.
Proof.
  revert h n; induction ps as [|k ps IH]; intros h n; simpl.
  - by intros [= <- <-].
  - destruct (PathNode.has_child h n k).
    + destruct (PathNode.child h n k) as [c| |]; simpl; try done. apply IH.
    + destruct (PathNode.add_child h n k) as [[h1 c]| |] eqn:E; simpl; try done.
      intros H E0. eapply IH; [done|]. eapply add_child_mono; eauto.
Qed.

Lemma add_loop_wf h n ps h' m :
  wf_store h -> n < length h ->
  PathTree.add_loop h n ps = Ok (h', m) ->
  wf_store h' /\ m < length h' /\ length h <= length h'.
Proof.
  revert h n; induction ps as [|k ps IH]; intros h n Hwf Hn; simpl.
  - by intros [= <- <-].
  - destruct (PathNode.has_child h n k) eqn:Hc.
    + apply has_child_true in Hc as [c E].
      rewrite (child_get _ _ _ _ E). simpl.
      destruct (wf_get h n k c Hwf E) as (_ & Hlt & _). by apply IH.
    + destruct (PathNode.add_child h n k) as [[h1 c]| |] eqn:E; simpl; try done.
      pose proof (add_child_length _ _ _ _ _ E) as Hlen.
      pose proof (add_child_wf _ _ _ _ _ Hwf Hn E) as Hwf1.
      destruct (add_child_Ok _ _ _ _ _ E) as (_ & _ & _ & -> & _).
      intros H. assert (length h < length h1) as Hlt by lia.
      destruct (IH h1 (length h) Hwf1 Hlt H) as (? & ? & ?).
      split; [done|]. split; [done | lia].
Qed.

(** After [add] the walk along the added path reaches the returned node. *)
Lemma add_loop_walk h n ps h' m :
  wf_store h -> n < length h ->
  PathTree.add_loop h n ps = Ok (h', m) -> walk h' n ps = Some m.
Proof.
  revert h n; induction ps as [|k ps IH]; intros h n Hwf Hn; simpl.
  - by intros [= <- <-].
  - destruct (PathNode.has_child h n k) eqn:Hc.
    + apply has_child_true in Hc as [c E].
      rewrite (child_get _ _ _ _ E). simpl. intros H.
      rewrite (add_loop_mono _ _ _ _ _ _ _ _ H E).
      destruct (wf_get h n k c Hwf E) as (_ & Hlt & _). by eapply IH.
    + destruct (PathNode.add_child h n k) as [[h1 c]| |] eqn:E; simpl; try done.
      intros H.
      pose proof (add_child_get _ _ _ _ _ Hn E) as Eget.
      rewrite (add_loop_mono _ _ _ _ _ _ _ _ H Eget).
      pose proof (add_child_length _ _ _ _ _ E) as Hlen.
      pose proof (add_child_wf _ _ _ _ _ Hwf Hn E) as Hwf1.
      destruct (add_child_Ok _ _ _ _ _ E) as (_ & _ & _ & -> & _).
      eapply IH; [done | lia | done].
Qed.

Lemma add_relative h t p :
  Pathlib.is_absolute p = false ->
  PathTree.add h t p = PathTree.add_loop h (_root t) (Pathlib.parts p).
Proof. unfold PathTree.add, PathTree._check_path. by intros ->. Qed.

Lemma add_Ok_relative h t p h' n :
  PathTree.add h t p = Ok (h', n) -> Pathlib.is_absolute p = false.
Proof.
  unfold PathTree.add, PathTree._check_path.
  by destruct (Pathlib.is_absolute p).
Qed.

Lemma wf_tree_root h t : wf_tree h t -> _root t < length h.
Proof. intros [_ (nd & E & _)]. by eapply lookup_lt_Some. Qed.

Lemma extends_refl h : extends h h.
Proof. intros i nd E. eauto. Qed.

Lemma extends_trans h1 h2 h3 : extends h1 h2 -> extends h2 h3 -> extends h1 h3.
Proof.
  intros H12 H23 i nd E.
  destruct (H12 i nd E) as (nd2 & E2 & Hn2 & Hp2).
  destruct (H23 i nd2 E2) as (nd3 & E3 & Hn3 & Hp3).
  exists nd3. split; [done|]. split; congruence.
Qed.

Lemma extends_length h h' : extends h h' -> length h <= length h'.
Proof.
  intros Hext. destruct (decide (length h <= length h')) as [|Hgt]; [done|].
  destruct (lookup_lt_is_Some_2 h (length h') ltac:(lia)) as [nd E].
  destruct (Hext _ _ E) as (nd' & E'%lookup_lt_Some & _). lia.
Qed.

Lemma extends_set_children h r d : extends h (set_children h r d).
Proof.
  intros i nd E.
  destruct (lookup_set_children_keeps h r d i nd E) as (nd' & E' & Hn & Hp).
  eauto.
Qed.

Lemma extends_alloc h nd : extends h (h ++ [nd]).
Proof. intros i nd0 E. exists nd0. split; [by apply lookup_app_l_Some | done]. Qed.

Lemma add_child_extends h self k h' c :
  PathNode.add_child h self k = Ok (h', c) -> extends h h'.
Proof.
  intros (_ & _ & _ & _ & ->)%add_child_Ok.
  eapply extends_trans; [apply extends_alloc | apply extends_set_children].
Qed.

Lemma remove_child_extends h self k h' r :
  PathNode.remove_child h self k = Ok (h', r) -> extends h h'.
Proof. intros (_ & _ & ->)%remove_child_Ok. apply extends_set_children. Qed.

Lemma add_loop_extends h n ps h' m :
  PathTree.add_loop h n ps = Ok (h', m) -> extends h h'.
Proof.
  revert h n; induction ps as [|k ps IH]; intros h n; simpl.
  - intros [= <- <-]. apply extends_refl.
  - destruct (PathNode.has_child h n k).
    + destruct (PathNode.child h n k) as [c| |]; simpl; try done. apply IH.
    + destruct (PathNode.add_child h n k) as [[h1 c]| |] eqn:E; simpl; try done.
      intros H. eapply extends_trans; [by eapply add_child_extends | by eapply IH].
Qed.

Lemma wf_tree_extends h h' t :
  wf_tree h t -> wf_store h' -> extends h h' -> wf_tree h' t.
Proof.
  intros [_ (nd & E & Hp)] Hwf Hext. split; [done|].
  destruct (Hext _ _ E) as (nd' & E' & _ & Hp'). exists nd'. split; [done|]. congruence.
Qed.

Lemma add_wf h t p h' n :
  wf_tree h t -> PathTree.add h t p = Ok (h', n) -> wf_tree h' t.
Proof.
  intros Hwf H. pose proof (add_Ok_relative _ _ _ _ _ H) as Hrel.
  rewrite add_relative in H by done.
  eapply wf_tree_extends; [done | | by eapply add_loop_extends].
  by eapply add_loop_wf; [apply Hwf | apply wf_tree_root |].
Qed.

Lemma add_all_wf h t paths h' :
  wf_tree h t -> PathTree.add_all h t paths = Ok h' -> wf_tree h' t.
Proof.
  revert h; induction paths as [|p paths IH]; intros h Hwf; simpl.
  - by intros [= <-].
  - destruct (PathTree.add h t p) as [[h1 n]| |] eqn:E; simpl; try done.
    apply IH. by eapply add_wf.
Qed.

Lemma init_wf h p h' t :
  wf_store h -> PathTree.init h p = Ok (h', t) -> wf_tree h' t.
Proof.
  intros Hwf. unfold PathTree.init, PathNode.init. simpl. intros [= <- <-].
  split; [by apply wf_store_alloc|]. simpl.
  eexists. split; [by apply list_lookup_middle | done].
Qed.

Lemma from_iterable_wf h paths p h' t :
  wf_store h -> PathTree.from_iterable h paths p = Ok (h', t) -> wf_tree h' t.
Proof.
  intros Hwf. unfold PathTree.from_iterable.
  destruct (PathTree.init h p) as [[h1 t1]| |] eqn:E; simpl; try done.
  destruct (PathTree.add_all h1 t1 paths) as [h2| |] eqn:E2; simpl; try done.
  intros [= <- <-]. eapply add_all_wf; [|done]. by eapply init_wf.
Qed.

(** Every tree built by [tree_of] is well-formed. *)
Lemma tree_of_wf paths h t : tree_of paths = Ok (h, t) -> wf_tree h t.
Proof. apply from_iterable_wf, wf_store_nil. Qed.

End AddFacts.

(** ** Adding a path twice *)

Section Operations.

Implicit Types (h : store) (t : PathTree) (p : PurePath).

(** C4.  Adding a relative path that is already in the tree returns the
    node that is there and leaves the store, hence every node, name and
    link, exactly as it was; and after any successful [add] of a path, that
    path is in the tree and adding it again returns the very node the first
    call returned, with the store unchanged. *)
Theorem add_existing_path_is_identity :
  (forall h t p,
      Pathlib.is_absolute p = false ->
      PathTree.has_descendant h t p = Ok true ->
      exists n, PathTree.descendant h t p = Ok n /\ PathTree.add h t p = Ok (h, n))
  /\ (forall h t p h1 n,
      wf_tree h t ->
      PathTree.add h t p = Ok (h1, n) ->
      PathTree.has_descendant h1 t p = Ok true
      /\ PathTree.descendant h1 t p = Ok n
      /\ PathTree.add h1 t p = Ok (h1, n)).
Proof.
  split.
  - intros h t p Hrel Hpresent.
    unfold PathTree.has_descendant, PathNode.has_descendant in Hpresent.
    rewrite has_descendant_loop_walk in Hpresent.
    destruct (walk h (_root t) (Pathlib.parts p)) as [n|] eqn:E; [|done].
    exists n. split.
    + unfold PathTree.descendant, PathNode.descendant.
      by rewrite descendant_loop_walk, E.
    + rewrite add_relative by done. by apply add_loop_present.
  - intros h t p h1 n Hwf Hadd.
    pose proof (add_Ok_relative _ _ _ _ _ Hadd) as Hrel.
    rewrite add_relative in Hadd by done.
    pose proof (add_loop_walk _ _ _ _ _ (proj1 Hwf) (wf_tree_root _ _ Hwf) Hadd) as E.
    unfold PathTree.has_descendant, PathNode.has_descendant,
      PathTree.descendant, PathNode.descendant.
    rewrite has_descendant_loop_walk, descendant_loop_walk, E.
    repeat split. rewrite add_relative by done. by apply add_loop_present.
Qed.

Lemma add_existing_path_is_identity_witness :
  let h := store_of (tree_of ["a"; "b/c"]) in
  let t := tree_in (tree_of ["a"; "b/c"]) in
  (exists n, PathTree.descendant h t (Path "b/c") = Ok n
             /\ PathTree.add h t (Path "b/c") = Ok (h, n))
  /\ PathTree.has_descendant h t (Path "b/c") = Ok true
  /\ PathTree.descendant h t (Path "b/c") = Ok 3
  /\ PathTree.add h t (Path "b/c") = Ok (h, 3).
Proof.
  split.
  - apply (proj1 add_existing_path_is_identity); reflexivity.
  - apply (proj2 add_existing_path_is_identity
             (store_of (tree_of ["a"])) (tree_in (tree_of ["a"])) (Path "b/c")).
    + by apply (tree_of_wf ["a"]).
    + reflexivity.
Defined.

End Operations.

Section SingleOperations.

Implicit Types (h : store) (t : PathTree) (p : PurePath) (n c : ref).

(** The outcomes of [add_child] on an allocated node, in the order the code
    tests them. *)
Lemma add_child_cases h self childname :
  self < length h ->
  (1 < length (Pathlib.parts (Pathlib.parse childname)) ->
   PathNode.add_child h self childname = Raise MultipleLevels)
  /\ (length (Pathlib.parts (Pathlib.parse childname)) <= 1 ->
      PathNode.has_child h self childname = true ->
      PathNode.add_child h self childname = Raise DuplicateChild)
  /\ (PathNode.has_child h self "" = false ->
      PathNode.add_child h self "" = Raise EmptyNodeName)
  /\ (length (Pathlib.parts (Pathlib.parse childname)) <= 1 ->
      PathNode.has_child h self childname = false ->
      childname <> "" ->
      exists h',
        PathNode.add_child h self childname = Ok (h', length h)
        /\ deref h' (length h) = mkNode childname (Some self) []
        /\ _children (deref h' self)
           = _children (deref h self) ++ [(childname, length h)]
        /\ PathNode.child h' self childname = Ok (length h)).
Proof.
  intros Hself. repeat split.
  - intros H. unfold PathNode.add_child.
    by destruct (Nat.ltb_spec 1 (length (Pathlib.parts (Pathlib.parse childname))));
      [|lia].
  - intros H Hc. unfold PathNode.add_child. unfold PathNode.has_child in Hc.
    destruct (Nat.ltb_spec 1 (length (Pathlib.parts (Pathlib.parse childname))));
      [lia|]. by rewrite Hc.
  - intros Hc. unfold PathNode.add_child. unfold PathNode.has_child in Hc.
    by rewrite Hc.
  - intros Hparts Hc Hne.
    pose proof (add_child_spec h self childname Hself Hparts Hc Hne) as E.
    eexists. split; [exact E|].
    split; [|split].
    + apply (add_child_new_node _ _ _ _ _ E). lia.
    + rewrite deref_set_children_eq; [done|]. rewrite length_app. simpl. lia.
    + apply child_get. by eapply add_child_get.
Qed.

(** C7.  [add_child] lets a name through whenever [PurePath] parses it to
    at most one part: a name that ends in the separator, that is the
    separator, or that starts with ["./"] holds a separator and is still
    accepted, and the node is created under that literal name.  A name of
    two levels and the empty name are refused. *)
Theorem add_child_accepts_names_with_separator :
  let h := store_of (tree_of []) in
  h = [mkNode "." None []]
  /\ Str.contains Str.slash "a/" = true
  /\ PathNode.add_child h 0 "a/"
     = Ok ([mkNode "." None [("a/", 1)]; mkNode "a/" (Some 0) []], 1)
  /\ PathNode.add_child h 0 "/"
     = Ok ([mkNode "." None [("/", 1)]; mkNode "/" (Some 0) []], 1)
  /\ PathNode.add_child h 0 "./a"
     = Ok ([mkNode "." None [("./a", 1)]; mkNode "./a" (Some 0) []], 1)
  /\ PathNode.add_child h 0 "a/b" = Raise MultipleLevels
  /\ PathNode.add_child h 0 "" = Raise EmptyNodeName.
Proof. repeat split. Qed.

(** C8, as the code has it.  For an absolute path, [add], [children_count]
    and [has_children] fail in [_check_path], and [has_descendant] returns
    a boolean without failing. *)
Theorem absolute_path_checked_operations h t p :
  Pathlib.is_absolute p = true ->
  PathTree.add h t p = Raise NotRelativePath
  /\ PathTree.children_count h t p = Raise NotRelativePath
  /\ PathTree.has_children h t p = Raise NotRelativePath
  /\ kind_of NotRelativePath = InvalidPathError
  /\ exists b, PathTree.has_descendant h t p = Ok b.
Proof.
  intros Habs.
  unfold PathTree.add, PathTree.has_children, PathTree.children_count,
    PathTree._check_path. rewrite Habs. simpl. repeat split.
  unfold PathTree.has_descendant, PathNode.has_descendant.
  rewrite has_descendant_loop_walk. eauto.
Qed.

Lemma absolute_path_checked_operations_witness :
  let h := store_of (tree_of ["a"]) in
  let t := tree_in (tree_of ["a"]) in
  PathTree.add h t (Path "/a") = Raise NotRelativePath
  /\ PathTree.children_count h t (Path "/a") = Raise NotRelativePath
  /\ PathTree.has_children h t (Path "/a") = Raise NotRelativePath
  /\ kind_of NotRelativePath = InvalidPathError
  /\ exists b, PathTree.has_descendant h t (Path "/a") = Ok b.
Proof.
  apply (absolute_path_checked_operations
           (store_of (tree_of ["a"])) (tree_in (tree_of ["a"])) (Path "/a")).
  reflexivity.
Defined.

(** C8 as stated fails: on the tree holding [a], [has_descendant] of the
    absolute path [/a] returns [False], and [descendant] of it fails as a
    path that does not exist, not as a path that is not relative. *)
Lemma absolute_path_not_always_rejected :
  ~ (forall h t p,
        Pathlib.is_absolute p = true ->
        (exists e, PathTree.has_descendant h t p = Raise e
                   /\ kind_of e = InvalidPathError)
        /\ (exists e, PathTree.descendant h t p = Raise e
                      /\ kind_of e = InvalidPathError)).
Proof.
  intros H.
  destruct (H (store_of (tree_of ["a"])) (tree_in (tree_of ["a"])) (Path "/a")
              eq_refl) as [(e & E & _) _].
  discriminate E.
Qed.

(** The operations without the check treat an absolute path like any
    other: its first part is its root, and when the root node has no child
    of that name the walk is stuck at once. *)
Lemma unchecked_operations_on_absolute_path h t p :
  Pathlib.is_absolute p = true ->
  PathNode.has_child h (_root t) (root_of p) = false ->
  PathTree.has_descendant h t p = Ok false
  /\ PathTree.descendant h t p = Raise NonExistentPath
  /\ PathTree.children h t p = Raise NonExistentPath
  /\ PathTree.remove h t p = Raise NonExistentPath
  /\ (forall limit_path, PathTree.prune h t p limit_path = Raise NonExistentPath)
  /\ kind_of NonExistentPath = NotFoundError.
Proof.
  intros Habs Hc. unfold Pathlib.is_absolute in Habs.
  apply negb_true_iff in Habs.
  assert (forall l, Pathlib.parts (mkPath (root_of p) l) = root_of p :: l) as Hparts.
  { intros l. unfold Pathlib.parts. simpl. by rewrite Habs. }
  assert (Pathlib.parts p = root_of p :: segs p) as Hp.
  { rewrite <- Hparts. by destruct p. }
  assert (PathTree.descendant h t p = Raise NonExistentPath) as Hd.
  { unfold PathTree.descendant, PathNode.descendant. rewrite Hp. simpl.
    by rewrite Hc. }
  split; [|split; [done|split; [|split; [|split; [|done]]]]].
  - unfold PathTree.has_descendant, PathNode.has_descendant. rewrite Hp. simpl.
    by rewrite Hc.
  - unfold PathTree.children. by rewrite Hd.
  - unfold PathTree.remove, PathTree.is_path_to_root. rewrite Hp. simpl.
    unfold PathNode.descendant, Pathlib.parent. rewrite Hparts. simpl.
    by rewrite Hc.
  - intros limit_path. unfold PathTree.prune. by rewrite Hd.
Qed.

Example unchecked_operations_on_absolute_path_example :
  let h := store_of (tree_of ["a"]) in
  let t := tree_in (tree_of ["a"]) in
  PathTree.has_descendant h t (Path "/a") = Ok false
  /\ PathTree.descendant h t (Path "/a") = Raise NonExistentPath
  /\ PathTree.children h t (Path "/a") = Raise NonExistentPath
  /\ PathTree.remove h t (Path "/a") = Raise NonExistentPath
  /\ PathTree.prune h t (Path "/a") (Path ".") = Raise NonExistentPath.
Proof. repeat split. Qed.

(** C10.  A [".."] segment is an ordinary child name.  [PurePath] keeps it
    as a part; [add] on a node without a child of that name creates one,
    named [".."], whose parent is that node; [has_descendant] and
    [descendant] follow a [".."] part to the child entered under that name
    and fail to find the path when there is none, whatever the parent of
    the node is. *)
Theorem dotdot_is_an_ordinary_child_name :
  Pathlib.parts (Path "a/../b") = ["a"; ".."; "b"]
  /\ (forall h n rest,
        n < length h -> PathNode.has_child h n ".." = false ->
        exists h1,
          PathNode.add_child h n ".." = Ok (h1, length h)
          /\ deref h1 (length h) = mkNode ".." (Some n) []
          /\ PathNode.child h1 n ".." = Ok (length h)
          /\ PathTree.add_loop h n (".." :: rest)
             = PathTree.add_loop h1 (length h) rest)
  /\ (forall h n rest,
        PathNode.has_child h n ".." = false ->
        PathNode.has_descendant_loop h n (".." :: rest) = Ok false
        /\ PathNode.descendant_loop h n (".." :: rest) = Raise NonExistentPath)
  /\ (forall h n c rest,
        PathNode.child h n ".." = Ok c ->
        PathNode.has_descendant_loop h n (".." :: rest)
        = PathNode.has_descendant_loop h c rest
        /\ PathNode.descendant_loop h n (".." :: rest)
           = PathNode.descendant_loop h c rest)
  /\ (let r := tree_of ["a/../b"] in
      store_of r = [mkNode "." None [("a", 1)]; mkNode "a" (Some 0) [("..", 2)];
                    mkNode ".." (Some 1) [("b", 3)]; mkNode "b" (Some 2) []]
      /\ PathTree.has_descendant (store_of r) (tree_in r) (Path "a/../b") = Ok true
      /\ PathTree.has_descendant (store_of r) (tree_in r) (Path "b") = Ok false
      /\ PathTree.descendant (store_of r) (tree_in r) (Path "a/..") = Ok 2
      /\ PathTree.descendant (store_of r) (tree_in r) (Path ".") = Ok 0).
Proof.
  split; [done|]. split; [|split; [|split]].
  - intros h n rest Hn Hc.
    destruct (add_child_cases h n ".." Hn) as (_ & _ & _ & Hnew).
    destruct (Hnew ltac:(simpl; lia) Hc ltac:(done)) as (h1 & E & Hnode & _ & Hchild).
    exists h1. repeat split; try done. simpl. by rewrite Hc, E.
  - intros h n rest Hc. simpl. by rewrite Hc.
  - intros h n c rest Hchild.
    assert (PathNode.has_child h n ".." = true) as Hc.
    { apply has_child_true. unfold PathNode.child in Hchild.
      destruct (OrderedDict.get ".." (_children (deref h n))); [eauto | done]. }
    simpl. by rewrite Hc, Hchild.
  - repeat split.
Qed.

Lemma dotdot_is_an_ordinary_child_name_witness :
  let h := store_of (tree_of ["a"]) in
  (exists h1,
      PathNode.add_child h 1 ".." = Ok (h1, 2)
      /\ deref h1 2 = mkNode ".." (Some 1) []
      /\ PathNode.child h1 1 ".." = Ok 2
      /\ PathTree.add_loop h 1 [".."; "b"] = PathTree.add_loop h1 2 ["b"])
  /\ (PathNode.has_descendant_loop h 1 [".."] = Ok false
      /\ PathNode.descendant_loop h 1 [".."] = Raise NonExistentPath)
  /\ (PathNode.has_descendant_loop (store_of (tree_of ["a/../b"])) 1 [".."; "b"]
      = PathNode.has_descendant_loop (store_of (tree_of ["a/../b"])) 2 ["b"]
      /\ PathNode.descendant_loop (store_of (tree_of ["a/../b"])) 1 [".."; "b"]
         = PathNode.descendant_loop (store_of (tree_of ["a/../b"])) 2 ["b"]).
Proof.
  destruct dotdot_is_an_ordinary_child_name as (_ & Hadd & Hmiss & Hhit & _).
  split; [|split].
  - apply (Hadd (store_of (tree_of ["a"])) 1 ["b"]); [simpl; lia | reflexivity].
  - apply (Hmiss (store_of (tree_of ["a"])) 1 []). reflexivity.
  - apply (Hhit (store_of (tree_of ["a/../b"])) 1 2 ["b"]). reflexivity.
Defined.

End SingleOperations.

(** ** Depth-first traversal *)

Section DepthFirst.

Implicit Types (h : store) (n c : ref) (d fuel : nat) (s : list ref).

Lemma elem_of_rev {A} (l : list A) (x : A) : x ∈ rev l -> x ∈ l.
Proof. rewrite !list_elem_of_In. apply in_rev. Qed.

(** The children of a node of a well-formed store were created after it. *)
Lemma wf_children_gt h n c :
  wf_store h -> c ∈ PathNode.children h n -> n < c /\ c < length h.
Proof.
  intros Hwf Hin. unfold PathNode.children, OrderedDict.values in Hin.
  apply list_elem_of_fmap in Hin as ([k c'] & -> & Hin). simpl.
  unfold deref in Hin. destruct (h !! n) as [nd|] eqn:E.
  - destruct (Hwf n nd E) as [_ Hc].
    destruct (Hc k c' Hin) as [Hlt (ndc & Ec & _)].
    split; [done | by eapply lookup_lt_Some].
  - by apply elem_of_nil in Hin.
Qed.

Lemma children_dangling h n : length h <= n -> PathNode.children h n = [].
Proof. intros H. unfold PathNode.children. by rewrite deref_ge. Qed.

Lemma children_count_length h n :
  PathNode.children_count h n = length (PathNode.children h n).
Proof.
  unfold PathNode.children_count, PathNode.children, OrderedDict.values.
  by rewrite length_map.
Qed.

Lemma flat_map_ext_elem {A B} (f g : A -> list B) (l : list A) :
  (forall x, x ∈ l -> f x = g x) -> flat_map f l = flat_map g l.
Proof.
  induction l as [|a l IH]; simpl; intros H; [done|].
  rewrite (H a) by apply list_elem_of_here.
  rewrite IH; [done|]. intros x Hx. apply H. by apply list_elem_of_further.
Qed.

(** Beyond the number of objects the depth bound makes no difference. *)
Lemma preorder_stable h d d' n :
  wf_store h -> length h <= n + d -> length h <= n + d' ->
  preorder_last_first d h n = preorder_last_first d' h n.
Proof.
  intros Hwf. revert d' n; induction d as [|d IH]; intros [|d'] n Hd Hd';
    simpl; try done.
  - by rewrite children_dangling by lia.
  - by rewrite children_dangling by lia.
  - f_equal. apply flat_map_ext_elem. intros c Hc%elem_of_rev.
    destruct (wf_children_gt h n c Hwf Hc). apply IH; lia.
Qed.

(** The recursive equation of the order, free of the depth bound. *)
Lemma preorder_unfold h n :
  wf_store h ->
  preorder_last_first (length h) h n =
  n :: flat_map (preorder_last_first (length h) h) (rev (PathNode.children h n)).
Proof.
  intros Hwf. destruct (length h) as [|N] eqn:E.
  - simpl. rewrite children_dangling by lia. done.
  - transitivity
      (n :: flat_map (preorder_last_first N h) (rev (PathNode.children h n)));
      [reflexivity|].
    f_equal. apply flat_map_ext_elem. intros c Hc%elem_of_rev.
    destruct (wf_children_gt h n c Hwf Hc).
    apply preorder_stable; [done | lia | lia].
Qed.

Lemma dfs_loop_push h fuel n s :
  PathTree.dfs_loop (S fuel) h (n :: s) =
  rest ← PathTree.dfs_loop fuel h (rev (PathNode.children h n) ++ s); Ok (n :: rest).
Proof.
  simpl. rewrite children_count_length.
  destruct (PathNode.children h n) as [|c cs] eqn:E; simpl; done.
Qed.

(** The loop, started with [n] on top of the stack, first yields the
    subtree of [n] in that order and then goes on with the rest of the
    stack. *)
Lemma dfs_loop_subtree h d :
  wf_store h ->
  forall n s fuel,
    length h <= n + d ->
    PathTree.dfs_loop (length (preorder_last_first d h n) + fuel) h (n :: s) =
    rest ← PathTree.dfs_loop fuel h s; Ok (preorder_last_first d h n ++ rest).
Proof.
  intros Hwf. induction d as [|d IH]; intros n s fuel Hd.
  - cbn [preorder_last_first length Nat.add].
    rewrite dfs_loop_push, children_dangling by lia. simpl.
    by destruct (PathTree.dfs_loop fuel h s).
  - cbn [preorder_last_first length Nat.add].
    rewrite dfs_loop_push.
    assert (forall l,
      (forall c, c ∈ l -> length h <= c + d) ->
      PathTree.dfs_loop (length (flat_map (preorder_last_first d h) l) + fuel) h (l ++ s)
      = rest ← PathTree.dfs_loop fuel h s;
        Ok (flat_map (preorder_last_first d h) l ++ rest)) as Hlist.
    { induction l as [|c l IHl]; intros Hl.
      - simpl. by destruct (PathTree.dfs_loop fuel h s).
      - cbn [flat_map app]. rewrite length_app, <- Nat.add_assoc.
        rewrite IH by (apply Hl, list_elem_of_here).
        rewrite IHl by (intros c' Hc'; apply Hl; by apply list_elem_of_further).
        destruct (PathTree.dfs_loop fuel h s); simpl; try done.
        by rewrite app_assoc. }
    rewrite Hlist.
    + by destruct (PathTree.dfs_loop fuel h s).
    + intros c Hc%elem_of_rev. destruct (wf_children_gt h n c Hwf Hc). lia.
Qed.

(** C9.  On a well-formed store [traverse_depth_first] stops and yields
    the root first, then, for every node, its children last-inserted first,
    each with its whole subtree before the next one.  After adding
    [a/b/c], [a/b/d], [a/e/f] the names met are [., a, e, f, b, d, c]. *)
Theorem depth_first_visits_last_child_first :
  (forall h t,
      wf_store h ->
      (forall n,
          preorder_last_first (length h) h n =
          n :: flat_map (preorder_last_first (length h) h)
                 (rev (PathNode.children h n)))
      /\ forall fuel,
          length (preorder_last_first (length h) h (_root t)) < fuel ->
          PathTree.traverse_depth_first fuel h t
          = Ok (preorder_last_first (length h) h (_root t)))
  /\ (let r := tree_of ["a/b/c"; "a/b/d"; "a/e/f"] in
      names_of (store_of r) <$> PathTree.traverse_depth_first 8 (store_of r) (tree_in r)
      = Ok ["."; "a"; "e"; "f"; "b"; "d"; "c"]).
Proof.
  split; [|done].
  intros h t Hwf. split; [intros n; by apply preorder_unfold|].
  intros fuel Hfuel. unfold PathTree.traverse_depth_first.
  replace fuel
    with (length (preorder_last_first (length h) h (_root t))
          + S (fuel - length (preorder_last_first (length h) h (_root t)) - 1))
    by lia.
  rewrite dfs_loop_subtree by (done || lia). simpl. by rewrite app_nil_r.
Qed.

Lemma depth_first_visits_last_child_first_witness :
  let r := tree_of ["a/b"; "a/c"] in
  PathTree.traverse_depth_first 5 (store_of r) (tree_in r) = Ok [0; 1; 3; 2].
Proof.
  apply (proj2 (proj1 depth_first_visits_last_child_first
                  (store_of (tree_of ["a/b"; "a/c"]))
                  (tree_in (tree_of ["a/b"; "a/c"]))
                  (proj1 (tree_of_wf ["a/b"; "a/c"] _ _ eq_refl))) 5).
  simpl. lia.
Defined.

End DepthFirst.

(** ** Parsing *)

Section ParseFacts.

Import Pathlib.

Lemma split_no_sep c s : Forall (fun x => Str.contains c x = false) (Str.split c s).
Proof.
  induction s as [|a s IH]; simpl.
  - by constructor.
  - destruct (Ascii.eqb a c) eqn:E.
    + by constructor.
    + destruct (Str.split c s) as [|x xs].
      * constructor; [|done]. simpl. by rewrite E.
      * apply Forall_cons in IH as [Hx Hxs].
        constructor; [|done]. simpl. by rewrite E, Hx.
Qed.

Lemma keep_segment_valid x :
  keep_segment x = true -> Str.contains Str.slash x = false -> valid_segment x.
Proof.
  unfold keep_segment. intros [H1 H2]%andb_prop Hs.
  apply negb_true_iff in H1, H2.
  split; [by apply is_empty_false|]. split; [by apply String.eqb_neq | done].
Qed.

Lemma splitroot_root s :
  fst (splitroot s) = "" \/ fst (splitroot s) = "/" \/ fst (splitroot s) = "//".
Proof.
  unfold splitroot. destruct (Str.startswith Str.slash s); [|by left].
  destruct (_ =? 2)%nat; simpl; auto.
Qed.

(** Whatever the string, [PurePath] builds a valid path. *)
Lemma parse_valid s : valid (parse s).
Proof.
  unfold parse. pose proof (splitroot_root s) as Hroot.
  destruct (splitroot s) as [root rel]. simpl in Hroot.
  destruct (Str.contains Str.slash rel) eqn:Hc.
  - split; [done|]. simpl. apply Forall_forall. intros x [Hk Hin]%list_elem_of_filter.
    apply keep_segment_valid; [by apply Is_true_eq_true|].
    pose proof (split_no_sep Str.slash rel) as Hall.
    rewrite Forall_forall in Hall. by apply Hall.
  - destruct (keep_segment rel) eqn:Hk; (split; [done|]); simpl; [|done].
    constructor; [|done]. by apply keep_segment_valid.
Qed.

Lemma joinpath_valid p s : valid p -> valid (joinpath p s).
Proof.
  intros [Hr Hs]. unfold joinpath. pose proof (parse_valid s) as [Hr' Hs'].
  destruct (is_absolute (parse s)); [done|].
  split; [done|]. simpl. by apply Forall_app.
Qed.

Lemma no_slash_not_startswith s :
  Str.contains Str.slash s = false -> Str.startswith Str.slash s = false.
Proof. destruct s as [|a s]; simpl; [done|]. by intros [? _]%orb_false_elim. Qed.

(** A valid segment is parsed to the path made of that segment. *)
Lemma parse_segment x : valid_segment x -> parse x = mkPath "" [x].
Proof.
  intros (Hne & Hdot & Hs). unfold parse, splitroot.
  rewrite (no_slash_not_startswith x Hs), Hs.
  unfold keep_segment.
  rewrite (proj2 (is_empty_false x) Hne), (proj2 (String.eqb_neq x ".") Hdot).
  done.
Qed.

Lemma joinpath_segment p x :
  valid_segment x -> joinpath p x = mkPath (root_of p) (segs p ++ [x]).
Proof. intros H. unfold joinpath. by rewrite (parse_segment x H). Qed.

Lemma joinpath_dot p : joinpath p "." = mkPath (root_of p) (segs p).
Proof. unfold joinpath. simpl. by rewrite app_nil_r. Qed.

End ParseFacts.

(** ** [all_paths] *)

Section AllPaths.

Implicit Types (h : store) (n c : ref) (fuel : nat) (q : list (PurePath * list ref)).

Lemma list_sum_map_rev {A} (f : A -> nat) (l : list A) :
  list_sum (map f (rev l)) = list_sum (map f l).
Proof.
  induction l as [|a l IH]; simpl; [done|].
  rewrite map_app, list_sum_app, IH. simpl. lia.
Qed.

Lemma weight_unfold h n :
  wf_store h ->
  weight h n = S (list_sum (map (weight h) (PathNode.children h n))).
Proof.
  intros Hwf. unfold weight at 1. rewrite preorder_unfold by done.
  simpl. rewrite length_flat_map. by rewrite list_sum_map_rev.
Qed.

Lemma all_paths_nodes_fst h base nodes :
  fst (PathTree.all_paths_nodes h base nodes)
  = map (fun n => Pathlib.joinpath base (PathNode.name h n)) nodes.
Proof.
  induction nodes as [|n ns IH]; simpl; [done|].
  destruct (PathTree.all_paths_nodes h base ns). simpl in *. by rewrite IH.
Qed.

Lemma all_paths_nodes_snd h base nodes :
  snd (PathTree.all_paths_nodes h base nodes)
  = map (fun n => (Pathlib.joinpath base (PathNode.name h n), PathNode.children h n))
      nodes.
Proof.
  induction nodes as [|n ns IH]; simpl; [done|].
  destruct (PathTree.all_paths_nodes h base ns). simpl in *. by rewrite IH.
Qed.

Lemma potential_app h q1 q2 : potential h (q1 ++ q2) = potential h q1 + potential h q2.
Proof. unfold potential. by rewrite map_app, list_sum_app. Qed.

(** The entries appended for a list of nodes weigh as much as the nodes. *)
Lemma potential_nodes h base nodes :
  wf_store h ->
  potential h (snd (PathTree.all_paths_nodes h base nodes))
  = list_sum (map (weight h) nodes).
Proof.
  intros Hwf. rewrite all_paths_nodes_snd. unfold potential.
  induction nodes as [|n ns IH]; simpl; [done|].
  rewrite IH. by rewrite (weight_unfold h n Hwf).
Qed.

Lemma all_paths_loop_step h fuel base nodes q :
  PathTree.all_paths_loop (S fuel) h ((base, nodes) :: q) =
  rest ← PathTree.all_paths_loop fuel h
           (q ++ snd (PathTree.all_paths_nodes h base nodes));
  Ok (fst (PathTree.all_paths_nodes h base nodes) ++ rest).
Proof. simpl. by destruct (PathTree.all_paths_nodes h base nodes). Qed.

(** On a well-formed store the loop of [all_paths] stops: each step lowers
    the potential by one. *)
Lemma all_paths_loop_terminates h :
  wf_store h ->
  forall fuel q, potential h q < fuel ->
                 exists ys, PathTree.all_paths_loop fuel h q = Ok ys.
Proof.
  intros Hwf. induction fuel as [|fuel IH]; intros q Hq; [lia|].
  destruct q as [|[base nodes] q]; [by exists []|].
  rewrite all_paths_loop_step.
  destruct (IH (q ++ snd (PathTree.all_paths_nodes h base nodes))) as [ys E].
  { rewrite potential_app, potential_nodes by done.
    unfold potential in *. simpl in Hq. lia. }
  rewrite E. simpl. eauto.
Qed.

Lemma all_paths_loop_mono h fuel fuel' q ys :
  PathTree.all_paths_loop fuel h q = Ok ys -> fuel <= fuel' ->
  PathTree.all_paths_loop fuel' h q = Ok ys.
Proof.
  revert fuel' q ys; induction fuel as [|fuel IH]; intros fuel' q ys; [done|].
  intros H Hle. destruct fuel' as [|fuel']; [lia|].
  destruct q as [|[base nodes] q]; [done|].
  rewrite all_paths_loop_step in *.
  destruct (PathTree.all_paths_loop fuel h _) as [rest| |] eqn:E; try done.
  rewrite (IH fuel' _ rest E) by lia. done.
Qed.

(** Every path [all_paths] yields is a valid path: it is built by [/]. *)
Lemma all_paths_loop_valid h fuel q ys :
  Forall (fun e => Pathlib.valid (fst e)) q ->
  PathTree.all_paths_loop fuel h q = Ok ys -> Forall Pathlib.valid ys.
Proof.
  revert q ys; induction fuel as [|fuel IH]; intros q ys Hq; [done|].
  destruct q as [|[base nodes] q]; [by intros [= <-]|].
  rewrite all_paths_loop_step.
  destruct (PathTree.all_paths_loop fuel h _) as [rest| |] eqn:E; try done.
  simpl. intros [= <-]. apply Forall_cons in Hq as [Hbase Hq]. simpl in Hbase.
  apply Forall_app. split.
  - rewrite all_paths_nodes_fst. apply Forall_forall.
    intros p (n & -> & _)%list_elem_of_fmap. by apply joinpath_valid.
  - eapply IH; [|exact E]. apply Forall_app. split; [done|].
    rewrite all_paths_nodes_snd. apply Forall_forall.
    intros e (n & -> & _)%list_elem_of_fmap. simpl. by apply joinpath_valid.
Qed.

End AllPaths.

(** ** What [prune] and [add] keep *)

Section Preservation.

Implicit Types (h : store) (t : PathTree) (n c : ref) (ps : list string).

Lemma remove_child_length h self k h' r :
  PathNode.remove_child h self k = Ok (h', r) -> length h' = length h.
Proof. intros (_ & _ & ->)%remove_child_Ok. apply length_set_children. Qed.

Lemma prune_unlink_keeps fuel h lim p h' s :
  wf_store h ->
  PathTree.prune_unlink fuel h lim p = Ok (h', s) ->
  wf_store h' /\ extends h h' /\ length h' = length h.
Proof.
  revert h p; induction fuel as [|fuel IH]; intros h p Hwf; [done|]. simpl.
  destruct (negb (PathNode.is_root_node h p) && negb (bool_decide (p = lim))
            && negb (PathNode.has_children h p)).
  - destruct (PathNode.parent h p) as [gp|]; [|done].
    destruct (PathNode.remove_child h gp (PathNode.name h p)) as [[h1 r]| |] eqn:E;
      simpl; try done.
    intros H.
    destruct (IH h1 gp (remove_child_wf _ _ _ _ _ Hwf E) H) as (Hwf' & Hext & Hlen).
    split; [done|]. split.
    + eapply extends_trans; [by eapply remove_child_extends | done].
    + rewrite Hlen. by eapply remove_child_length.
  - intros [= <- <-]. split; [done|]. split; [apply extends_refl | done].
Qed.

Lemma prune_keeps h t path limit_path h' s :
  wf_store h ->
  PathTree.prune h t path limit_path = Ok (h', s) ->
  wf_store h' /\ extends h h' /\ length h' = length h.
Proof.
  intros Hwf. unfold PathTree.prune.
  destruct (PathTree.descendant h t path) as [node| |]; simpl; try done.
  destruct (PathTree.descendant h t limit_path) as [lim| |]; simpl; try done.
  destruct (PathTree.prune_climb (length h) h lim node) as [cur| |]; simpl; try done.
  destruct (PathNode.parent h cur); [|done].
  destruct (PathNode.parent h node) as [parent|]; [|done].
  destruct (PathNode.remove_child h parent (PathNode.name h node)) as [[h1 r]| |] eqn:E;
    simpl; try done.
  intros H.
  destruct (prune_unlink_keeps _ _ _ _ _ _ (remove_child_wf _ _ _ _ _ Hwf E) H)
    as (Hwf' & Hext & Hlen).
  split; [done|]. split.
  - eapply extends_trans; [by eapply remove_child_extends | done].
  - rewrite Hlen. by eapply remove_child_length.
Qed.

Lemma prune_wf h t path limit_path h' s :
  wf_tree h t -> PathTree.prune h t path limit_path = Ok (h', s) -> wf_tree h' t.
Proof.
  intros Hwf H. destruct (prune_keeps _ _ _ _ _ _ (proj1 Hwf) H) as (? & ? & _).
  by eapply wf_tree_extends.
Qed.

(** The other mutators keep the tree well-formed as well. *)
Lemma clear_wf h t : wf_tree h t -> wf_tree (PathTree.clear h t) t.
Proof.
  intros Hwf. eapply wf_tree_extends; [done | | apply extends_set_children].
  apply wf_store_set_children; [apply Hwf | apply NoDup_nil_2 |].
  by intros k c ?%elem_of_nil.
Qed.

Lemma remove_wf h t path h' r :
  wf_tree h t -> PathTree.remove h t path = Ok (h', r) -> wf_tree h' t.
Proof.
  intros Hwf. unfold PathTree.remove.
  destruct (PathTree.is_path_to_root path).
  - intros [= <- <-]. by apply clear_wf.
  - destruct (PathNode.descendant h (_root t) (Pathlib.parent path)) as [parent| |];
      simpl; try done.
    destruct (PathNode.remove_child h parent (Pathlib.name path)) as [[h1 r1]| |] eqn:E;
      simpl; try done.
    intros [= <- <-].
    eapply wf_tree_extends;
      [done | by eapply remove_child_wf; [apply Hwf|] | by eapply remove_child_extends].
Qed.

(** Names.  An update that creates no node keeps [visible_names]; so does
    the creation of nodes with plain names. *)
Lemma visible_names_keeps h h' :
  visible_names h -> extends h h' -> length h' = length h -> visible_names h'.
Proof.
  intros Hv Hext Hlen i nd' E'.
  assert (i < length h) as Hi by (rewrite <- Hlen; by eapply lookup_lt_Some).
  destruct (lookup_lt_is_Some_2 h i Hi) as [nd E].
  destruct (Hext i nd E) as (nd'' & E'' & Hn & _).
  assert (nd'' = nd') as -> by congruence. rewrite Hn. eauto.
Qed.

Lemma add_child_visible h self k h' c :
  visible_names h -> plain_name k ->
  PathNode.add_child h self k = Ok (h', c) -> visible_names h'.
Proof.
  intros Hv Hk (_ & _ & _ & _ & ->)%add_child_Ok i nd' E'.
  apply lookup_set_children_Some in E' as (nd0 & E0 & -> & _).
  apply lookup_app_Some in E0 as [E0 | [_ E0]]; [eauto|].
  apply list_lookup_singleton_Some in E0 as [_ <-]. by right.
Qed.

Lemma add_loop_visible h n ps h' m :
  visible_names h -> Forall plain_name ps ->
  PathTree.add_loop h n ps = Ok (h', m) -> visible_names h'.
Proof.
  revert h n; induction ps as [|k ps IH]; intros h n Hv Hps; simpl.
  - by intros [= <- <-].
  - apply Forall_cons in Hps as [Hk Hps].
    destruct (PathNode.has_child h n k).
    + destruct (PathNode.child h n k) as [c| |]; simpl; try done. by apply IH.
    + destruct (PathNode.add_child h n k) as [[h1 c]| |] eqn:E; simpl; try done.
      apply IH; [|done]. by eapply add_child_visible.
Qed.

End Preservation.

(** ** Hidden paths and classification *)

Section Classification.

Import Pathlib UnityGitRepository.

Lemma visible_path_valid p : visible_path p -> valid p.
Proof.
  intros [Hr Hs]. split; [by left|].
  eapply Forall_impl; [exact Hs|]. by intros x [? _].
Qed.

Lemma visible_path_parts p : visible_path p -> parts p = segs p.
Proof. intros [Hr _]. unfold parts. by rewrite Hr. Qed.

Lemma visible_not_hidden p : visible_path p -> is_hidden p = false.
Proof.
  intros Hv. unfold is_hidden. rewrite (visible_path_parts p Hv).
  destruct Hv as [_ Hs]. induction Hs as [|x l [_ Hx] _ IH]; simpl; [done|].
  by rewrite Hx.
Qed.

(** A valid relative path that is not hidden is a visible path. *)
Lemma not_hidden_visible p :
  valid p -> is_absolute p = false -> is_hidden p = false -> visible_path p.
Proof.
  intros [_ Hs] Habs Hh. unfold is_absolute in Habs.
  apply negb_false_iff, is_empty_true in Habs.
  split; [done|]. unfold is_hidden, parts in Hh. rewrite Habs in Hh. simpl in Hh.
  induction Hs as [|x l Hx _ IH]; [done|].
  simpl in Hh. apply orb_false_elim in Hh as [Hx' Hl].
  constructor; [done | by apply IH].
Qed.

Lemma joinpath_visible p s :
  visible_path p -> s = "." \/ plain_name s -> visible_path (joinpath p s).
Proof.
  intros [Hr Hs] [-> | Hplain].
  - by rewrite joinpath_dot.
  - rewrite (joinpath_segment p s (proj1 Hplain)). split; [done|]. simpl.
    apply Forall_app. split; [done | by constructor].
Qed.

(** On a store with visible names, every path [all_paths] yields is
    visible. *)
Lemma all_paths_loop_visible h fuel q ys :
  visible_names h ->
  Forall (fun e => visible_path (fst e)) q ->
  PathTree.all_paths_loop fuel h q = Ok ys -> Forall visible_path ys.
Proof.
  intros Hv. revert q ys; induction fuel as [|fuel IH]; intros q ys Hq; [done|].
  destruct q as [|[base nodes] q]; [by intros [= <-]|].
  rewrite all_paths_loop_step.
  destruct (PathTree.all_paths_loop fuel h _) as [rest| |] eqn:E; try done.
  simpl. intros [= <-]. apply Forall_cons in Hq as [Hbase Hq]. simpl in Hbase.
  assert (forall n, visible_path (joinpath base (PathNode.name h n))) as Hjoin.
  { intros n. unfold PathNode.name, deref.
    destruct (h !! n) as [nd|] eqn:En; simpl.
    - apply joinpath_visible; [done | by eapply Hv].
    - unfold joinpath. simpl. by rewrite app_nil_r; destruct base. }
  apply Forall_app. split.
  - rewrite all_paths_nodes_fst. apply Forall_forall.
    intros p (n & -> & _)%list_elem_of_fmap. apply Hjoin.
  - eapply IH; [|exact E]. apply Forall_app. split; [done|].
    rewrite all_paths_nodes_snd. apply Forall_forall.
    intros e (n & -> & _)%list_elem_of_fmap. simpl. apply Hjoin.
Qed.

(** An asset path starts with [Assets] and goes on; a valid one therefore
    has a final segment, and that segment holds no separator. *)
Lemma is_asset_name p :
  valid p -> is_asset p = true ->
  name p <> "" /\ Str.contains Str.slash (name p) = false
  /\ suffix p <> ".meta" /\ is_hidden p = false.
Proof.
  intros [Hroot Hs]. unfold is_asset.
  destruct (1 <? length (parts p))%nat eqn:Hlen; simpl; [|done].
  destruct (bool_decide (parts p !! 0 = Some "Assets")) eqn:Hhd; simpl; [|done].
  intros [Hh Hsfx]%andb_prop.
  apply negb_true_iff in Hh, Hsfx. apply String.eqb_neq in Hsfx.
  apply Nat.ltb_lt in Hlen. apply bool_decide_eq_true in Hhd.
  assert (segs p <> []) as Hne.
  { unfold parts in *. destruct Hroot as [E | [E | E]]; rewrite E in *; simpl in *.
    - intros E'. rewrite E' in Hlen. simpl in Hlen. lia.
    - done.
    - done. }
  assert (valid_segment (name p)) as (? & _ & ?).
  { unfold name. rewrite Forall_forall in Hs. apply Hs.
    rewrite (app_removelast_last "" Hne) at 2.
    apply elem_of_app. right. by apply list_elem_of_singleton. }
  done.
Qed.

Lemma meta_file_for_asset_Ok p :
  valid p -> is_asset p = true ->
  meta_file_for_asset p
  = Ok (mkPath (root_of p) (removelast (segs p) ++ [name p +:+ ".meta"])).
Proof.
  intros Hv Ha. destruct (is_asset_name p Hv Ha) as (Hne & Hsl & Hsfx & _).
  unfold meta_file_for_asset. apply String.eqb_neq in Hsfx. rewrite Hsfx.
  by apply with_suffix_append_meta.
Qed.

Lemma is_meta_file_suffix p : is_meta_file p = true -> suffix p = ".meta".
Proof.
  unfold is_meta_file.
  destruct ((1 <? length (parts p))%nat && bool_decide (parts p !! 0 = Some "Assets"));
    [|done].
  intros [_ H]%andb_prop. by apply String.eqb_eq.
Qed.

Lemma suffix_nonempty_name p : suffix p <> "" -> name p <> "".
Proof. unfold suffix. intros H E. rewrite E in H. by apply H. Qed.

Lemma asset_for_meta_file_Ok p :
  is_meta_file p = true -> exists a, asset_for_meta_file p = Ok a.
Proof.
  intros Hm. pose proof (is_meta_file_suffix p Hm) as Hsfx.
  unfold asset_for_meta_file. rewrite Hsfx. simpl. unfold with_suffix. simpl.
  assert (name p <> "") as Hne by (apply suffix_nonempty_name; by rewrite Hsfx).
  apply is_empty_false in Hne. rewrite Hne. eauto.
Qed.

Lemma asset_not_meta p : is_asset p = true -> is_meta_file p = false.
Proof.
  unfold is_asset, is_meta_file.
  destruct ((1 <? length (parts p))%nat && bool_decide (parts p !! 0 = Some "Assets"));
    [|done].
  intros [-> H]%andb_prop. apply negb_true_iff in H. by rewrite H.
Qed.

End Classification.

(** ** The tree the checker builds *)

Section Build.

Import Pathlib UnityGitRepository Checker.

Implicit Types (h : store) (t : PathTree) (r : Repository).

Lemma add_visible h t p h' n :
  visible_names h -> valid p -> is_hidden p = false ->
  PathTree.add h t p = Ok (h', n) -> visible_names h'.
Proof.
  intros Hv Hp Hh H. pose proof (add_Ok_relative _ _ _ _ _ H) as Hrel.
  rewrite add_relative in H by done.
  pose proof (not_hidden_visible p Hp Hrel Hh) as Hvis.
  rewrite (visible_path_parts p Hvis) in H.
  eapply add_loop_visible; [done | apply Hvis | done].
Qed.

Lemma prune_visible h t path limit_path h' s :
  wf_store h -> visible_names h ->
  PathTree.prune h t path limit_path = Ok (h', s) -> visible_names h'.
Proof.
  intros Hwf Hv H. destruct (prune_keeps _ _ _ _ _ _ Hwf H) as (_ & ? & ?).
  by eapply visible_names_keeps.
Qed.

(** Seeding: the tracked paths that are not hidden. *)
Lemma add_all_filter_keeps h t paths h' :
  wf_tree h t ->
  PathTree.add_all h t (List.filter (fun p => negb (is_hidden p)) paths) = Ok h' ->
  wf_tree h' t
  /\ (Forall valid paths -> visible_names h -> visible_names h').
Proof.
  revert h; induction paths as [|p paths IH]; intros h Hwf; simpl.
  - by intros [= <-].
  - destruct (is_hidden p) eqn:Hh; simpl.
    + intros H. destruct (IH h Hwf H) as [? Hvis]. split; [done|].
      intros [_ ?]%Forall_cons. auto.
    + destruct (PathTree.add h t p) as [[h1 n]| |] eqn:E; simpl; try done.
      intros H. destruct (IH h1 (add_wf _ _ _ _ _ Hwf E) H) as [? Hvis].
      split; [done|]. intros [Hp ?]%Forall_cons Hv.
      apply Hvis; [done|]. by eapply add_visible.
Qed.

Lemma staged_D_keeps t h paths h' :
  wf_tree h t -> staged_D t h paths = Ok h' ->
  wf_tree h' t /\ (visible_names h -> visible_names h').
Proof.
  revert h; induction paths as [|p paths IH]; intros h Hwf; simpl.
  - by intros [= <-].
  - destruct (is_hidden p); simpl; [by apply IH|].
    destruct (PathTree.prune h t p (parse "Assets")) as [[h1 s]| |] eqn:E;
      simpl; try done.
    intros H. destruct (IH h1 (prune_wf _ _ _ _ _ _ Hwf E) H) as [? Hvis].
    split; [done|]. intros Hv. apply Hvis.
    by eapply prune_visible; [apply Hwf | |].
Qed.

Lemma staged_A_keeps t h paths h' :
  wf_tree h t -> staged_A t h paths = Ok h' ->
  wf_tree h' t /\ (Forall valid paths -> visible_names h -> visible_names h').
Proof.
  revert h; induction paths as [|p paths IH]; intros h Hwf; simpl.
  - by intros [= <-].
  - destruct (is_hidden p) eqn:Hh; simpl.
    + intros H. destruct (IH h Hwf H) as [? Hvis]. split; [done|].
      intros [_ ?]%Forall_cons. auto.
    + destruct (PathTree.add h t p) as [[h1 n]| |] eqn:E; simpl; try done.
      intros H. destruct (IH h1 (add_wf _ _ _ _ _ Hwf E) H) as [? Hvis].
      split; [done|]. intros [Hp ?]%Forall_cons Hv.
      apply Hvis; [done|]. by eapply add_visible.
Qed.

Lemma staged_rename_keeps t h old new h' :
  wf_tree h t -> staged_rename t h old new = Ok h' ->
  wf_tree h' t /\ (valid new -> visible_names h -> visible_names h').
Proof.
  intros Hwf. unfold staged_rename.
  assert (forall h1,
    wf_tree h1 t ->
    (if negb (is_hidden new)
     then '(h2, _) ← PathTree.add h1 t new; Ok h2 else Ok h1) = Ok h' ->
    wf_tree h' t /\ (valid new -> visible_names h1 -> visible_names h')) as Hnew.
  { intros h1 Hwf1. destruct (is_hidden new) eqn:Hh; simpl.
    - by intros [= <-].
    - destruct (PathTree.add h1 t new) as [[h2 n]| |] eqn:E; simpl; try done.
      intros [= <-]. split; [by eapply add_wf|]. intros ? ?. by eapply add_visible. }
  destruct (is_hidden old); simpl; [by apply Hnew|].
  destruct (PathTree.prune h t old (parse "Assets")) as [[h1 s]| |] eqn:E;
    simpl; try done.
  intros H. destruct (Hnew h1 (prune_wf _ _ _ _ _ _ Hwf E) H) as [? Hvis].
  split; [done|]. intros Hv0 Hv. apply Hvis; [done|].
  by eapply prune_visible; [apply Hwf | |].
Qed.

Lemma staged_R_keeps t h paths h' :
  wf_tree h t -> staged_R t h paths = Ok h' ->
  wf_tree h' t
  /\ (Forall (fun on => valid (fst on) /\ valid (snd on)) paths ->
      visible_names h -> visible_names h').
Proof.
  revert h; induction paths as [|[old new] paths IH]; intros h Hwf; simpl.
  - by intros [= <-].
  - destruct (staged_rename t h old new) as [h1| |] eqn:E; simpl; try done.
    destruct (staged_rename_keeps _ _ _ _ _ Hwf E) as [Hwf1 Hvis1].
    intros H. destruct (IH h1 Hwf1 H) as [? Hvis]. split; [done|].
    intros [[_ Hnew] ?]%Forall_cons Hv. simpl in Hnew. auto.
Qed.

Lemma apply_staged_keeps t h changes h' :
  wf_tree h t -> apply_staged t h changes = Ok h' ->
  wf_tree h' t /\ (Forall valid_entry changes -> visible_names h -> visible_names h').
Proof.
  revert h; induction changes as [|e changes IH]; intros h Hwf; simpl.
  - by intros [= <-].
  - destruct e as [paths|paths|paths].
    + destruct (staged_A t h paths) as [h1| |] eqn:E; simpl; try done.
      destruct (staged_A_keeps _ _ _ _ Hwf E) as [Hwf1 Hvis1].
      intros H. destruct (IH h1 Hwf1 H) as [? Hvis]. split; [done|].
      intros [He ?]%Forall_cons Hv. simpl in He. auto.
    + destruct (staged_D t h paths) as [h1| |] eqn:E; simpl; try done.
      destruct (staged_D_keeps _ _ _ _ Hwf E) as [Hwf1 Hvis1].
      intros H. destruct (IH h1 Hwf1 H) as [? Hvis]. split; [done|].
      intros [He ?]%Forall_cons Hv. auto.
    + destruct (staged_R t h paths) as [h1| |] eqn:E; simpl; try done.
      destruct (staged_R_keeps _ _ _ _ Hwf E) as [Hwf1 Hvis1].
      intros H. destruct (IH h1 Hwf1 H) as [? Hvis]. split; [done|].
      intros [He ?]%Forall_cons Hv. simpl in He. auto.
Qed.

Lemma visible_names_root : visible_names [mkNode "." None []].
Proof.
  intros i nd E. apply list_lookup_singleton_Some in E as [_ <-]. by left.
Qed.

(** The tree the checker builds is well-formed, and when the repository
    hands out valid paths all its nodes but the root have plain names. *)
Lemma build_keeps r h t :
  build r = Ok (h, t) ->
  wf_tree h t /\ (valid_repository r -> visible_names h).
Proof.
  unfold build, PathTree.from_iterable, PathTree.init, PathNode.init. simpl.
  set (t0 := mkTree (root r) 0).
  destruct (PathTree.add_all [mkNode "." None []] t0 _) as [h1| |] eqn:E1;
    simpl; try done.
  destruct (apply_staged t0 h1 _) as [h2| |] eqn:E2; simpl; try done.
  intros [= <- <-].
  assert (wf_tree [mkNode "." None []] t0) as Hwf0.
  { split; [apply (wf_store_alloc [] "." None wf_store_nil)|].
    by exists (mkNode "." None []). }
  destruct (add_all_filter_keeps _ _ _ _ Hwf0 E1) as [Hwf1 Hvis1].
  destruct (apply_staged_keeps _ _ _ _ Hwf1 E2) as [Hwf2 Hvis2].
  split; [done|]. intros [Htr Hst]. apply Hvis2; [done|].
  apply Hvis1; [done | apply visible_names_root].
Qed.

(** [all_paths] on a well-formed tree stops, with the same paths for every
    budget that is large enough. *)
Lemma all_paths_total h t :
  wf_store h ->
  exists paths,
    Forall valid paths
    /\ forall fuel,
        S (S (weight h (_root t))) <= fuel -> PathTree.all_paths fuel h t = Ok paths.
Proof.
  intros Hwf. unfold PathTree.all_paths.
  destruct (all_paths_loop_terminates h Hwf (S (S (weight h (_root t))))
              [(parse ".", [_root t])]) as [ys E].
  { unfold potential. simpl. lia. }
  exists ys. split.
  - eapply all_paths_loop_valid; [|exact E].
    constructor; [|done]. apply parse_valid.
  - intros fuel Hfuel. by eapply all_paths_loop_mono.
Qed.

End Build.

(** ** The classification loop *)

Section Classify.

Import Pathlib UnityGitRepository Checker.

Implicit Types (h : store) (t : PathTree) (r : Repository) (p x : PurePath).

Lemma elem_of_set_add x y s : x ∈ set_add y s <-> x = y \/ x ∈ s.
Proof.
  unfold set_add. destruct (bool_decide (y ∈ s)) eqn:E.
  - apply bool_decide_eq_true in E. split; [auto | by intros [->|]].
  - rewrite elem_of_app, list_elem_of_singleton. tauto.
Qed.

(** One round of the loop never raises on a valid path, and adds to the
    two sets exactly what the path calls for. *)
Lemma classify_path_spec r p m0 o0 :
  valid p ->
  exists m1 o1,
    classify_path r (m0, o0) p = Ok (m1, o1)
    /\ (forall x, x ∈ m1 <-> x ∈ m0 \/ is_missing r [p] x)
    /\ (forall x, x ∈ o1 <-> x ∈ o0 \/ is_orphan r [p] x).
Proof.
  intros Hv. unfold classify_path.
  assert (forall x, is_missing r [p] x <->
            is_asset p = true /\ path_exists r p = true
            /\ meta_file_for_asset p = Ok x /\ is_file r x = false) as Hmiss.
  { intros x. unfold is_missing. split.
    - by intros (p' & ->%list_elem_of_singleton & ?).
    - intros ?. exists p. split; [by apply list_elem_of_singleton | done]. }
  assert (forall x, is_orphan r [p] x <->
            x = p /\ is_meta_file p = true /\ is_file r p = true
            /\ exists a, asset_for_meta_file p = Ok a /\ path_exists r a = false)
    as Horph.
  { intros x. unfold is_orphan. rewrite list_elem_of_singleton. split.
    - intros (-> & ?). done.
    - intros (-> & ?). done. }
  destruct (is_asset p) eqn:Ha; simpl.
  - pose proof (asset_not_meta p Ha) as Hnm.
    assert (forall x, ~ is_orphan r [p] x) as Hno.
    { intros x (_ & Hm & _)%Horph. congruence. }
    destruct (path_exists r p) eqn:Hex; simpl.
    + rewrite (meta_file_for_asset_Ok p Hv Ha). simpl.
      set (m := mkPath (root_of p) (removelast (segs p) ++ [name p +:+ ".meta"])).
      assert (meta_file_for_asset p = Ok m) as Em by by apply meta_file_for_asset_Ok.
      destruct (is_file r m) eqn:Hf; simpl.
      * exists m0, o0. split; [done|]. split; intros x.
        -- rewrite Hmiss, Em. split; [auto|]. intros [? | (_ & _ & [= <-] & ?)]; [done|].
           congruence.
        -- split; [auto|]. intros [? | ?%Hno]; done.
      * exists (set_add m m0), o0. split; [done|]. split; intros x.
        -- rewrite elem_of_set_add, Hmiss, Em. split.
           ++ intros [-> | ?]; auto.
           ++ intros [? | (_ & _ & [= <-] & _)]; auto.
        -- split; [auto|]. intros [? | ?%Hno]; done.
    + rewrite Hnm. simpl. exists m0, o0. split; [done|]. split; intros x.
      * rewrite Hmiss. split; [auto|]. intros [? | (_ & ? & _)]; [done | congruence].
      * split; [auto|]. intros [? | ?%Hno]; done.
  - assert (forall x, ~ is_missing r [p] x) as Hnm.
    { intros x (? & _)%Hmiss. congruence. }
    destruct (is_meta_file p) eqn:Hm; simpl.
    + destruct (is_file r p) eqn:Hf; simpl.
      * destruct (asset_for_meta_file_Ok p Hm) as [a Ea]. rewrite Ea. simpl.
        destruct (path_exists r a) eqn:Hex; simpl.
        -- exists m0, o0. split; [done|]. split; intros x.
           ++ split; [auto|]. intros [? | ?%Hnm]; done.
           ++ rewrite Horph, Ea. split; [auto|].
              intros [? | (_ & _ & _ & a' & [= <-] & ?)]; [done | congruence].
        -- exists m0, (set_add p o0). split; [done|]. split; intros x.
           ++ split; [auto|]. intros [? | ?%Hnm]; done.
           ++ rewrite elem_of_set_add, Horph. split.
              ** intros [-> | ?]; [|auto]. right. repeat split. eauto.
              ** intros [? | (-> & _)]; auto.
      * exists m0, o0. split; [done|]. split; intros x.
        -- split; [auto|]. intros [? | ?%Hnm]; done.
        -- rewrite Horph. split; [auto|].
           intros [? | (_ & _ & ? & _)]; [done | congruence].
    + exists m0, o0. split; [done|]. split; intros x.
      * split; [auto|]. intros [? | ?%Hnm]; done.
      * rewrite Horph. split; [auto|].
        intros [? | (_ & ? & _)]; [done | congruence].
Qed.

Lemma is_missing_cons r p paths x :
  is_missing r (p :: paths) x <-> is_missing r [p] x \/ is_missing r paths x.
Proof.
  unfold is_missing. split.
  - intros (p' & [-> | Hin]%elem_of_cons & H).
    + left. exists p. split; [by apply list_elem_of_singleton | done].
    + right. eauto.
  - intros [(p' & ->%list_elem_of_singleton & H) | (p' & Hin & H)].
    + exists p. split; [apply list_elem_of_here | done].
    + exists p'. split; [by apply list_elem_of_further | done].
Qed.

Lemma is_orphan_cons r p paths x :
  is_orphan r (p :: paths) x <-> is_orphan r [p] x \/ is_orphan r paths x.
Proof.
  unfold is_orphan. rewrite elem_of_cons, list_elem_of_singleton. tauto.
Qed.

Lemma is_missing_nil r x : ~ is_missing r [] x.
Proof. by intros (p & ?%elem_of_nil & _). Qed.

Lemma is_orphan_nil r x : ~ is_orphan r [] x.
Proof. by intros (?%elem_of_nil & _). Qed.

Lemma bind_Ok {A B} (a : A) (f : A -> result B) : (Ok a ≫= f) = f a.
Proof. reflexivity. Qed.

Lemma classify_cons r acc p paths :
  classify r acc (p :: paths) = acc' ← classify_path r acc p; classify r acc' paths.
Proof. reflexivity. Qed.

Lemma classify_path_skip r acc p :
  is_asset p = false -> is_meta_file p = false -> classify_path r acc p = Ok acc.
Proof. intros Ha Hm. unfold classify_path. rewrite Ha, Hm. by destruct acc. Qed.

Lemma classify_path_missing r p m missing orphans :
  is_asset p = true -> path_exists r p = true ->
  meta_file_for_asset p = Ok m -> is_file r m = false ->
  classify_path r (missing, orphans) p = Ok (set_add m missing, orphans).
Proof.
  intros Ha Hex Em Hf. unfold classify_path. rewrite Ha, Hex, Em. simpl.
  by rewrite Hf.
Qed.

(** The whole loop: it never raises on valid paths and ends with the two
    sets enlarged by exactly the missing and the orphaned paths. *)
Lemma classify_spec r paths :
  Forall valid paths ->
  forall m0 o0,
  exists m o,
    classify r (m0, o0) paths = Ok (m, o)
    /\ (forall x, x ∈ m <-> x ∈ m0 \/ is_missing r paths x)
    /\ (forall x, x ∈ o <-> x ∈ o0 \/ is_orphan r paths x).
Proof.
  induction 1 as [|p paths Hp _ IH]; intros m0 o0.
  - exists m0, o0. split; [done|]. split; intros x.
    + pose proof (is_missing_nil r x). tauto.
    + pose proof (is_orphan_nil r x). tauto.
  - destruct (classify_path_spec r p m0 o0 Hp) as (m1 & o1 & E1 & Hm1 & Ho1).
    destruct (IH m1 o1) as (m & o & E & Hm & Ho).
    exists m, o. split; [rewrite classify_cons, E1; exact E|]. split; intros x.
    + rewrite Hm, Hm1, (is_missing_cons r p paths x). tauto.
    + rewrite Ho, Ho1, (is_orphan_cons r p paths x). tauto.
Qed.

End Classify.

Section CheckerReport.

Import Pathlib UnityGitRepository Checker.

Implicit Types (h : store) (t : PathTree) (r : Repository) (p x : PurePath).

(** The checker on a state for which the tree gets built, and on the
    state with [Assets/a] alone. *)
Lemma check_spec :
  (forall r h t,
      build r = Ok (h, t) ->
      exists paths success missing orphans,
        (forall fuel,
            S (S (weight h (_root t))) <= fuel ->
            PathTree.all_paths fuel h t = Ok paths
            /\ check_unity_meta_files fuel r = Ok (success, missing, orphans))
        /\ (forall x, x ∈ missing <-> is_missing r paths x)
        /\ (forall x, x ∈ orphans <-> is_orphan r paths x)
        /\ (success = true <-> missing = [] /\ orphans = []))
  /\ (forall r fuel,
      tracked_at r "Assets/" = [Path "Assets/a"] ->
      staged_at r "Assets/" = [] ->
      path_exists r (Path "Assets/a") = true ->
      is_file r (Path "Assets/a.meta") = false ->
      5 <= fuel ->
      check_unity_meta_files fuel r = Ok (false, [Path "Assets/a.meta"], [])).
Proof.
  split.
  - intros r h t Hbuild.
    destruct (build_keeps r h t Hbuild) as [[Hwf _] _].
    destruct (all_paths_total h t Hwf) as (paths & Hvalid & Hpaths).
    destruct (classify_spec r paths Hvalid [] []) as (m & o & E & Hm & Ho).
    exists paths, (Nat.eqb (length m + length o) 0), m, o.
    split; [|split; [|split]].
    + intros fuel Hfuel. split; [by apply Hpaths|].
      unfold check_unity_meta_files. rewrite Hbuild. simpl.
      rewrite (Hpaths fuel Hfuel). simpl. by rewrite E.
    + intros x. rewrite Hm. split; [|auto]. by intros [?%elem_of_nil|].
    + intros x. rewrite Ho. split; [|auto]. by intros [?%elem_of_nil|].
    + rewrite Nat.eqb_eq. destruct m, o; simpl; split; try done; try lia.
      all: by intros [? ?].
  - intros r fuel Htracked Hstaged Hex Hfile Hfuel.
    set (h0 := [mkNode "." None [("Assets", 1)];
                mkNode "Assets" (Some 0) [("a", 2)];
                mkNode "a" (Some 1) []]).
    assert (build r = Ok (h0, mkTree (root r) 0)) as Hbuild.
    { unfold build. rewrite Htracked, Hstaged. reflexivity. }
    assert (PathTree.all_paths fuel h0 (mkTree (root r) 0)
            = Ok [Path "."; Path "Assets"; Path "Assets/a"]) as Hpaths.
    { unfold PathTree.all_paths. by apply (all_paths_loop_mono h0 5). }
    unfold check_unity_meta_files. rewrite Hbuild, bind_Ok.
    cbv beta iota. rewrite Hpaths, bind_Ok.
    rewrite classify_cons, classify_path_skip, bind_Ok by reflexivity.
    rewrite classify_cons, classify_path_skip, bind_Ok by reflexivity.
    rewrite classify_cons.
    rewrite (classify_path_missing r _ (Path "Assets/a.meta")) by done.
    reflexivity.
Qed.

End CheckerReport.

Section HiddenPaths.

Import Pathlib UnityGitRepository Checker.

Implicit Types (h : store) (t : PathTree) (r : Repository) (p x : PurePath).

Lemma plain_name_meta n : plain_name n -> plain_name (n +:+ ".meta").
Proof.
  intros [(Hne & _ & Hs) Hd]. split; [split; [|split]|].
  - intros E%(f_equal String.length). rewrite str_length_app in E. simpl in E. lia.
  - intros E%(f_equal String.length). rewrite str_length_app in E. simpl in E. lia.
  - by rewrite str_contains_app, Hs.
  - destruct n; [done | exact Hd].
Qed.

(** The companion of a visible asset path is visible. *)
Lemma meta_file_for_asset_visible p x :
  visible_path p -> is_asset p = true -> meta_file_for_asset p = Ok x ->
  visible_path x.
Proof.
  intros Hvis Ha E.
  pose proof (visible_path_valid p Hvis) as Hv.
  rewrite (meta_file_for_asset_Ok p Hv Ha) in E. injection E as <-.
  destruct (is_asset_name p Hv Ha) as (Hne & _).
  destruct Hvis as [Hr Hs]. split; [done|]. simpl.
  assert (segs p <> []) as Hsegs.
  { intros E. apply Hne. unfold name. by rewrite E. }
  rewrite (app_removelast_last "" Hsegs) in Hs.
  apply Forall_app in Hs as [Hinit Hlast].
  apply Forall_app. split; [done|].
  apply Forall_cons in Hlast as [Hlast _].
  constructor; [|done]. by apply plain_name_meta.
Qed.

Lemma hidden_not_classified p :
  is_hidden p = true -> is_asset p = false /\ is_meta_file p = false.
Proof.
  intros Hh. unfold is_asset, is_meta_file. rewrite Hh. simpl.
  by destruct ((1 <? length (parts p))%nat
               && bool_decide (parts p !! 0 = Some "Assets")).
Qed.

(** C3.  When the repository hands out valid paths and the tree gets
    built, no path that [all_paths] enumerates is hidden, and no path in
    the returned sets is; a hidden path is classified neither as an asset
    path nor as a metadata-file path.  With [Assets/.hidden/a] the only
    tracked path and nothing staged, nothing is reported. *)
Theorem hidden_paths_never_appear :
  (forall p, is_hidden p = true -> is_asset p = false /\ is_meta_file p = false)
  /\ (forall r h t,
      valid_repository r ->
      build r = Ok (h, t) ->
      (forall fuel paths,
          PathTree.all_paths fuel h t = Ok paths ->
          forall p, p ∈ paths -> is_hidden p = false)
      /\ (forall fuel success missing orphans,
          check_unity_meta_files fuel r = Ok (success, missing, orphans) ->
          forall p, p ∈ missing \/ p ∈ orphans -> is_hidden p = false))
  /\ (forall r fuel,
      tracked_at r "Assets/" = [Path "Assets/.hidden/a"] ->
      staged_at r "Assets/" = [] ->
      3 <= fuel ->
      check_unity_meta_files fuel r = Ok (true, [], [])).
Proof.
  split; [exact hidden_not_classified|]. split.
  - intros r h t Hr Hbuild.
    destruct (build_keeps r h t Hbuild) as [Hwf Hnames].
    specialize (Hnames Hr).
    assert (forall fuel paths,
              PathTree.all_paths fuel h t = Ok paths -> Forall visible_path paths)
      as Hvisible.
    { intros fuel paths E. eapply all_paths_loop_visible; [done | | exact E].
      constructor; [|done]. by split. }
    split.
    + intros fuel paths E p Hp. apply visible_not_hidden.
      specialize (Hvisible fuel paths E). rewrite Forall_forall in Hvisible. auto.
    + intros fuel success missing orphans Hcheck p Hp.
      unfold check_unity_meta_files in Hcheck. rewrite Hbuild, bind_Ok in Hcheck.
      cbv beta iota in Hcheck.
      destruct (PathTree.all_paths fuel h t) as [paths| |] eqn:E; try done.
      rewrite bind_Ok in Hcheck.
      specialize (Hvisible fuel paths E).
      assert (Forall valid paths) as Hvalid.
      { eapply Forall_impl; [exact Hvisible | apply visible_path_valid]. }
      destruct (classify_spec r paths Hvalid [] []) as (m & o & Ec & Hm & Ho).
      rewrite Ec, bind_Ok in Hcheck. injection Hcheck as _ <- <-.
      rewrite Forall_forall in Hvisible. apply visible_not_hidden.
      destruct Hp as [Hp | Hp].
      * apply Hm in Hp as [?%elem_of_nil | (p0 & Hin & Ha & _ & Em & _)]; [done|].
        eapply meta_file_for_asset_visible; [|exact Ha | exact Em]. auto.
      * apply Ho in Hp as [?%elem_of_nil | (Hin & _)]; [done | auto].
  - intros r fuel Htracked Hstaged Hfuel.
    assert (build r = Ok ([mkNode "." None []], mkTree (root r) 0)) as Hbuild.
    { unfold build. rewrite Htracked, Hstaged. reflexivity. }
    assert (PathTree.all_paths fuel [mkNode "." None []] (mkTree (root r) 0)
            = Ok [Path "."]) as Hpaths.
    { unfold PathTree.all_paths. by apply (all_paths_loop_mono _ 3). }
    unfold check_unity_meta_files. rewrite Hbuild, bind_Ok.
    cbv beta iota. rewrite Hpaths, bind_Ok.
    rewrite classify_cons, classify_path_skip, bind_Ok by reflexivity.
    reflexivity.
Qed.

Lemma valid_repository_hidden : valid_repository repo_hidden.
Proof.
  split; simpl.
  - repeat (apply Forall_cons; split; [apply parse_valid|]). apply Forall_nil_2.
  - apply Forall_cons. split.
    { simpl. apply Forall_cons. split; [apply parse_valid | apply Forall_nil_2]. }
    apply Forall_cons. split; [|apply Forall_nil_2].
    simpl. apply Forall_cons. split; [|apply Forall_nil_2].
    split; apply parse_valid.
Qed.

Lemma hidden_paths_never_appear_witness :
  (forall p, p ∈ [Path "."; Path "Assets"; Path "Assets/b"; Path "Assets/b.meta";
                  Path "Assets/c.meta"] ->
             is_hidden p = false)
  /\ (forall p, p ∈ [] \/ p ∈ [Path "Assets/c.meta"] -> is_hidden p = false).
Proof.
  destruct (proj1 (proj2 hidden_paths_never_appear) repo_hidden
              (store_of (build repo_hidden)) (tree_in (build repo_hidden))
              valid_repository_hidden eq_refl) as [Hpaths Hsets].
  split.
  - apply (Hpaths 10). reflexivity.
  - apply (Hsets 10 false). reflexivity.
Defined.

End HiddenPaths.

(** ** The two builders of the proposed state *)

Section Proposed.

Import UnityGitRepository Checker.

(** The rename loop of [proposed] never looks at the old path of the
    rename: two lists of renames that differ only there are treated
    alike. *)
Lemma proposed_R_ignores_old tree h path old old' new rest :
  proposed_R tree h path ((old, new) :: rest)
  = proposed_R tree h path ((old', new) :: rest).
Proof. reflexivity. Qed.

(** C2 fails for [UnityGitRepository.proposed].  With [Assets/n] staged as
    added and [Assets/b] renamed to [Assets/c], the rename loop prunes
    [Assets/n], the path left in the variable of the loop over the
    additions: the tree keeps [Assets/b] and loses [Assets/n].  After a
    staged deletion it prunes the deleted path a second time and fails;
    with only a rename staged the variable is unbound.  The loop in
    [check_unity_meta_files] prunes the old path of each rename, on the
    same inputs. *)
Theorem proposed_prunes_a_stale_path :
  (has (proposed repo_add_then_rename) "Assets/b" = Ok true
   /\ has (proposed repo_add_then_rename) "Assets/n" = Ok false
   /\ has (proposed repo_add_then_rename) "Assets/c" = Ok true)
  /\ (has (build repo_add_then_rename) "Assets/b" = Ok false
      /\ has (build repo_add_then_rename) "Assets/n" = Ok true
      /\ has (build repo_add_then_rename) "Assets/c" = Ok true)
  /\ proposed repo_delete_then_rename = Raise NonExistentPath
  /\ (has (build repo_delete_then_rename) "Assets/a" = Ok false
      /\ has (build repo_delete_then_rename) "Assets/b" = Ok false
      /\ has (build repo_delete_then_rename) "Assets/c" = Ok true)
  /\ proposed repo_rename_only = Raise UnboundLocal
  /\ (has (build repo_rename_only) "Assets/b" = Ok false
      /\ has (build repo_rename_only) "Assets/c" = Ok true)
  /\ (forall tree h path old old' new rest,
         proposed_R tree h path ((old, new) :: rest)
         = proposed_R tree h path ((old', new) :: rest)).
Proof. repeat split. Qed.

End Proposed.

(** ** [prune] *)

Section PruneFacts.

Implicit Types (h : store) (t : PathTree) (n m c s x : ref) (k a : string)
  (ps qs ls : list string).

Lemma walk_snoc_parent h n qs k x :
  wf_store h -> walk h n (qs ++ [k]) = Some x ->
  exists m, walk h n qs = Some m
            /\ OrderedDict.get k (_children (deref h m)) = Some x
            /\ PathNode.parent h x = Some m /\ PathNode.name h x = k /\ m < x.
Proof.
  intros Hwf (m & Em & Eg)%walk_snoc. exists m.
  destruct (wf_get h m k x Hwf Eg) as (? & _ & ? & ?). done.
Qed.

Lemma wf_tree_root_parent h t :
  wf_tree h t -> PathNode.parent h (_root t) = None.
Proof. intros [_ (nd & E & Hp)]. unfold PathNode.parent. by rewrite (deref_Some _ _ _ E). Qed.

(** In a well-formed tree a node is reached from the root by one path. *)
Lemma walk_inj h t qs qs' x :
  wf_tree h t ->
  walk h (_root t) qs = Some x -> walk h (_root t) qs' = Some x -> qs = qs'.
Proof.
  intros Hwf. pose proof (wf_tree_root_parent h t Hwf) as Hroot.
  destruct Hwf as [Hwf _].
  revert qs' x; induction qs as [|k qs IH] using rev_ind; intros qs' x E E'.
  - simpl in E. injection E as <-.
    destruct qs' as [|k' qs' _] using rev_ind; [done|].
    destruct (walk_snoc_parent _ _ _ _ _ Hwf E') as (m & _ & _ & Hp & _). congruence.
  - destruct (walk_snoc_parent _ _ _ _ _ Hwf E) as (m & Em & _ & Hp & Hn & _).
    destruct qs' as [|k' qs' _] using rev_ind.
    + simpl in E'. injection E' as <-. congruence.
    + destruct (walk_snoc_parent _ _ _ _ _ Hwf E') as (m' & Em' & _ & Hp' & Hn' & _).
      assert (m' = m) as -> by congruence.
      rewrite (IH qs' m Em Em'). congruence.
Qed.

(** The node a path leads to has no parent exactly when the path is
    empty. *)
Lemma walk_is_root h t qs x :
  wf_tree h t -> walk h (_root t) qs = Some x ->
  PathNode.is_root_node h x = true <-> qs = [].
Proof.
  intros Hwf E. unfold PathNode.is_root_node.
  destruct qs as [|k qs _] using rev_ind.
  - simpl in E. injection E as <-. by rewrite (wf_tree_root_parent h t Hwf).
  - destruct (walk_snoc_parent _ _ _ _ _ (proj1 Hwf) E) as (m & _ & _ & -> & _).
    split; [done|]. by intros [_ ?]%app_eq_nil.
Qed.

Lemma prefix_snoc_inv {A} (l q : list A) (a : A) :
  l `prefix_of` q ++ [a] -> l `prefix_of` q \/ l = q ++ [a].
Proof.
  intros [r E]. destruct r as [|b r _] using rev_ind.
  - right. by rewrite app_nil_r in E.
  - left. rewrite app_assoc in E. apply app_inj_tail in E as [-> _].
    by exists r.
Qed.

(** With [lim] the node at [ls]: [lim] is a proper ancestor of the node at
    [ps] exactly when [ls] is a proper prefix of [ps]. *)
Lemma proper_ancestor_prefix h t ls ps lim node :
  wf_tree h t ->
  walk h (_root t) ls = Some lim -> walk h (_root t) ps = Some node ->
  proper_ancestor h lim node <-> exists rest, rest <> [] /\ ps = ls ++ rest.
Proof.
  intros Hwf El Ep. split.
  - intros (rest & Hne & E). exists rest. split; [done|].
    eapply walk_inj; [done | exact Ep |]. rewrite walk_app, El. exact E.
  - intros (rest & Hne & ->). exists rest. split; [done|].
    rewrite walk_app, El in Ep. exact Ep.
Qed.

(** The first loop of [prune] climbs from the node at [ps]; it ends at a
    node without parent exactly when no node on the way up is [lim]. *)
Lemma prune_climb_spec h t lim ps :
  wf_tree h t ->
  forall node fuel,
    walk h (_root t) ps = Some node ->
    length ps < fuel ->
    exists cur,
      PathTree.prune_climb fuel h lim node = Ok cur
      /\ (PathNode.parent h cur = None <->
          ~ exists qs rest, rest <> [] /\ ps = qs ++ rest
                            /\ walk h (_root t) qs = Some lim).
Proof.
  intros Hwf. induction ps as [|k ps IH] using rev_ind; intros node fuel E Hfuel.
  - simpl in E. injection E as <-. destruct fuel as [|fuel]; [lia|]. simpl.
    rewrite (wf_tree_root_parent h t Hwf). exists (_root t).
    split; [done|]. split; [|by rewrite (wf_tree_root_parent h t Hwf)].
    intros _ (qs & rest & Hne & Eq & _).
    symmetry in Eq. apply app_eq_nil in Eq as [_ ->]. done.
  - destruct (walk_snoc_parent _ _ _ _ _ (proj1 Hwf) E) as (m & Em & _ & Hp & _).
    destruct fuel as [|fuel]; [lia|]. simpl. rewrite Hp.
    rewrite length_app in Hfuel. simpl in Hfuel.
    destruct (decide (m = lim)) as [->|Hne].
    + rewrite bool_decide_eq_true_2 by done. exists node. split; [done|].
      rewrite Hp. split; [done|]. intros H. exfalso. apply H.
      exists ps, [k]. done.
    + rewrite bool_decide_eq_false_2 by done.
      destruct (IH m fuel Em ltac:(lia)) as (cur & Ec & Hcur).
      exists cur. split; [done|]. rewrite Hcur. split.
      * intros H (qs & rest & Hrest & Eq & El). apply H.
        destruct rest as [|b rest _] using rev_ind; [done|].
        rewrite app_assoc in Eq. apply app_inj_tail in Eq as [-> _].
        destruct rest as [|b' rest'].
        -- rewrite app_nil_r in Em. congruence.
        -- exists qs, (b' :: rest'). done.
      * intros H (qs & rest & Hrest & -> & El). apply H.
        exists qs, (rest ++ [k]). split; [by intros [_ ?]%app_eq_nil|].
        by rewrite app_assoc.
Qed.

End PruneFacts.

Section PruneLoop.

Implicit Types (h : store) (t : PathTree) (n m c s x : ref) (k a : string)
  (ps qs ls : list string).

(** After the unlinking of the child [k] of the node at [qs], the paths
    through that child are gone and every other path leads where it led. *)
Lemma walk_after_unlink h h' t qs k :
  wf_tree h t -> unlinked h h' (_root t) qs k ->
  forall q,
    walk h' (_root t) q
    = if decide (qs ++ [k] `prefix_of` q) then None else walk h (_root t) q.
Proof.
  intros Hwf (s & Es & Hs & Hother).
  induction q as [|a q IH] using rev_ind.
  - simpl. destruct (decide (qs ++ [k] `prefix_of` [])) as [Hp|]; [|done].
    apply prefix_length in Hp. rewrite length_app in Hp. simpl in Hp. lia.
  - rewrite !walk_app, IH.
    destruct (decide (qs ++ [k] `prefix_of` q ++ [a])) as [Hp | Hnp].
    + apply prefix_snoc_inv in Hp as [Hp | Heq].
      * by rewrite decide_True by done.
      * apply app_inj_tail in Heq as [-> ->].
        rewrite decide_False by apply prefix_snoc_not.
        rewrite Es. simpl. by rewrite Hs, get_pop, String.eqb_refl.
    + assert (~ qs ++ [k] `prefix_of` q) as Hnq.
      { intros Hp. apply Hnp. by apply prefix_app_r. }
      rewrite decide_False by done.
      destruct (walk h (_root t) q) as [m|] eqn:Em; simpl; [|done].
      enough (OrderedDict.get a (_children (deref h' m))
              = OrderedDict.get a (_children (deref h m))) as -> by done.
      destruct (decide (m = s)) as [->|Hms].
      * assert (q = qs) as -> by (eapply walk_inj; eauto).
        rewrite Hs, get_pop. destruct (String.eqb_spec k a) as [->|]; [|done].
        by destruct Hnp.
      * destruct (decide (_children (deref h' m) = _children (deref h m)))
          as [->|Hd]; [done|].
        destruct (Hother m Hms Hd) as [r Er].
        assert (q = qs ++ k :: r) as -> by (eapply walk_inj; eauto).
        destruct Hnq. exists r. by rewrite <- app_assoc.
Qed.

Lemma pop_nil_length k c d :
  NoDup (OrderedDict.keys d) -> OrderedDict.get k d = Some c ->
  OrderedDict.pop k d = [] -> length d = 1.
Proof.
  destruct d as [|[k1 v1] d]; simpl; [done|].
  intros [Hk1 _]%NoDup_cons. destruct (String.eqb_spec k1 k) as [->|]; [|done].
  intros _. destruct d as [|[k2 v2] d]; simpl; [done|].
  destruct (String.eqb_spec k2 k) as [->|]; [|done].
  destruct Hk1. simpl. apply list_elem_of_here.
Qed.

Lemma has_children_false h x :
  PathNode.has_children h x = false -> _children (deref h x) = [].
Proof.
  unfold PathNode.has_children, PathNode.children_count.
  destruct (_children (deref h x)); [done | simpl; discriminate].
Qed.

(** The second loop of [prune], started at the node at [qs] after its
    child [k] was unlinked: it stops at a node [s] on the way up, at or
    below [lim], which is the root, or [lim], or still has children; the
    nodes it unlinked on the way each had one child only; and the outcome
    is the unlinking of one child of [s]. *)
Lemma prune_unlink_spec h t lim ls :
  wf_tree h t -> walk h (_root t) ls = Some lim ->
  forall qs k h1 p c fuel,
    walk h (_root t) qs = Some p ->
    OrderedDict.get k (_children (deref h p)) = Some c ->
    unlinked h h1 (_root t) qs k ->
    same_nodes h h1 ->
    ls `prefix_of` qs ->
    length qs < fuel ->
    exists h' s qs0 k0 mid,
      PathTree.prune_unlink fuel h1 lim p = Ok (h', s)
      /\ qs ++ [k] = qs0 ++ k0 :: mid
      /\ walk h (_root t) qs0 = Some s
      /\ ls `prefix_of` qs0
      /\ unlinked h h' (_root t) qs0 k0
      /\ same_nodes h h'
      /\ (qs0 = [] \/ qs0 = ls \/ PathNode.has_children h' s = true)
      /\ (forall r1 a r2,
             mid = r1 ++ a :: r2 ->
             exists x, walk h (_root t) (qs0 ++ k0 :: r1) = Some x
                       /\ x <> lim /\ PathNode.children_count h x = 1).
Proof.
  intros Hwf El.
  induction qs as [|a qs IH] using rev_ind;
    intros k h1 p c fuel Ep Ek Hun Hsame Hpre Hfuel;
    (destruct fuel as [|fuel]; [lia|]); simpl.
  all: assert (PathNode.is_root_node h1 p = PathNode.is_root_node h p) as ->
      by (unfold PathNode.is_root_node, PathNode.parent;
          by rewrite (proj2 (proj2 Hsame p))).
  all: destruct (negb (PathNode.is_root_node h p) && negb (bool_decide (p = lim))
                 && negb (PathNode.has_children h1 p)) eqn:Hcond.
  (* the loop stops: both for the root and for a deeper node *)
  2: exists h1, p, [], k, [].
  4: exists h1, p, (qs ++ [a]), k, [].
  2, 4: split; [done|]; split; [done|]; split; [done|]; split; [done|];
    split; [done|]; split; [done|]; split;
    [| by intros [|? ?] ? ? ?];
    apply andb_false_iff in Hcond as [[Hc|Hc]%andb_false_iff|Hc];
    apply negb_false_iff in Hc;
    [ left; by eapply walk_is_root
    | right; left; apply bool_decide_eq_true in Hc; subst p;
      eapply walk_inj; eauto
    | right; right; done ].
  - (* not the root, though reached by the empty path *)
    apply andb_prop in Hcond as [[Hc _]%andb_prop _].
    apply negb_true_iff in Hc.
    by rewrite (proj2 (walk_is_root h t [] p Hwf Ep)) in Hc.
  - apply andb_prop in Hcond as [[_ Hlim]%andb_prop Hch].
    apply negb_true_iff in Hlim, Hch. apply bool_decide_eq_false in Hlim.
    destruct (walk_snoc_parent _ _ _ _ _ (proj1 Hwf) Ep)
      as (m & Em & Ea & Hp & Hn & Hlt).
    assert (PathNode.parent h1 p = Some m) as ->.
    { unfold PathNode.parent in *. by rewrite (proj2 (proj2 Hsame p)). }
    assert (PathNode.name h1 p = a) as ->.
    { unfold PathNode.name in *. by rewrite (proj1 (proj2 Hsame p)). }
    pose proof (walk_lt h _ _ _ (proj1 Hwf) (wf_tree_root h t Hwf) Em) as Hm.
    pose proof (walk_lt h _ _ _ (proj1 Hwf) (wf_tree_root h t Hwf) Ep) as Hp'.
    destruct Hun as (s & Es & Hs & Hother).
    assert (s = p) as -> by congruence.
    (* the children of the parent are still those of [h] *)
    assert (_children (deref h1 m) = _children (deref h m)) as Hsame_m.
    { destruct (decide (_children (deref h1 m) = _children (deref h m)))
        as [|Hd]; [done|].
      destruct (Hother m ltac:(lia) Hd) as [r Er].
      pose proof (walk_inj h t _ _ _ Hwf Em Er) as Eq.
      apply (f_equal length) in Eq. rewrite !length_app in Eq. simpl in Eq. lia. }
    rewrite remove_child_spec
      by (apply has_child_true; rewrite Hsame_m; eauto).
    rewrite bind_Ok. cbv beta iota. rewrite Hsame_m.
    set (h2 := set_children h1 m (OrderedDict.pop a (_children (deref h m)))).
    (* the node left behind had [k] as its only child *)
    assert (PathNode.children_count h p = 1) as Hone.
    { unfold PathNode.children_count.
      destruct (lookup_lt_is_Some_2 h p Hp') as [nd End].
      rewrite (deref_Some _ _ _ End) in *.
      destruct (proj1 Hwf p nd End) as [Hnd _].
      eapply pop_nil_length; [done | exact Ek |].
      rewrite <- Hs. by apply has_children_false. }
    destruct (IH a h2 m p fuel Em Ea) as (h' & s & qs0 & k0 & mid & E & Eq & Es0
                                          & Hpre0 & Hun0 & Hsame0 & Hstop & Hmid).
    + exists m. split; [done|]. split.
      * unfold h2. rewrite deref_set_children_eq; [done|].
        rewrite (proj1 Hsame). done.
      * intros x Hx Hd. unfold h2 in Hd. rewrite deref_set_children_ne in Hd by done.
        destruct (decide (x = p)) as [->|Hxp].
        -- by exists [].
        -- destruct (Hother x Hxp Hd) as [r Er]. exists (k :: r).
           by rewrite <- app_assoc in Er.
    + split; [unfold h2; rewrite length_set_children; apply Hsame|].
      intros x. unfold h2. rewrite name_set_children, parent_set_children.
      apply Hsame.
    + apply prefix_snoc_inv in Hpre as [Hpre | ->]; [done|].
      destruct Hlim. congruence.
    + rewrite length_app in Hfuel. simpl in Hfuel. lia.
    + exists h', s, qs0, k0, (mid ++ [k]). split; [done|].
      split; [by rewrite Eq, <- app_assoc|].
      split; [done|]. split; [done|]. split; [done|]. split; [done|].
      split; [done|].
      intros r1 b r2 Emid. destruct r2 as [|b' r2 _] using rev_ind.
      * apply app_inj_tail in Emid as [-> ->].
        exists p. split; [by rewrite <- Eq|]. done.
      * rewrite app_comm_cons, app_assoc in Emid.
        apply app_inj_tail in Emid as [-> _]. by eapply Hmid.
Qed.

End PruneLoop.

Section PruneTheorem.

Implicit Types (h : store) (t : PathTree) (n m c s x : ref) (k a : string)
  (ps qs ls : list string).

Lemma descendant_Ok_walk h t path node :
  PathTree.descendant h t path = Ok node ->
  walk h (_root t) (Pathlib.parts path) = Some node.
Proof.
  unfold PathTree.descendant, PathNode.descendant. rewrite descendant_loop_walk.
  by destruct (walk h (_root t) (Pathlib.parts path)); intros [= ->].
Qed.

(** What [prune] does to a well-formed tree in which both paths are
    present. *)
Lemma prune_spec h t path limit_path node lim :
  wf_tree h t ->
  PathTree.descendant h t path = Ok node ->
  PathTree.descendant h t limit_path = Ok lim ->
  (~ proper_ancestor h lim node ->
   PathTree.prune h t path limit_path = Raise LimitNotSubpath
   /\ kind_of LimitNotSubpath = InvalidArgumentError)
  /\ (proper_ancestor h lim node ->
      exists h' s qs k rest,
        PathTree.prune h t path limit_path = Ok (h', s)
        /\ Pathlib.parts path = qs ++ k :: rest
        /\ walk h (_root t) qs = Some s
        /\ Pathlib.parts limit_path `prefix_of` qs
        /\ (s = _root t \/ s = lim \/ PathNode.has_children h' s = true)
        /\ (forall r1 a r2,
               rest = r1 ++ a :: r2 ->
               exists x, walk h (_root t) (qs ++ k :: r1) = Some x
                         /\ x <> lim /\ PathNode.children_count h x = 1)
        /\ (forall p,
               PathTree.has_descendant h' t p
               = if decide (qs ++ [k] `prefix_of` Pathlib.parts p)
                 then Ok false else PathTree.has_descendant h t p)
        /\ (forall q,
               walk h' (_root t) q
               = if decide (qs ++ [k] `prefix_of` q) then None
                 else walk h (_root t) q)
        /\ wf_tree h' t).
Proof.
  intros Hwf Hnode Hlim.
  pose proof (descendant_Ok_walk _ _ _ _ Hnode) as Ep.
  pose proof (descendant_Ok_walk _ _ _ _ Hlim) as El.
  set (ps := Pathlib.parts path) in *. set (ls := Pathlib.parts limit_path) in *.
  pose proof (walk_lt h _ _ _ (proj1 Hwf) (wf_tree_root h t Hwf) Ep) as Hnode_lt.
  pose proof (walk_le h _ _ _ (proj1 Hwf) Ep) as Hlen.
  destruct (prune_climb_spec h t lim ps Hwf node (length h) Ep ltac:(lia))
    as (cur & Ecur & Hcur).
  pose proof (proper_ancestor_prefix h t ls ps lim node Hwf El Ep) as Hanc.
  assert ((exists qs rest, rest <> [] /\ ps = qs ++ rest
                           /\ walk h (_root t) qs = Some lim)
          <-> proper_ancestor h lim node) as Hiff.
  { rewrite Hanc. split.
    - intros (qs & rest & Hne & -> & Eq). exists rest. split; [done|].
      by rewrite (walk_inj h t _ _ _ Hwf Eq El).
    - intros (rest & Hne & ->). by exists ls, rest. }
  rewrite Hiff in Hcur.
  unfold PathTree.prune. rewrite Hnode, bind_Ok, Hlim, bind_Ok, Ecur, bind_Ok.
  split.
  - intros Hnot. by rewrite (proj2 Hcur Hnot).
  - intros Hyes.
    destruct (PathNode.parent h cur) as [pc|] eqn:Epc.
    2: { destruct (proj1 Hcur eq_refl Hyes). }
    destruct (proj1 Hanc Hyes) as (rest & Hrest & Eps).
    destruct rest as [|k rest' _] using rev_ind; [done|].
    rewrite app_assoc in Eps. rewrite Eps in Ep.
    destruct (walk_snoc_parent _ _ _ _ _ (proj1 Hwf) Ep)
      as (m & Em & Ek & Hp & Hn & Hlt).
    rewrite Hp, Hn.
    rewrite remove_child_spec by (apply has_child_true; eauto).
    rewrite bind_Ok. cbv beta iota.
    set (h1 := set_children h m (OrderedDict.pop k (_children (deref h m)))).
    pose proof (walk_lt h _ _ _ (proj1 Hwf) (wf_tree_root h t Hwf) Em) as Hm.
    destruct (prune_unlink_spec h t lim ls Hwf El (ls ++ rest') k h1 m node (length h)
                Em Ek)
      as (h' & s & qs0 & k0 & mid & E & Eq & Es0 & Hpre0 & Hun0 & Hsame0 & Hstop & Hmid).
    + exists m. split; [done|]. split.
      * unfold h1. by rewrite deref_set_children_eq.
      * intros x Hx Hd. unfold h1 in Hd. by rewrite deref_set_children_ne in Hd.
    + split; [apply length_set_children|].
      intros x. unfold h1. by rewrite name_set_children, parent_set_children.
    + by exists rest'.
    + pose proof (walk_le h _ _ _ (proj1 Hwf) Em). lia.
    + pose proof (walk_after_unlink h h' t qs0 k0 Hwf Hun0) as Hwalk.
      exists h', s, qs0, k0, mid. split; [done|].
      split; [by rewrite Eps|]. split; [done|]. split; [done|].
      split.
      { destruct Hstop as [-> | [-> | ?]]; [|right; left; congruence | tauto].
        left. simpl in Es0. congruence. }
      split; [done|]. split; [|split; [done|]].
      * intros p. unfold PathTree.has_descendant, PathNode.has_descendant.
        rewrite !has_descendant_loop_walk, Hwalk.
        by destruct (decide (qs0 ++ [k0] `prefix_of` Pathlib.parts p)).
      * eapply (prune_wf h t path limit_path h' s Hwf).
        unfold PathTree.prune.
        rewrite Hnode, bind_Ok, Hlim, bind_Ok, Ecur, bind_Ok, Epc, Hp, Hn.
        rewrite remove_child_spec by (apply has_child_true; eauto).
        rewrite bind_Ok. exact E.
Qed.

(** C5.  In a well-formed tree, with [node] at [path] and [lim] at
    [limit_path]: when [lim] is not a proper ancestor of [node], [prune]
    fails with the error of its limit check; when it is, [prune] returns
    an ancestor [s] of [node], at or below [lim], which is the root, or
    [lim], or a node that still has children; every ancestor between [s]
    and [node] had [node]'s branch as its only child and is not [lim]; and
    the tree left is the old one without the child of [s] on that branch
    and all that was below it, [node] included. *)
Theorem prune_removes_childless_ancestors h t path limit_path node lim :
  wf_tree h t ->
  PathTree.descendant h t path = Ok node ->
  PathTree.descendant h t limit_path = Ok lim ->
  (~ proper_ancestor h lim node ->
   PathTree.prune h t path limit_path = Raise LimitNotSubpath
   /\ kind_of LimitNotSubpath = InvalidArgumentError)
  /\ (proper_ancestor h lim node ->
      exists h' s qs k rest,
        PathTree.prune h t path limit_path = Ok (h', s)
        /\ Pathlib.parts path = qs ++ k :: rest
        /\ walk h (_root t) qs = Some s
        /\ Pathlib.parts limit_path `prefix_of` qs
        /\ (s = _root t \/ s = lim \/ PathNode.has_children h' s = true)
        /\ (forall r1 a r2,
               rest = r1 ++ a :: r2 ->
               exists x, walk h (_root t) (qs ++ k :: r1) = Some x
                         /\ x <> lim /\ PathNode.children_count h x = 1)
        /\ (forall p,
               PathTree.has_descendant h' t p
               = if decide (qs ++ [k] `prefix_of` Pathlib.parts p)
                 then Ok false else PathTree.has_descendant h t p)
        /\ (forall q,
               walk h' (_root t) q
               = if decide (qs ++ [k] `prefix_of` q) then None
                 else walk h (_root t) q)
        /\ wf_tree h' t).
Proof. apply prune_spec. Qed.


Lemma prune_removes_childless_ancestors_witness :
  let r := tree_of ["Assets/a/b/c"; "Assets/a/e"] in
  (PathTree.prune (store_of r) (tree_in r) (Path "Assets/a/b") (Path "Assets/a/e")
   = Raise LimitNotSubpath
   /\ kind_of LimitNotSubpath = InvalidArgumentError)
  /\ exists h' s qs k rest,
      PathTree.prune (store_of r) (tree_in r) (Path "Assets/a/b/c") (Path "Assets")
      = Ok (h', s)
      /\ Pathlib.parts (Path "Assets/a/b/c") = qs ++ k :: rest
      /\ walk (store_of r) 0 qs = Some s
      /\ Pathlib.parts (Path "Assets") `prefix_of` qs
      /\ (s = 0 \/ s = 1 \/ PathNode.has_children h' s = true)
      /\ (forall r1 a r2,
             rest = r1 ++ a :: r2 ->
             exists x, walk (store_of r) 0 (qs ++ k :: r1) = Some x
                       /\ x <> 1 /\ PathNode.children_count (store_of r) x = 1)
      /\ (forall p,
             PathTree.has_descendant h' (tree_in r) p
             = if decide (qs ++ [k] `prefix_of` Pathlib.parts p)
               then Ok false else PathTree.has_descendant (store_of r) (tree_in r) p)
      /\ (forall q,
             walk h' 0 q
             = if decide (qs ++ [k] `prefix_of` q) then None
               else walk (store_of r) 0 q)
      /\ wf_tree h' (tree_in r).
Proof.
  pose proof (tree_of_wf ["Assets/a/b/c"; "Assets/a/e"] _ _ eq_refl) as Hwf.
  split.
  - apply (proj1 (prune_removes_childless_ancestors _ _
                    (Path "Assets/a/b") (Path "Assets/a/e") 3 5 Hwf eq_refl eq_refl)).
    intros (rest & Hne & E).
    apply (walk_le _ _ _ _ (proj1 Hwf)) in E. lia.
  - apply (proj2 (prune_removes_childless_ancestors _ _
                    (Path "Assets/a/b/c") (Path "Assets") 4 1 Hwf eq_refl eq_refl)).
    by exists ["a"; "b"; "c"].
Defined.

End PruneTheorem.

(** ** The checker returns on the states git reports *)

Section Totality.

Import Pathlib UnityGitRepository Checker.

Implicit Types (h : store) (t : PathTree) (r : Repository) (p q : PurePath)
  (n m c s x : ref) (k a b : string) (ps qs : list string).

Lemma add_loop_total h n ps :
  wf_store h -> n < length h -> Forall valid_segment ps ->
  exists h' m, PathTree.add_loop h n ps = Ok (h', m).
Proof.
  intros Hwf Hn Hps. revert h n Hwf Hn.
  induction Hps as [|k ps Hk _ IH]; intros h n Hwf Hn; simpl; [eauto|].
  destruct (PathNode.has_child h n k) eqn:Hc.
  - apply has_child_true in Hc as [c E]. rewrite (child_get _ _ _ _ E), bind_Ok.
    destruct (wf_get h n k c Hwf E) as (_ & Hlt & _). by apply IH.
  - assert (PathNode.add_child h n k
            = Ok (set_children (h ++ [mkNode k (Some n) []]) n
                    (_children (deref h n) ++ [(k, length h)]), length h)) as E.
    { apply add_child_spec; try done.
      - by rewrite (parse_segment k Hk).
      - apply Hk. }
    rewrite E, bind_Ok. apply IH.
    + by eapply add_child_wf.
    + rewrite (add_child_length _ _ _ _ _ E). lia.
Qed.

Lemma add_loop_walk_mono h n ps h' m x qs y :
  PathTree.add_loop h n ps = Ok (h', m) ->
  walk h x qs = Some y -> walk h' x qs = Some y.
Proof.
  intros Hadd. revert x; induction qs as [|k qs IH]; intros x; simpl; [done|].
  destruct (OrderedDict.get k (_children (deref h x))) as [c|] eqn:E; [|done].
  rewrite (add_loop_mono _ _ _ _ _ _ _ _ Hadd E). apply IH.
Qed.

(** [add] of a valid relative path succeeds; the path is in the tree
    afterwards, and so is every path that was. *)
Lemma add_total h t p :
  wf_tree h t -> valid p -> is_absolute p = false ->
  exists h' n,
    PathTree.add h t p = Ok (h', n)
    /\ wf_tree h' t /\ present h' t p
    /\ forall q, present h t q -> present h' t q.
Proof.
  intros Hwf [_ Hsegs] Hrel.
  assert (parts p = segs p) as Hparts.
  { unfold parts. unfold is_absolute in Hrel. apply negb_false_iff in Hrel.
    by rewrite Hrel. }
  destruct (add_loop_total h (_root t) (parts p) (proj1 Hwf) (wf_tree_root h t Hwf))
    as (h' & n & E); [by rewrite Hparts|].
  exists h', n. rewrite add_relative by done. split; [done|].
  assert (PathTree.add h t p = Ok (h', n)) as E' by by rewrite add_relative.
  split; [by eapply add_wf|]. split.
  - unfold present.
    by rewrite (add_loop_walk _ _ _ _ _ (proj1 Hwf) (wf_tree_root h t Hwf) E).
  - intros q [y Ey]. exists y. by eapply add_loop_walk_mono.
Qed.

(** Two lists of which neither is a prefix of the other part ways
    somewhere. *)
Lemma diverge (l1 l2 : list string) :
  ~ l1 `prefix_of` l2 -> ~ l2 `prefix_of` l1 ->
  exists (pre : list string) a (u1 : list string) b (u2 : list string),
    l1 = pre ++ a :: u1 /\ l2 = pre ++ b :: u2 /\ a <> b.
Proof.
  revert l2; induction l1 as [|a l1 IH]; intros l2 H12 H21.
  - destruct H12. apply prefix_nil.
  - destruct l2 as [|b l2]; [destruct H21; apply prefix_nil|].
    destruct (decide (a = b)) as [->|Hne].
    + destruct (IH l2) as (c & a' & r1 & b' & r2 & -> & -> & Hab).
      * intros H. apply H12. by apply prefix_cons.
      * intros H. apply H21. by apply prefix_cons.
      * by exists (b :: c), a', r1, b', r2.
    + by exists [], a, l1, b, l2.
Qed.

Lemma walk_through h n pre a rest y :
  walk h n (pre ++ a :: rest) = Some y ->
  exists x c, walk h n pre = Some x
              /\ OrderedDict.get a (_children (deref h x)) = Some c.
Proof.
  rewrite walk_app. destruct (walk h n pre) as [x|]; simpl; [|done].
  destruct (OrderedDict.get a (_children (deref h x))) as [c|] eqn:E; [|done].
  eauto.
Qed.

Lemma two_children_not_one a b c1 c2 (d : list (string * nat)) :
  a <> b -> OrderedDict.get a d = Some c1 -> OrderedDict.get b d = Some c2 ->
  length d <> 1.
Proof.
  intros Hab Ea Eb Hlen. destruct d as [|[k1 v1] [|? ?]]; try done. simpl in *.
  destruct (String.eqb_spec k1 a), (String.eqb_spec k1 b); congruence.
Qed.

(** [prune] of a present path inside [Assets], bounded at [Assets],
    succeeds, and keeps every present path that neither extends the pruned
    path nor is extended by it. *)
Lemma prune_total h t p :
  wf_tree h t -> present h t p -> under_assets p ->
  exists h' s,
    PathTree.prune h t p (parse "Assets") = Ok (h', s)
    /\ wf_tree h' t
    /\ forall q, present h t q ->
                 ~ parts p `prefix_of` parts q -> ~ parts q `prefix_of` parts p ->
                 present h' t q.
Proof.
  intros Hwf [node Ep] (x0 & rest0 & Eparts).
  assert (exists lim, walk h (_root t) ["Assets"] = Some lim) as [lim El].
  { rewrite Eparts in Ep. change ("Assets" :: x0 :: rest0)
      with (["Assets"] ++ x0 :: rest0) in Ep.
    rewrite walk_app in Ep. destruct (walk h (_root t) ["Assets"]); [eauto | done]. }
  assert (PathTree.descendant h t p = Ok node) as Hnode.
  { unfold PathTree.descendant, PathNode.descendant.
    by rewrite descendant_loop_walk, Ep. }
  assert (PathTree.descendant h t (parse "Assets") = Ok lim) as Hlim.
  { unfold PathTree.descendant, PathNode.descendant.
    rewrite descendant_loop_walk.
    change (parts (parse "Assets")) with ["Assets"]. by rewrite El. }
  assert (proper_ancestor h lim node) as Hanc.
  { exists (x0 :: rest0). split; [done|].
    rewrite Eparts in Ep. change ("Assets" :: x0 :: rest0)
      with (["Assets"] ++ x0 :: rest0) in Ep.
    by rewrite walk_app, El in Ep. }
  destruct (proj2 (prune_spec h t p (parse "Assets") node lim Hwf Hnode Hlim) Hanc)
    as (h' & s & qs & k & rest & E & Eqs & _ & _ & _ & Hone & _ & Hwalk & Hwf').
  exists h', s. split; [done|]. split; [done|].
  intros q [y Eq] Hpq Hqp. unfold present. rewrite Hwalk.
  destruct (decide (qs ++ [k] `prefix_of` parts q)) as [[rq Erq]|]; [|eauto].
  exfalso. rewrite <- app_assoc in Erq. simpl in Erq.
  destruct (diverge rest rq) as (c & a & r1 & b & r2 & Er & Erq' & Hab).
  { intros H. apply Hpq. rewrite Eqs, Erq. by apply prefix_app, prefix_cons. }
  { intros H. apply Hqp. rewrite Eqs, Erq. by apply prefix_app, prefix_cons. }
  destruct (Hone c a r1 Er) as (x & Ex & _ & Hcount).
  rewrite Eqs, Er in Ep. rewrite Erq, Erq' in Eq.
  replace (qs ++ k :: c ++ a :: r1) with ((qs ++ k :: c) ++ a :: r1) in Ep
    by (by rewrite <- app_assoc).
  replace (qs ++ k :: c ++ b :: r2) with ((qs ++ k :: c) ++ b :: r2) in Eq
    by (by rewrite <- app_assoc).
  destruct (walk_through _ _ _ _ _ _ Ep) as (x1 & c1 & Ex1 & Ea).
  destruct (walk_through _ _ _ _ _ _ Eq) as (x2 & c2 & Ex2 & Eb).
  assert (x1 = x) as -> by congruence. assert (x2 = x) as -> by congruence.
  by eapply (two_children_not_one a b c1 c2).
Qed.

End Totality.

Section StagedTotality.

Import Pathlib UnityGitRepository Checker.

Implicit Types (h : store) (t : PathTree) (r : Repository) (p q : PurePath).

Lemma elem_of_bfilter {A} (f : A -> bool) (l : list A) (x : A) :
  x ∈ List.filter f l <-> x ∈ l /\ f x = true.
Proof. rewrite !list_elem_of_In. apply filter_In. Qed.

Lemma Forall_bfilter {A} (P : A -> Prop) (f : A -> bool) (l : list A) :
  Forall P l -> Forall P (List.filter f l).
Proof.
  rewrite !Forall_forall. intros H x [Hx _]%elem_of_bfilter. auto.
Qed.

Lemma add_all_total h t paths :
  wf_tree h t ->
  Forall valid paths -> Forall (fun p => is_absolute p = false) paths ->
  exists h',
    PathTree.add_all h t paths = Ok h'
    /\ wf_tree h' t /\ Forall (present h' t) paths.
Proof.
  intros Hwf Hv. revert h Hwf.
  induction Hv as [|p paths Hp _ IH]; intros h Hwf Hrel; simpl; [eauto|].
  apply Forall_cons in Hrel as [Hrp Hrel].
  destruct (add_total h t p Hwf Hp Hrp) as (h1 & n & E & Hwf1 & Hpres & _).
  rewrite E, bind_Ok. cbv beta iota.
  destruct (IH h1 Hwf1 Hrel) as (h' & E' & Hwf' & Hall).
  exists h'. split; [done|]. split; [done|]. constructor; [|done].
  (* the path added first is kept by the later additions *)
  clear -E' Hpres Hwf1 Hrel. revert h1 E' Hpres Hwf1.
  induction paths as [|q paths IHp]; intros h1 E' Hpres Hwf1; simpl in E'.
  - by injection E' as <-.
  - destruct (PathTree.add h1 t q) as [[h2 n]| |] eqn:Eq; simpl in E'; try done.
    apply Forall_cons in Hrel as [Hrq Hrel].
    eapply (IHp Hrel h2); [done | | by eapply add_wf].
    destruct Hpres as [y Ey]. exists y.
    rewrite add_relative in Eq by done. by eapply add_loop_walk_mono.
Qed.

Section Loops.

Variable t : PathTree.
Variable tracked : list PurePath.
Hypothesis tracked_files :
  forall p q, p ∈ tracked -> q ∈ tracked -> parts p `prefix_of` parts q -> p = q.
Hypothesis tracked_under_assets : Forall under_assets tracked.

(** One pruning step: the pruned path goes, the other pending paths
    stay. *)
Lemma prune_pending h p pend :
  wf_tree h t ->
  NoDup (p :: pend) -> Forall (fun q => q ∈ tracked) (p :: pend) ->
  Forall (present h t) (p :: pend) ->
  exists h' s,
    PathTree.prune h t p (parse "Assets") = Ok (h', s)
    /\ wf_tree h' t /\ Forall (present h' t) pend.
Proof.
  intros Hwf [Hp Hnd]%NoDup_cons [Hpt Hpendt]%Forall_cons [Hpp Hpendp]%Forall_cons.
  rewrite Forall_forall in tracked_under_assets.
  destruct (prune_total h t p Hwf Hpp (tracked_under_assets p Hpt))
    as (h' & s & E & Hwf' & Hkeep).
  exists h', s. split; [done|]. split; [done|].
  rewrite Forall_forall in *. intros q Hq.
  apply Hkeep; [auto | |].
  - intros Hpre. apply Hp. by rewrite (tracked_files p q Hpt (Hpendt q Hq) Hpre).
  - intros Hpre. apply Hp. by rewrite <- (tracked_files q p (Hpendt q Hq) Hpt Hpre).
Qed.

Lemma staged_D_total paths :
  forall h pend,
    wf_tree h t ->
    NoDup (List.filter (fun p => negb (is_hidden p)) paths ++ pend) ->
    Forall (fun q => q ∈ tracked)
      (List.filter (fun p => negb (is_hidden p)) paths ++ pend) ->
    Forall (present h t) (List.filter (fun p => negb (is_hidden p)) paths ++ pend) ->
    exists h', staged_D t h paths = Ok h' /\ wf_tree h' t /\ Forall (present h' t) pend.
Proof.
  induction paths as [|p paths IH]; intros h pend Hwf Hnd Ht Hp; simpl in *; [eauto|].
  destruct (is_hidden p); simpl in *; [by apply IH|].
  destruct (prune_pending h p _ Hwf Hnd Ht Hp) as (h1 & s & E & Hwf1 & Hp1).
  rewrite E, bind_Ok. cbv beta iota.
  apply NoDup_cons in Hnd as [_ Hnd]. apply Forall_cons in Ht as [_ Ht].
  by apply IH.
Qed.

Lemma staged_A_total paths :
  forall h pend,
    wf_tree h t ->
    Forall valid paths -> Forall (fun p => is_absolute p = false) paths ->
    Forall (present h t) pend ->
    exists h', staged_A t h paths = Ok h' /\ wf_tree h' t /\ Forall (present h' t) pend.
Proof.
  induction paths as [|p paths IH]; intros h pend Hwf Hv Hr Hp; simpl; [eauto|].
  apply Forall_cons in Hv as [Hvp Hv]. apply Forall_cons in Hr as [Hrp Hr].
  destruct (is_hidden p); simpl; [by apply IH|].
  destruct (add_total h t p Hwf Hvp Hrp) as (h1 & n & E & Hwf1 & _ & Hkeep).
  rewrite E, bind_Ok. cbv beta iota. apply IH; try done.
  eapply Forall_impl; [exact Hp | exact Hkeep].
Qed.

Lemma staged_R_total paths :
  forall h pend,
    wf_tree h t ->
    Forall (fun on => valid (fst on) /\ valid (snd on)) paths ->
    Forall (fun on => is_absolute (fst on) = false /\ is_absolute (snd on) = false)
      paths ->
    NoDup (List.filter (fun p => negb (is_hidden p)) (map fst paths) ++ pend) ->
    Forall (fun q => q ∈ tracked)
      (List.filter (fun p => negb (is_hidden p)) (map fst paths) ++ pend) ->
    Forall (present h t)
      (List.filter (fun p => negb (is_hidden p)) (map fst paths) ++ pend) ->
    exists h', staged_R t h paths = Ok h' /\ wf_tree h' t /\ Forall (present h' t) pend.
Proof.
  induction paths as [|[old new] paths IH]; intros h pend Hwf Hv Hr Hnd Ht Hp;
    simpl in *; [eauto|].
  apply Forall_cons in Hv as [[_ Hvn] Hv]. apply Forall_cons in Hr as [[_ Hrn] Hr].
  simpl in Hvn, Hrn. unfold staged_rename.
  (* the old side *)
  assert (exists h1,
    (if negb (is_hidden old)
     then '(h', _) ← PathTree.prune h t old (parse "Assets"); Ok h'
     else Ok h) = Ok h1
    /\ wf_tree h1 t
    /\ NoDup (List.filter (fun p => negb (is_hidden p)) (map fst paths) ++ pend)
    /\ Forall (fun q => q ∈ tracked)
         (List.filter (fun p => negb (is_hidden p)) (map fst paths) ++ pend)
    /\ Forall (present h1 t)
         (List.filter (fun p => negb (is_hidden p)) (map fst paths) ++ pend))
    as (h1 & -> & Hwf1 & Hnd1 & Ht1 & Hp1).
  { destruct (is_hidden old); simpl in *; [by exists h|].
    destruct (prune_pending h old _ Hwf Hnd Ht Hp) as (h1 & s & E & Hwf1 & Hp1).
    exists h1. rewrite E. split; [done|]. split; [done|].
    apply NoDup_cons in Hnd as [_ Hnd]. apply Forall_cons in Ht as [_ Ht]. done. }
  rewrite bind_Ok.
  (* the new side *)
  destruct (is_hidden new); simpl.
  - rewrite ?bind_Ok. by apply IH.
  - destruct (add_total h1 t new Hwf1 Hvn Hrn) as (h2 & n & E & Hwf2 & _ & Hkeep).
    rewrite E. simpl. apply IH; try done.
    eapply Forall_impl; [exact Hp1 | exact Hkeep].
Qed.

Lemma apply_staged_total changes :
  forall h,
    wf_tree h t ->
    Forall valid_entry changes -> Forall relative_entry changes ->
    NoDup (pruned_paths changes) ->
    Forall (fun q => q ∈ tracked) (pruned_paths changes) ->
    Forall (present h t) (pruned_paths changes) ->
    exists h', apply_staged t h changes = Ok h' /\ wf_tree h' t.
Proof.
  induction changes as [|e changes IH]; intros h Hwf Hv Hr Hnd Ht Hp; simpl in *;
    [eauto|].
  apply Forall_cons in Hv as [Hve Hv]. apply Forall_cons in Hr as [Hre Hr].
  destruct e as [paths|paths|paths]; simpl in *.
  - destruct (staged_A_total paths h _ Hwf Hve Hre Hp) as (h1 & -> & Hwf1 & Hp1).
    rewrite bind_Ok. by apply IH.
  - destruct (staged_D_total paths h _ Hwf Hnd Ht Hp) as (h1 & -> & Hwf1 & Hp1).
    rewrite bind_Ok. apply NoDup_app in Hnd as (_ & _ & Hnd).
    apply Forall_app in Ht as [_ Ht]. by apply IH.
  - destruct (staged_R_total paths h _ Hwf Hve Hre Hnd Ht Hp) as (h1 & -> & Hwf1 & Hp1).
    rewrite bind_Ok. apply NoDup_app in Hnd as (_ & _ & Hnd).
    apply Forall_app in Ht as [_ Ht]. by apply IH.
Qed.

End Loops.

Lemma pruned_paths_not_hidden changes :
  Forall (fun p => is_hidden p = false) (pruned_paths changes).
Proof.
  induction changes as [|[paths|paths|paths] changes IH]; simpl; try done.
  - apply Forall_app. split; [|done]. apply Forall_forall.
    by intros p [_ ?%negb_true_iff]%elem_of_bfilter.
  - apply Forall_app. split; [|done]. apply Forall_forall.
    by intros p [_ ?%negb_true_iff]%elem_of_bfilter.
Qed.

Lemma from_iterable_nil paths rp :
  PathTree.from_iterable [] paths rp
  = h ← PathTree.add_all [mkNode "." None []] (mkTree rp 0) paths;
    Ok (h, mkTree rp 0).
Proof. reflexivity. Qed.

(** On a state as git reports it, the checker builds its tree. *)
Lemma build_total r :
  consistent_repository r -> exists h t, build r = Ok (h, t).
Proof.
  intros ([Hv Hve] & Hrel & Hre & Hunder & Hfiles & Hnd & Hin).
  unfold build. rewrite from_iterable_nil.
  set (t0 := mkTree (root r) 0).
  assert (wf_tree [mkNode "." None []] t0) as Hwf0.
  { split; [apply (wf_store_alloc [] "." None wf_store_nil)|].
    by exists (mkNode "." None []). }
  destruct (add_all_total [mkNode "." None []] t0
              (List.filter (fun p => negb (is_hidden p)) (tracked_at r "Assets/")) Hwf0)
    as (h1 & -> & Hwf1 & Hp1); [by apply Forall_bfilter | by apply Forall_bfilter |].
  rewrite !bind_Ok. cbv beta iota.
  destruct (apply_staged_total t0 (tracked_at r "Assets/") Hfiles Hunder
              (staged_at r "Assets/") h1 Hwf1 Hve Hre Hnd Hin) as (h2 & -> & _).
  - pose proof (pruned_paths_not_hidden (staged_at r "Assets/")) as Hnh.
    rewrite Forall_forall in *. intros p Hp. apply Hp1, elem_of_bfilter.
    split; [auto|]. by rewrite (Hnh p Hp).
  - rewrite bind_Ok. eauto.
Qed.

End StagedTotality.

(** ** The checker, end to end *)

Section CheckerEndToEnd.

Import Pathlib UnityGitRepository Checker.

Implicit Types (h : store) (t : PathTree) (r : Repository) (p x : PurePath).

(** C1.  On every repository state as git reports it the tree of the
    proposed state gets built; and whenever it gets built, the checker
    returns, for every budget that lets [all_paths] finish, a triple
    [(success, missing, orphans)] in which [missing] holds exactly the
    companion paths of the enumerated paths that exist and are asset paths
    and whose companion is not a file, [orphans] holds exactly the
    enumerated paths that are files and metadata-file paths and whose asset
    path does not exist, and [success] is true exactly when both are empty.
    With [Assets/a] the only tracked path, nothing staged, [Assets/a] in
    the working tree and no [Assets/a.meta] there, the result is
    [(False, {Assets/a.meta}, {})]. *)
Theorem check_reports_missing_and_orphans :
  (forall r, consistent_repository r -> exists h t, build r = Ok (h, t))
  /\ (forall r h t,
      build r = Ok (h, t) ->
      exists paths success missing orphans,
        (forall fuel,
            S (S (weight h (_root t))) <= fuel ->
            PathTree.all_paths fuel h t = Ok paths
            /\ check_unity_meta_files fuel r = Ok (success, missing, orphans))
        /\ (forall x, x ∈ missing <-> is_missing r paths x)
        /\ (forall x, x ∈ orphans <-> is_orphan r paths x)
        /\ (success = true <-> missing = [] /\ orphans = []))
  /\ (forall r fuel,
      tracked_at r "Assets/" = [Path "Assets/a"] ->
      staged_at r "Assets/" = [] ->
      path_exists r (Path "Assets/a") = true ->
      is_file r (Path "Assets/a.meta") = false ->
      5 <= fuel ->
      check_unity_meta_files fuel r = Ok (false, [Path "Assets/a.meta"], [])).
Proof.
  split; [exact build_total|]. split; [exact (proj1 check_spec)|].
  exact (proj2 check_spec).
Qed.

(** A state with a deletion and a rename is consistent. *)
Lemma consistent_delete_then_rename : consistent_repository repo_delete_then_rename.
Proof.
  split; [|split; [|split; [|split; [|split; [|split]]]]]; simpl.
  - split; simpl.
    + repeat (apply Forall_cons; split; [apply parse_valid|]). apply Forall_nil_2.
    + repeat (apply Forall_cons; split;
                [simpl; repeat (apply Forall_cons; split;
                                  [first [apply parse_valid
                                         | split; apply parse_valid]|]);
                 apply Forall_nil_2|]).
      apply Forall_nil_2.
  - repeat (apply Forall_cons; split; [reflexivity|]). apply Forall_nil_2.
  - repeat (apply Forall_cons; split;
              [simpl; repeat (apply Forall_cons; split;
                                [first [reflexivity | split; reflexivity]|]);
               apply Forall_nil_2|]).
    apply Forall_nil_2.
  - repeat (apply Forall_cons; split; [by eexists _, _|]). apply Forall_nil_2.
  - intros p q Hp Hq Hpre.
    repeat (apply elem_of_cons in Hp as [-> | Hp]); [| | |by apply elem_of_nil in Hp];
      (repeat (apply elem_of_cons in Hq as [-> | Hq]);
         [| | |by apply elem_of_nil in Hq]);
      try reflexivity; destruct Hpre as [u Eu]; discriminate Eu.
  - apply NoDup_cons. split.
    + intros [=]%list_elem_of_singleton.
    + apply NoDup_singleton.
  - repeat (apply Forall_cons; split;
              [repeat first [apply list_elem_of_here | apply list_elem_of_further]|]).
    apply Forall_nil_2.
Qed.

Lemma check_reports_missing_and_orphans_witness :
  (exists h t, build repo_delete_then_rename = Ok (h, t))
  /\ (exists paths success missing orphans,
      (forall fuel,
          S (S (weight (store_of (build repo_missing_meta)) 0)) <= fuel ->
          PathTree.all_paths fuel (store_of (build repo_missing_meta))
            (tree_in (build repo_missing_meta)) = Ok paths
          /\ check_unity_meta_files fuel repo_missing_meta
             = Ok (success, missing, orphans))
      /\ (forall x, x ∈ missing <-> is_missing repo_missing_meta paths x)
      /\ (forall x, x ∈ orphans <-> is_orphan repo_missing_meta paths x)
      /\ (success = true <-> missing = [] /\ orphans = []))
  /\ check_unity_meta_files 5 repo_missing_meta
     = Ok (false, [Path "Assets/a.meta"], []).
Proof.
  destruct check_reports_missing_and_orphans as (Htotal & Hspec & Hscenario).
  split; [|split].
  - apply Htotal, consistent_delete_then_rename.
  - apply (Hspec repo_missing_meta
             (store_of (build repo_missing_meta)) (tree_in (build repo_missing_meta))).
    reflexivity.
  - apply (Hscenario repo_missing_meta 5); (reflexivity || lia).
Defined.

End CheckerEndToEnd.

(** ** The repository's own tests, run on the embedding *)

Section Tests.

Import UnityGitRepository Checker.

(** [test_breadth_first_traversal] *)
Example breadth_first_1 :
  traversal_names PathTree.traverse_breadth_first ["a"] = Ok ["."; "a"].
Proof. reflexivity. Qed.

Example breadth_first_2 :
  traversal_names PathTree.traverse_breadth_first ["a/b"; "a/c"]
  = Ok ["."; "a"; "b"; "c"].
Proof. reflexivity. Qed.

Example breadth_first_3 :
  traversal_names PathTree.traverse_breadth_first ["a/b/c"; "a/b/d"; "a/e/f"]
  = Ok ["."; "a"; "b"; "e"; "c"; "d"; "f"].
Proof. reflexivity. Qed.

(** [test_depth_first_traversal] *)
Example depth_first_1 :
  traversal_names PathTree.traverse_depth_first ["a"] = Ok ["."; "a"].
Proof. reflexivity. Qed.

Example depth_first_2 :
  traversal_names PathTree.traverse_depth_first ["a/b"; "a/c"]
  = Ok ["."; "a"; "c"; "b"].
Proof. reflexivity. Qed.

Example depth_first_3 :
  traversal_names PathTree.traverse_depth_first ["a/b/c"; "a/b/d"; "a/e/f"]
  = Ok ["."; "a"; "e"; "f"; "b"; "d"; "c"].
Proof. reflexivity. Qed.

(** [test_all_paths] *)
Example all_paths_3 :
  all_paths_of ["a/b/c"; "a/b/d"; "a/e/f"]
  = Ok (map Path ["."; "a"; "a/b"; "a/e"; "a/b/c"; "a/b/d"; "a/e/f"]).
Proof. reflexivity. Qed.

(** [test_removing_at_root_clears_the_tree] *)
Example remove_root_clears :
  ('(h, t) ← tree_of ["a/b"; "a/c"; "d"];
   '(h', _) ← PathTree.remove h t (Path ".");
   PathTree.children h' t (Path ".")) = Ok [].
Proof. reflexivity. Qed.

(** [test_is_meta_file], [test_non_assets], [test_hidden_file] *)
Example classification_samples :
  is_asset (Path "Assets/dir/file") = true
  /\ is_asset (Path "Assets") = false
  /\ is_asset (Path "Assets/.hiddendir/file") = false
  /\ is_asset (Path "Assets/file.meta") = false
  /\ is_meta_file (Path "Assets/dir/file.meta") = true
  /\ is_meta_file (Path "file.meta") = false
  /\ is_meta_file (Path "Assets/.dir/file.meta") = false
  /\ is_hidden (Path "dir/.hiddendir/file") = true.
Proof. repeat split. Qed.

(** [test_proposed_removes_empty_parents] *)
Example proposed_removes_empty_parents :
  has (proposed repo_remove_nested) "Assets/a/b/c" = Ok false
  /\ has (proposed repo_remove_nested) "Assets/a/b" = Ok false
  /\ has (proposed repo_remove_nested) "Assets" = Ok true
  /\ has (proposed repo_remove_nested) "Assets/a" = Ok true
  /\ has (proposed repo_remove_nested) "Assets/a/e" = Ok true.
Proof. repeat split. Qed.

(** The checker on the same state: the directory [Assets/a] and the file
    [Assets/a/e] are in the working tree without their companions. *)
Example check_after_nested_removal :
  check_unity_meta_files 10 repo_remove_nested
  = Ok (false, [Path "Assets/a.meta"; Path "Assets/a/e.meta"], []).
Proof. reflexivity. Qed.

End Tests.

(** ** Breadth-first traversal *)

Section BreadthFirst.

Implicit Types (h : store) (n c : ref) (d fuel : nat) (ns acc : list ref).

Lemma bfs_loop_push h fuel n q :
  PathTree.bfs_loop (S fuel) h (n :: q) =
  rest ← PathTree.bfs_loop fuel h (q ++ PathNode.children h n); Ok (n :: rest).
Proof.
  simpl. rewrite children_count_length.
  destruct (PathNode.children h n) as [|c cs] eqn:E; simpl; [|done].
  by rewrite app_nil_r.
Qed.

(** The loop hands out what is in the deque and queues the children
    behind what was queued already. *)
Lemma bfs_loop_level h ns :
  forall acc fuel,
    PathTree.bfs_loop (length ns + fuel) h (ns ++ acc) =
    rest ← PathTree.bfs_loop fuel h (acc ++ flat_map (PathNode.children h) ns);
    Ok (ns ++ rest).
Proof.
  induction ns as [|n ns IH]; intros acc fuel.
  - simpl. rewrite app_nil_r. by destruct (PathTree.bfs_loop fuel h acc).
  - cbn [length Nat.add app flat_map]. rewrite bfs_loop_push.
    rewrite <- app_assoc, IH. rewrite <- app_assoc.
    by destruct (PathTree.bfs_loop fuel h _).
Qed.

Lemma level_order_nil d h : level_order d h [] = [].
Proof. induction d as [|d IH]; simpl; [done | exact IH]. Qed.

Lemma flat_map_children_dangling h ns :
  (forall n, n ∈ ns -> length h <= n) -> flat_map (PathNode.children h) ns = [].
Proof.
  induction ns as [|n ns IH]; intros H; simpl; [done|].
  rewrite children_dangling by (apply H, list_elem_of_here).
  apply IH. intros m Hm. apply H. by apply list_elem_of_further.
Qed.

Lemma elem_of_flat_map_children h ns c :
  c ∈ flat_map (PathNode.children h) ns ->
  exists n, n ∈ ns /\ c ∈ PathNode.children h n.
Proof.
  rewrite list_elem_of_In, in_flat_map. intros (n & Hn & Hc).
  exists n. by rewrite !list_elem_of_In.
Qed.

(** Beyond the number of objects the bound on the levels makes no
    difference. *)
Lemma level_order_stable h :
  wf_store h ->
  forall d d' ns,
    (forall n, n ∈ ns -> length h <= n + d) -> d <= d' ->
    level_order d h ns = level_order d' h ns.
Proof.
  intros Hwf. induction d as [|d IH]; intros d' ns Hns Hle.
  - destruct d' as [|d']; [done|]. simpl.
    rewrite flat_map_children_dangling, level_order_nil, app_nil_r; [done|].
    intros n Hn. specialize (Hns n Hn). lia.
  - destruct d' as [|d']; [lia|]. simpl. f_equal. apply IH; [|lia].
    intros c (n & Hn & Hc)%elem_of_flat_map_children.
    destruct (wf_children_gt h n c Hwf Hc). specialize (Hns n Hn). lia.
Qed.

Lemma level_order_unfold h ns :
  wf_store h ->
  level_order (length h) h ns
  = ns ++ level_order (length h) h (flat_map (PathNode.children h) ns).
Proof.
  intros Hwf. destruct (length h) as [|N] eqn:E.
  - simpl. rewrite flat_map_children_dangling; [by rewrite app_nil_r|]. lia.
  - transitivity (ns ++ level_order N h (flat_map (PathNode.children h) ns));
      [done|]. f_equal. apply level_order_stable; [done | | lia].
    intros c (n & Hn & Hc)%elem_of_flat_map_children.
    destruct (wf_children_gt h n c Hwf Hc). lia.
Qed.

Lemma bfs_loop_levels h :
  wf_store h ->
  forall d ns fuel,
    (forall n, n ∈ ns -> length h <= n + d) ->
    PathTree.bfs_loop (length (level_order d h ns) + S fuel) h ns
    = Ok (level_order d h ns).
Proof.
  intros Hwf. induction d as [|d IH]; intros ns fuel Hns.
  - cbn [level_order].
    pose proof (bfs_loop_level h ns [] (S fuel)) as E.
    rewrite app_nil_r in E. rewrite E.
    rewrite flat_map_children_dangling; [simpl; by rewrite app_nil_r|].
    intros n Hn. specialize (Hns n Hn). lia.
  - cbn [level_order]. rewrite length_app, <- Nat.add_assoc.
    pose proof (bfs_loop_level h ns [] (length (level_order d h
                  (flat_map (PathNode.children h) ns)) + S fuel)) as E.
    rewrite app_nil_r in E. rewrite E. simpl. rewrite IH; [done|].
    intros c (n & Hn & Hc)%elem_of_flat_map_children.
    destruct (wf_children_gt h n c Hwf Hc). specialize (Hns n Hn). lia.
Qed.

(** X1.  On a well-formed store [traverse_breadth_first] stops and yields
    the nodes level by level: the root, then its children in insertion
    order, then the children of those, first those of the first child. *)
Theorem breadth_first_is_level_order h t :
  wf_store h ->
  (forall ns,
      level_order (length h) h ns
      = ns ++ level_order (length h) h (flat_map (PathNode.children h) ns))
  /\ forall fuel,
      length (level_order (length h) h [_root t]) < fuel ->
      PathTree.traverse_breadth_first fuel h t
      = Ok (level_order (length h) h [_root t]).
Proof.
  intros Hwf. split; [intros ns; by apply level_order_unfold|].
  intros fuel Hfuel. unfold PathTree.traverse_breadth_first.
  replace fuel
    with (length (level_order (length h) h [_root t])
          + S (fuel - length (level_order (length h) h [_root t]) - 1)) by lia.
  apply bfs_loop_levels; [done|]. intros n Hn. lia.
Qed.

Lemma breadth_first_is_level_order_witness :
  let r := tree_of ["a/b/c"; "a/b/d"; "a/e/f"] in
  PathTree.traverse_breadth_first 8 (store_of r) (tree_in r)
  = Ok [0; 1; 2; 5; 3; 4; 6].
Proof.
  apply (proj2 (breadth_first_is_level_order
                  (store_of (tree_of ["a/b/c"; "a/b/d"; "a/e/f"]))
                  (tree_in (tree_of ["a/b/c"; "a/b/d"; "a/e/f"]))
                  (proj1 (tree_of_wf ["a/b/c"; "a/b/d"; "a/e/f"] _ _ eq_refl))) 8).
  simpl. lia.
Defined.

End BreadthFirst.

(** ** Assets and metadata files *)

Section Companions.

Import Pathlib UnityGitRepository.

Implicit Types (p a m : PurePath).

(** What the two classifiers test first: more than one part, the first of
    them [Assets]. *)
Lemma inside_assets_shape p :
  valid p ->
  (1 <? length (parts p))%nat && bool_decide (parts p !! 0 = Some "Assets") = true ->
  root_of p = "" /\ exists x rest, segs p = "Assets" :: x :: rest.
Proof.
  intros [Hroot _] [Hlen Hhd]%andb_prop.
  apply Nat.ltb_lt in Hlen. apply bool_decide_eq_true in Hhd.
  unfold parts in *.
  destruct Hroot as [E | [E | E]]; rewrite E in *; simpl in *;
    [|by injection Hhd..].
  split; [done|]. destruct (segs p) as [|s [|x rest]]; simpl in *; [lia..|].
  injection Hhd as ->. eauto.
Qed.

Lemma existsb_removelast (f : string -> bool) (l : list string) :
  existsb f l = false -> existsb f (removelast l) = false.
Proof.
  induction l as [|x [|y l] IH]; [done..|].
  intros [Hx Hl]%orb_false_elim. cbn [removelast existsb].
  rewrite Hx. simpl. by apply IH.
Qed.

Lemma str_startswith_app_nonempty c n s :
  n <> "" -> Str.startswith c (n +:+ s) = Str.startswith c n.
Proof. destruct n; [done|]. intros _. by rewrite str_app_cons. Qed.

Lemma existsb_last (f : string -> bool) (l : list string) :
  l <> [] -> existsb f l = false -> f (List.last l "") = false.
Proof.
  intros Hne H. rewrite (app_removelast_last "" Hne), existsb_app in H.
  apply orb_false_elim in H as [_ H]. simpl in H. by rewrite orb_false_r in H.
Qed.

Lemma companion_spec a :
  valid a -> is_asset a = true ->
  exists m,
    meta_file_for_asset a = Ok m
    /\ is_meta_file m = true
    /\ is_asset m = false
    /\ is_hidden m = false
    /\ parent m = parent a
    /\ asset_for_meta_file m = Ok a.
Proof.
  intros Hv Ha.
  destruct (is_asset_name a Hv Ha) as (Hne & Hsl & Hsfx & Hh).
  assert ((1 <? length (parts a))%nat
          && bool_decide (parts a !! 0 = Some "Assets") = true) as Hin.
  { unfold is_asset in Ha.
    by destruct ((1 <? length (parts a))%nat
                 && bool_decide (parts a !! 0 = Some "Assets")). }
  destruct (inside_assets_shape a Hv Hin) as (Hroot & x & rest & Hsegs).
  exists (mkPath (root_of a) (removelast (segs a) ++ [name a +:+ ".meta"])).
  split; [by apply meta_file_for_asset_Ok|].
  set (m := mkPath _ _).
  assert (segs a <> []) as Hsne by (by rewrite Hsegs).
  assert (parts m = "Assets" :: removelast (x :: rest) ++ [name a +:+ ".meta"])
    as Hparts.
  { unfold parts, m. rewrite Hroot. simpl. by rewrite Hsegs. }
  assert (is_hidden m = false) as Hhm.
  { unfold is_hidden in *. unfold parts in Hh. rewrite Hroot in Hh. simpl in Hh.
    unfold parts, m. rewrite Hroot. simpl. rewrite existsb_app.
    rewrite (existsb_removelast _ _ Hh). simpl. rewrite orb_false_r.
    rewrite str_startswith_app_nonempty by done.
    by apply existsb_last. }
  assert (suffix m = ".meta") as Hsm by (by apply suffix_of_meta).
  assert (is_meta_file m = true) as Hm.
  { unfold is_meta_file. rewrite Hhm, Hsm, Hparts.
    assert ((1 <? length ("Assets" :: removelast (x :: rest)
                                      ++ [name a +:+ ".meta"]))%nat = true) as ->.
    { apply Nat.ltb_lt. rewrite length_cons, length_app. simpl. lia. }
    by rewrite bool_decide_eq_true_2. }
  split; [exact Hm|]. split.
  { apply not_true_is_false. intros E%asset_not_meta. congruence. }
  split; [exact Hhm|]. split.
  { unfold parent, m. simpl. by rewrite removelast_last. }
  unfold asset_for_meta_file. rewrite Hsm. simpl.
  unfold m. rewrite with_suffix_strip_meta by done.
  destruct a as [r l]. simpl in *. unfold name. simpl.
  by rewrite <- (app_removelast_last "" Hsne).
Qed.

(** X2.  The companion of an asset path is classified as a metadata file
    and not as an asset, sits in the same directory, is not hidden, and
    leads back to the asset. *)
Theorem asset_companion_is_metadata_file a :
  valid a -> is_asset a = true ->
  exists m,
    meta_file_for_asset a = Ok m
    /\ is_meta_file m = true
    /\ is_asset m = false
    /\ is_hidden m = false
    /\ parent m = parent a
    /\ asset_for_meta_file m = Ok a.
Proof. apply companion_spec. Qed.

Lemma asset_companion_is_metadata_file_witness :
  exists m,
    meta_file_for_asset (Path "Assets/Models/ship.fbx") = Ok m
    /\ is_meta_file m = true
    /\ is_asset m = false
    /\ is_hidden m = false
    /\ parent m = parent (Path "Assets/Models/ship.fbx")
    /\ asset_for_meta_file m = Ok (Path "Assets/Models/ship.fbx").
Proof.
  apply (asset_companion_is_metadata_file (Path "Assets/Models/ship.fbx")).
  - split; [by left | repeat constructor; done].
  - reflexivity.
Defined.


Lemma NoDup_set_add (x : PurePath) (s : list PurePath) :
  NoDup s -> NoDup (set_add x s).
Proof.
  intros H. unfold set_add. destruct (bool_decide (x ∈ s)) eqn:E; [done|].
  apply bool_decide_eq_false in E. apply NoDup_app. split; [done|].
  split; [|apply NoDup_singleton].
  intros y Hy ->%list_elem_of_singleton. by apply E.
Qed.

Lemma classify_path_NoDup (r : Repository) p (m0 o0 m o : list PurePath) :
  NoDup m0 -> NoDup o0 ->
  Checker.classify_path r (m0, o0) p = Ok (m, o) -> NoDup m /\ NoDup o.
Proof.
  intros Hm Ho. unfold Checker.classify_path.
  destruct (is_asset p && path_exists r p).
  - destruct (meta_file_for_asset p) as [x| |]; simpl; [|done..].
    destruct (negb (is_file r x)); intros [= <- <-]; [|done].
    split; [by apply NoDup_set_add | done].
  - destruct (is_meta_file p && is_file r p); [|by intros [= <- <-]].
    destruct (asset_for_meta_file p) as [x| |]; simpl; [|done..].
    destruct (negb (path_exists r x)); intros [= <- <-]; [|done].
    split; [done | by apply NoDup_set_add].
Qed.

Lemma classify_NoDup (r : Repository) paths :
  forall m0 o0 m' o' : list PurePath,
    NoDup m0 -> NoDup o0 ->
    Checker.classify r (m0, o0) paths = Ok (m', o') -> NoDup m' /\ NoDup o'.
Proof.
  induction paths as [|p paths IH]; intros m0 o0 m' o' Hm Ho.
  - by intros [= <- <-].
  - rewrite classify_cons.
    destruct (Checker.classify_path r (m0, o0) p) as [[m1 o1]| |] eqn:E; [|done..].
    rewrite bind_Ok. destruct (classify_path_NoDup r p m0 o0 m1 o1 Hm Ho E).
    by apply IH.
Qed.

(** X3.  Whatever the checker reports is a metadata-file path: the paths
    in [missing] are not files of the working tree, those in [orphans]
    are, so no path is reported twice or in both sets; and the verdict is
    [True] exactly when both sets are empty. *)
Theorem report_holds_metadata_paths (r : Repository) (fuel : nat) (success : bool)
    (missing orphans : list PurePath) :
  Checker.check_unity_meta_files fuel r = Ok (success, missing, orphans) ->
  Forall (fun x => is_meta_file x = true /\ is_file r x = false) missing
  /\ Forall (fun x => is_meta_file x = true /\ is_file r x = true) orphans
  /\ (forall x, x ∈ missing -> x ∉ orphans)
  /\ NoDup missing /\ NoDup orphans
  /\ (success = true <-> missing = [] /\ orphans = []).
Proof.
  unfold Checker.check_unity_meta_files.
  destruct (Checker.build r) as [[h t]| |] eqn:Hbuild; [|done..].
  rewrite bind_Ok. cbv beta iota.
  destruct (PathTree.all_paths fuel h t) as [paths| |] eqn:Hpaths; [|done..].
  rewrite bind_Ok.
  assert (Forall valid paths) as Hvalid.
  { eapply all_paths_loop_valid; [|exact Hpaths].
    repeat constructor; done. }
  destruct (classify_spec r paths Hvalid [] []) as (m & o & E & Hm & Ho).
  rewrite E, bind_Ok. cbv beta iota. intros [= <- <- <-].
  destruct (classify_NoDup r paths [] [] m o) as [Hnm Hno];
    [apply NoDup_nil_2.. | exact E |].
  assert (forall x, x ∈ m -> is_meta_file x = true /\ is_file r x = false) as Hm'.
  { intros x [Hx | (p & Hp & Ha & _ & Hc & Hf)]%Hm; [by apply elem_of_nil in Hx|].
    rewrite Forall_forall in Hvalid.
    destruct (companion_spec p (Hvalid p Hp) Ha) as (x' & Hc' & Hx' & _).
    rewrite Hc in Hc'. injection Hc' as <-. done. }
  assert (forall x, x ∈ o -> is_meta_file x = true /\ is_file r x = true) as Ho'.
  { intros x [Hx | (_ & Hx & Hf & _)]%Ho; [by apply elem_of_nil in Hx | done]. }
  split; [by apply Forall_forall|]. split; [by apply Forall_forall|].
  split; [|split; [done|split; [done|]]].
  - intros x [_ H1]%Hm' [_ H2]%Ho'. congruence.
  - rewrite Nat.eqb_eq. destruct m, o; simpl; split; try done; try lia.
    all: by intros [? ?].
Qed.

Lemma report_holds_metadata_paths_witness :
  Forall (fun x => is_meta_file x = true /\ is_file repo_missing_meta x = false)
    [Path "Assets/a.meta"]
  /\ Forall (fun x => is_meta_file x = true /\ is_file repo_missing_meta x = true) []
  /\ (forall x, x ∈ [Path "Assets/a.meta"] -> x ∉ @nil PurePath)
  /\ NoDup [Path "Assets/a.meta"] /\ NoDup (@nil PurePath)
  /\ (false = true <-> [Path "Assets/a.meta"] = [] /\ @nil PurePath = []).
Proof.
  apply (report_holds_metadata_paths repo_missing_meta 5). reflexivity.
Defined.

End Companions.

(** ** [remove] *)

Section Remove.

Import Pathlib.

Implicit Types (h : store) (t : PathTree) (p q : PurePath) (k : string).

(** A path with a final segment is its parent followed by its name. *)
Lemma parts_parent_name p :
  segs p <> [] -> parts p = parts (parent p) ++ [name p].
Proof.
  intros Hne. unfold parts, parent, name. simpl.
  destruct (Str.is_empty (root_of p)); simpl;
    by rewrite <- (app_removelast_last "" Hne).
Qed.

Lemma parts_nil_path_to_root p :
  PathTree.is_path_to_root p = true <-> parts p = [].
Proof.
  unfold PathTree.is_path_to_root. rewrite Nat.eqb_eq.
  by destruct (parts p).
Qed.

Lemma not_path_to_root p : segs p <> [] -> PathTree.is_path_to_root p = false.
Proof.
  intros Hne. apply not_true_iff_false. rewrite parts_nil_path_to_root.
  rewrite (parts_parent_name p Hne). by intros [_ ?]%app_eq_nil.
Qed.

Lemma pop_absent k (d : list (string * nat)) :
  k ∉ OrderedDict.keys d -> OrderedDict.pop k d = d.
Proof.
  induction d as [|[k' v] d IH]; [done|]. simpl. intros Hk.
  apply not_elem_of_cons in Hk as [Hne Hk].
  destruct (String.eqb_spec k' k) as [->|_]; [done|]. by rewrite IH.
Qed.

Lemma length_pop k c (d : list (string * nat)) :
  NoDup (OrderedDict.keys d) -> OrderedDict.get k d = Some c ->
  S (length (OrderedDict.pop k d)) = length d.
Proof.
  induction d as [|[k' v] d IH]; [done|]. simpl.
  intros [Hk' Hd]%NoDup_cons.
  destruct (String.eqb_spec k' k) as [->|_].
  - intros _. by rewrite pop_absent.
  - intros E. simpl. by rewrite IH.
Qed.

Lemma has_descendant_walk h t p :
  PathTree.has_descendant h t p
  = Ok (match walk h (_root t) (parts p) with Some _ => true | None => false end).
Proof. apply has_descendant_loop_walk. Qed.

(** What [remove] does to a path that is in the tree and has a final
    segment. *)
Lemma remove_spec h t p :
  wf_tree h t -> segs p <> [] ->
  PathTree.has_descendant h t p = Ok true ->
  exists par node,
    walk h (_root t) (parts (parent p)) = Some par
    /\ OrderedDict.get (name p) (_children (deref h par)) = Some node
    /\ PathNode.parent h node = Some par /\ PathNode.name h node = name p
    /\ PathTree.remove h t p
       = Ok (set_children h par
               (OrderedDict.pop (name p) (_children (deref h par))), Some par)
    /\ unlinked h (set_children h par
                     (OrderedDict.pop (name p) (_children (deref h par))))
         (_root t) (parts (parent p)) (name p).
Proof.
  intros Hwf Hne. rewrite has_descendant_walk.
  destruct (walk h (_root t) (parts p)) as [node|] eqn:Ep; [intros _ | done].
  rewrite (parts_parent_name p Hne) in Ep.
  destruct (walk_snoc_parent _ _ _ _ _ (proj1 Hwf) Ep)
    as (par & Epar & Ek & Hp & Hn & Hlt).
  pose proof (walk_lt h _ _ _ (proj1 Hwf) (wf_tree_root h t Hwf) Epar) as Hpar.
  exists par, node. do 4 (split; [done|]). split.
  - unfold PathTree.remove. rewrite (not_path_to_root p Hne).
    unfold PathNode.descendant. rewrite descendant_loop_walk, Epar, bind_Ok.
    by rewrite remove_child_spec by (apply has_child_true; eauto).
  - exists par. split; [done|]. split.
    + by rewrite deref_set_children_eq.
    + intros x Hx Hd. by rewrite deref_set_children_ne in Hd.
Qed.

(** X4.  Removing a path that is in the tree unlinks it from its parent
    and returns the parent: afterwards exactly the paths at or below the
    removed one are gone, the parent has one child less, and no node was
    renamed or given another parent. *)
Theorem remove_unlinks_the_subtree h t p :
  wf_tree h t -> segs p <> [] ->
  PathTree.has_descendant h t p = Ok true ->
  exists h' par,
    PathTree.remove h t p = Ok (h', Some par)
    /\ PathTree.descendant h t (parent p) = Ok par
    /\ (forall q,
           PathTree.has_descendant h' t q
           = if decide (parts p `prefix_of` parts q)
             then Ok false else PathTree.has_descendant h t q)
    /\ S (PathNode.children_count h' par) = PathNode.children_count h par
    /\ wf_tree h' t
    /\ same_nodes h h'.
Proof.
  intros Hwf Hne Hin.
  destruct (remove_spec h t p Hwf Hne Hin)
    as (par & node & Epar & Ek & _ & _ & Erem & Hun).
  pose proof (walk_lt h _ _ _ (proj1 Hwf) (wf_tree_root h t Hwf) Epar) as Hpar.
  eexists _, par. split; [exact Erem|]. split.
  { unfold PathTree.descendant, PathNode.descendant.
    by rewrite descendant_loop_walk, Epar. }
  split.
  { intros q. rewrite !has_descendant_walk.
    rewrite (walk_after_unlink h _ t _ _ Hwf Hun).
    rewrite <- (parts_parent_name p Hne).
    by destruct (decide (parts p `prefix_of` parts q)). }
  split.
  { unfold PathNode.children_count. rewrite deref_set_children_eq by done. simpl.
    apply (length_pop _ node); [|done].
    destruct (lookup_lt_is_Some_2 h par Hpar) as [nd End].
    rewrite (deref_Some _ _ _ End). by apply (proj1 Hwf par nd End). }
  split; [by apply (remove_wf h t p _ (Some par))|].
  split; [apply length_set_children|].
  intros x. by rewrite name_set_children, parent_set_children.
Qed.

Lemma remove_unlinks_the_subtree_witness :
  let r := tree_of ["a/b/c"; "a/b/d"; "a/e"] in
  exists h' par,
    PathTree.remove (store_of r) (tree_in r) (Path "a/b") = Ok (h', Some par)
    /\ PathTree.descendant (store_of r) (tree_in r) (parent (Path "a/b")) = Ok par
    /\ (forall q,
           PathTree.has_descendant h' (tree_in r) q
           = if decide (parts (Path "a/b") `prefix_of` parts q)
             then Ok false else PathTree.has_descendant (store_of r) (tree_in r) q)
    /\ S (PathNode.children_count h' par) = PathNode.children_count (store_of r) par
    /\ wf_tree h' (tree_in r)
    /\ same_nodes (store_of r) h'.
Proof.
  apply (remove_unlinks_the_subtree
           (store_of (tree_of ["a/b/c"; "a/b/d"; "a/e"]))
           (tree_in (tree_of ["a/b/c"; "a/b/d"; "a/e"])) (Path "a/b")).
  - by apply (tree_of_wf ["a/b/c"; "a/b/d"; "a/e"]).
  - discriminate.
  - reflexivity.
Defined.

(** X5.  Removing a path that is not in the tree raises and changes
    nothing: the error of [descendant] when already the parent path is
    missing, the error of [remove_child] when only the last segment is;
    both are not-found errors. *)
Theorem remove_of_absent_path_raises h t p :
  segs p <> [] ->
  PathTree.has_descendant h t p = Ok false ->
  exists e,
    PathTree.remove h t p = Raise e
    /\ kind_of e = NotFoundError
    /\ (PathTree.has_descendant h t (parent p) = Ok false -> e = NonExistentPath)
    /\ (PathTree.has_descendant h t (parent p) = Ok true -> e = RemovedMissingChild).
Proof.
  intros Hne. rewrite !has_descendant_walk.
  rewrite (parts_parent_name p Hne) at 1. rewrite walk_app.
  unfold PathTree.remove. rewrite (not_path_to_root p Hne).
  unfold PathNode.descendant. rewrite descendant_loop_walk.
  destruct (walk h (_root t) (parts (parent p))) as [par|] eqn:Epar; simpl.
  - destruct (OrderedDict.get (name p) (_children (deref h par))) as [c|] eqn:Ek;
      [done|]. intros _.
    exists RemovedMissingChild. unfold PathNode.remove_child.
    apply contains_get_None in Ek. rewrite Ek. simpl. done.
  - intros _. by exists NonExistentPath.
Qed.

Lemma remove_of_absent_path_raises_witness :
  let r := tree_of ["a/b/c"] in
  exists e,
    PathTree.remove (store_of r) (tree_in r) (Path "a/x/c") = Raise e
    /\ kind_of e = NotFoundError
    /\ (PathTree.has_descendant (store_of r) (tree_in r) (parent (Path "a/x/c"))
        = Ok false -> e = NonExistentPath)
    /\ (PathTree.has_descendant (store_of r) (tree_in r) (parent (Path "a/x/c"))
        = Ok true -> e = RemovedMissingChild).
Proof.
  apply (remove_of_absent_path_raises
           (store_of (tree_of ["a/b/c"])) (tree_in (tree_of ["a/b/c"]))
           (Path "a/x/c")).
  - discriminate.
  - reflexivity.
Defined.


Lemma walk_after_clear h t qs :
  walk (PathTree.clear h t) (_root t) qs
  = match qs with [] => Some (_root t) | _ => None end.
Proof.
  destruct qs as [|a qs]; [done|]. simpl.
  unfold PathTree.clear, PathNode.clear.
  destruct (Nat.lt_ge_cases (_root t) (length h)) as [Hlt | Hge].
  - by rewrite deref_set_children_eq.
  - rewrite deref_ge; [done|]. by rewrite length_set_children.
Qed.

(** X6.  Removing the path of the root is [clear]: it returns [None] and
    empties the root, so that afterwards no path but the root's own is in
    the tree; the tree stays well-formed. *)
Theorem remove_at_root_clears h t p :
  parts p = [] ->
  PathTree.remove h t p = Ok (PathTree.clear h t, None)
  /\ (forall q,
         PathTree.has_descendant (PathTree.clear h t) t q
         = Ok (bool_decide (parts q = [])))
  /\ PathTree.children_count (PathTree.clear h t) t p = Ok 0
  /\ PathTree.clear (PathTree.clear h t) t = PathTree.clear h t
  /\ (wf_tree h t -> wf_tree (PathTree.clear h t) t).
Proof.
  intros Hp. split.
  { unfold PathTree.remove. by rewrite (proj2 (parts_nil_path_to_root p) Hp). }
  split.
  { intros q. rewrite has_descendant_walk, walk_after_clear.
    by destruct (parts q). }
  split.
  { unfold PathTree.children_count, PathTree._check_path, is_absolute.
    assert (Str.is_empty (root_of p) = true) as ->.
    { unfold parts in Hp. by destruct (Str.is_empty (root_of p)). }
    simpl. unfold PathNode.descendant. rewrite Hp. simpl.
    unfold PathNode.children_count, PathTree.clear, PathNode.clear.
    destruct (Nat.lt_ge_cases (_root t) (length h)) as [Hlt | Hge].
    - by rewrite deref_set_children_eq.
    - rewrite deref_ge; [done|]. by rewrite length_set_children. }
  split; [|apply clear_wf].
  unfold PathTree.clear, PathNode.clear, set_children.
  rewrite list_insert_insert_eq. f_equal. f_equal.
  - apply name_set_children.
  - apply parent_set_children.
Qed.

Lemma remove_at_root_clears_witness :
  let r := tree_of ["a/b"; "c"] in
  PathTree.remove (store_of r) (tree_in r) (Path ".")
  = Ok (PathTree.clear (store_of r) (tree_in r), None)
  /\ (forall q,
         PathTree.has_descendant (PathTree.clear (store_of r) (tree_in r)) (tree_in r) q
         = Ok (bool_decide (parts q = [])))
  /\ PathTree.children_count (PathTree.clear (store_of r) (tree_in r)) (tree_in r)
       (Path ".") = Ok 0
  /\ PathTree.clear (PathTree.clear (store_of r) (tree_in r)) (tree_in r)
     = PathTree.clear (store_of r) (tree_in r)
  /\ (wf_tree (store_of r) (tree_in r)
      -> wf_tree (PathTree.clear (store_of r) (tree_in r)) (tree_in r)).
Proof.
  apply (remove_at_root_clears (store_of (tree_of ["a/b"; "c"]))
           (tree_in (tree_of ["a/b"; "c"])) (Path ".")).
  reflexivity.
Defined.

(** X7.  When the parent of the pruned path is the limit or the root, or
    has another child, [prune] unlinks no ancestor: it leaves the store
    [remove] leaves and returns the parent. *)
Theorem prune_without_childless_parent_is_remove h t p lp par lim :
  wf_tree h t -> segs p <> [] ->
  PathTree.has_descendant h t p = Ok true ->
  PathTree.descendant h t (parent p) = Ok par ->
  PathTree.descendant h t lp = Ok lim ->
  parts lp `prefix_of` parts (parent p) ->
  par = lim \/ par = _root t \/ 1 < PathNode.children_count h par ->
  exists h',
    PathTree.remove h t p = Ok (h', Some par)
    /\ PathTree.prune h t p lp = Ok (h', par).
Proof.
  intros Hwf Hne Hin Hpar Hlim [rest Hpre] Hstop.
  destruct (remove_spec h t p Hwf Hne Hin)
    as (par' & node & Epar & Ek & Hp & Hn & Erem & _).
  pose proof (descendant_Ok_walk _ _ _ _ Hpar) as Epar'.
  assert (par' = par) as -> by congruence.
  pose proof (descendant_Ok_walk _ _ _ _ Hlim) as El.
  assert (walk h (_root t) (parts p) = Some node) as Ep.
  { rewrite (parts_parent_name p Hne). apply walk_snoc. eauto. }
  pose proof (walk_lt h _ _ _ (proj1 Hwf) (wf_tree_root h t Hwf) Ep) as Hnode_lt.
  pose proof (walk_lt h _ _ _ (proj1 Hwf) (wf_tree_root h t Hwf) Epar) as Hpar_lt.
  pose proof (walk_le h _ _ _ (proj1 Hwf) Ep) as Hlen.
  assert (length (parts p) < length h) as Hfuel by lia.
  destruct (prune_climb_spec h t lim (parts p) Hwf node (length h) Ep Hfuel)
    as (cur & Ecur & Hcur).
  eexists. split; [exact Erem|].
  unfold PathTree.prune, PathTree.descendant, PathNode.descendant.
  rewrite (descendant_loop_walk h (_root t) (parts p)), Ep, bind_Ok.
  unfold PathTree.descendant, PathNode.descendant in Hlim. rewrite Hlim, bind_Ok.
  rewrite Ecur, bind_Ok.
  destruct (PathNode.parent h cur) as [pc|] eqn:Epc.
  2: { exfalso. apply (proj1 Hcur eq_refl).
       exists (parts lp), (rest ++ [name p]). split; [by intros [_ ?]%app_eq_nil|].
       split; [|done]. by rewrite (parts_parent_name p Hne), Hpre, <- app_assoc. }
  rewrite Hp, Hn.
  rewrite remove_child_spec by (apply has_child_true; eauto).
  rewrite bind_Ok. cbv beta iota.
  destruct (length h) as [|fuel] eqn:Elen; [lia|].
  cbn [PathTree.prune_unlink].
  set (h1 := set_children h par _).
  assert (negb (PathNode.is_root_node h1 par)
          && negb (bool_decide (par = lim))
          && negb (PathNode.has_children h1 par) = false) as ->; [|done].
  destruct Hstop as [-> | [-> | Hcount]].
  - rewrite bool_decide_eq_true_2 by done. simpl. by rewrite andb_false_r.
  - unfold PathNode.is_root_node, PathNode.parent, h1.
    rewrite parent_set_children.
    pose proof (wf_tree_root_parent h t Hwf) as Hroot.
    unfold PathNode.parent in Hroot. by rewrite Hroot.
  - assert (PathNode.has_children h1 par = true) as ->;
      [|by rewrite andb_false_r].
    unfold PathNode.has_children, PathNode.children_count, h1.
    rewrite deref_set_children_eq by lia. simpl.
    apply Nat.ltb_lt. unfold PathNode.children_count in Hcount.
    assert (S (length (OrderedDict.pop (name p) (_children (deref h par))))
            = length (_children (deref h par))); [|lia].
    apply (length_pop _ node); [|done].
    assert (par < length h) as Hlt by lia.
    destruct (lookup_lt_is_Some_2 h par Hlt) as [nd End].
    rewrite (deref_Some _ _ _ End). by apply (proj1 Hwf par nd End).
Qed.

Lemma prune_without_childless_parent_is_remove_witness :
  let r := tree_of ["Assets/a/b"; "Assets/a/c"] in
  exists h',
    PathTree.remove (store_of r) (tree_in r) (Path "Assets/a/b") = Ok (h', Some 2)
    /\ PathTree.prune (store_of r) (tree_in r) (Path "Assets/a/b") (Path "Assets")
       = Ok (h', 2).
Proof.
  apply (prune_without_childless_parent_is_remove
           (store_of (tree_of ["Assets/a/b"; "Assets/a/c"]))
           (tree_in (tree_of ["Assets/a/b"; "Assets/a/c"]))
           (Path "Assets/a/b") (Path "Assets") 2 1).
  - by apply (tree_of_wf ["Assets/a/b"; "Assets/a/c"]).
  - discriminate.
  - reflexivity.
  - reflexivity.
  - reflexivity.
  - by exists ["a"].
  - right. right. vm_compute. lia.
Defined.

End Remove.

(** ** What [add] and [from_iterable] put into the tree *)

Section AddExactly.

Import Pathlib.

Implicit Types (h : store) (t : PathTree) (p q : PurePath) (n m c : ref)
  (ps qs pre : list string).

(** After [add_child] the only new walk from the root is the one to the
    new child. *)
Lemma add_child_walk_inv h t pre n part h1 c :
  wf_tree h t -> walk h (_root t) pre = Some n ->
  PathNode.add_child h n part = Ok (h1, c) ->
  forall qs y,
    walk h1 (_root t) qs = Some y ->
    walk h (_root t) qs = Some y \/ (qs = pre ++ [part] /\ y = c).
Proof.
  intros Hwf Epre Eadd.
  pose proof (walk_lt h _ _ _ (proj1 Hwf) (wf_tree_root h t Hwf) Epre) as Hn.
  destruct (add_child_Ok _ _ _ _ _ Eadd) as (_ & Hnew & _ & -> & ->).
  rewrite deref_app_l by done. rewrite set_new by exact Hnew.
  set (h1 := set_children _ _ _).
  induction qs as [|k qs IH] using rev_ind; intros y Hy.
  - left. simpl in *. done.
  - apply walk_snoc in Hy as (z & Ez & Eg).
    destruct (IH z Ez) as [Eold | [-> ->]].
    + pose proof (walk_lt h _ _ _ (proj1 Hwf) (wf_tree_root h t Hwf) Eold) as Hz.
      destruct (decide (z = n)) as [-> | Hzn].
      * unfold h1 in Eg. rewrite deref_set_children_eq in Eg
          by (rewrite length_app; simpl; lia).
        simpl in Eg. rewrite get_snoc in Eg.
        destruct (OrderedDict.get k (_children (deref h n))) as [c'|] eqn:Ek.
        -- injection Eg as <-. left. apply walk_snoc. eauto.
        -- destruct (String.eqb_spec part k) as [-> | _]; [|done].
           injection Eg as <-. right. split; [|done].
           by rewrite (walk_inj h t _ _ _ Hwf Eold Epre).
      * unfold h1 in Eg. rewrite deref_set_children_ne, deref_app_l in Eg by done.
        left. apply walk_snoc. eauto.
    + unfold h1 in Eg. rewrite deref_set_children_ne, deref_alloc in Eg by lia.
      done.
Qed.

Lemma add_child_walk_mono h n part h1 c x qs y :
  PathNode.add_child h n part = Ok (h1, c) ->
  walk h x qs = Some y -> walk h1 x qs = Some y.
Proof.
  intros Hadd. revert x; induction qs as [|k qs IH]; intros x; simpl; [done|].
  destruct (OrderedDict.get k (_children (deref h x))) as [c0|] eqn:E; [|done].
  rewrite (add_child_mono _ _ _ _ _ _ _ _ Hadd E). apply IH.
Qed.

(** After the loop of [add] the only new walks from the root lead along
    the added parts. *)
Lemma add_loop_walk_inv t ps :
  forall h pre n h' m,
    wf_tree h t -> walk h (_root t) pre = Some n ->
    PathTree.add_loop h n ps = Ok (h', m) ->
    forall qs y,
      walk h' (_root t) qs = Some y ->
      walk h (_root t) qs = Some y
      \/ exists suf, qs = pre ++ suf /\ suf `prefix_of` ps.
Proof.
  induction ps as [|part rest IH]; intros h pre n h' m Hwf Epre.
  - intros [= <- <-] qs y Hy. by left.
  - pose proof (walk_lt h _ _ _ (proj1 Hwf) (wf_tree_root h t Hwf) Epre) as Hn.
    cbn [PathTree.add_loop].
    destruct (PathNode.has_child h n part) eqn:Hc.
    + apply has_child_true in Hc as [c Ec]. rewrite (child_get _ _ _ _ Ec), bind_Ok.
      intros Hadd qs y Hy.
      destruct (IH h (pre ++ [part]) c h' m Hwf) with (qs := qs) (y := y)
        as [Hold | (suf & -> & Hsuf)]; [by apply walk_snoc; eauto | done..| by left |].
      right. exists (part :: suf). rewrite <- app_assoc. split; [done|].
      by apply prefix_cons.
    + destruct (PathNode.add_child h n part) as [[h1 c]| |] eqn:Eadd; [|done..].
      rewrite bind_Ok. cbv beta iota. intros Hadd qs y Hy.
      assert (wf_tree h1 t) as Hwf1.
      { eapply wf_tree_extends; [done | | by eapply add_child_extends].
        by eapply add_child_wf; [apply Hwf | |]. }
      assert (walk h1 (_root t) (pre ++ [part]) = Some c) as Ec.
      { apply walk_snoc. exists n. split.
        - by eapply add_child_walk_mono.
        - by eapply add_child_get. }
      destruct (IH h1 (pre ++ [part]) c h' m Hwf1 Ec Hadd qs y Hy)
        as [Hold | (suf & -> & Hsuf)].
      * destruct (add_child_walk_inv h t pre n part h1 c Hwf Epre Eadd qs y Hold)
          as [? | [-> ->]]; [by left|].
        right. exists [part]. split; [done|]. apply prefix_cons, prefix_nil.
      * right. exists (part :: suf). rewrite <- app_assoc. split; [done|].
        by apply prefix_cons.
Qed.

Lemma walk_prefix h n qs ps y :
  walk h n ps = Some y -> qs `prefix_of` ps -> is_Some (walk h n qs).
Proof.
  intros E [r ->]. rewrite walk_app in E.
  destruct (walk h n qs) as [z|]; [eauto | done].
Qed.

(** The paths in the tree after [add]: those that were, and the prefixes
    of the added path. *)
Lemma add_walk h t p h' n :
  wf_tree h t -> PathTree.add h t p = Ok (h', n) ->
  forall qs,
    is_Some (walk h' (_root t) qs)
    <-> is_Some (walk h (_root t) qs) \/ qs `prefix_of` parts p.
Proof.
  intros Hwf Hadd qs.
  pose proof (add_Ok_relative _ _ _ _ _ Hadd) as Hrel.
  rewrite add_relative in Hadd by done.
  split.
  - intros [y Hy].
    destruct (add_loop_walk_inv t (parts p) h [] (_root t) h' n Hwf eq_refl Hadd qs y Hy)
      as [? | (suf & -> & ?)]; [left; eauto | by right].
  - intros [[y Hy] | Hpre].
    + exists y. by eapply add_loop_walk_mono.
    + eapply walk_prefix; [|exact Hpre].
      eapply add_loop_walk; [apply Hwf | by apply wf_tree_root | exact Hadd].
Qed.

(** X8.  After a successful [add] the tree holds the paths it held, under
    the same nodes, and the prefixes of the added path; nothing else. *)
Theorem add_makes_the_prefixes_present h t p h' n :
  wf_tree h t -> PathTree.add h t p = Ok (h', n) ->
  (forall q,
      PathTree.has_descendant h' t q
      = (fun b => b || bool_decide (parts q `prefix_of` parts p))
          <$> PathTree.has_descendant h t q)
  /\ (forall q m, PathTree.descendant h t q = Ok m -> PathTree.descendant h' t q = Ok m)
  /\ PathTree.descendant h' t p = Ok n
  /\ length h <= length h' <= length h + length (parts p).
Proof.
  intros Hwf Hadd.
  pose proof (add_walk h t p h' n Hwf Hadd) as Hw.
  pose proof (add_Ok_relative _ _ _ _ _ Hadd) as Hrel.
  pose proof Hadd as Hloop. rewrite add_relative in Hloop by done.
  split; [|split; [|split]].
  - intros q. rewrite !has_descendant_walk. simpl. f_equal.
    specialize (Hw (parts q)).
    destruct (walk h' (_root t) (parts q)) as [y'|] eqn:E';
      destruct (walk h (_root t) (parts q)) as [y|] eqn:E; simpl; try done.
    + symmetry. apply bool_decide_eq_true.
      destruct (proj1 Hw ltac:(eauto)) as [[? ?] | ?]; done.
    + destruct (proj2 Hw ltac:(eauto)) as [? ?]. done.
    + symmetry. apply bool_decide_eq_false. intros Hpre.
      destruct (proj2 Hw (or_intror Hpre)) as [? ?]. done.
  - intros q m Hq. apply descendant_Ok_walk in Hq.
    unfold PathTree.descendant, PathNode.descendant. rewrite descendant_loop_walk.
    by rewrite (add_loop_walk_mono _ _ _ _ _ _ _ _ Hloop Hq).
  - unfold PathTree.descendant, PathNode.descendant. rewrite descendant_loop_walk.
    by rewrite (add_loop_walk _ _ _ _ _ (proj1 Hwf) (wf_tree_root h t Hwf) Hloop).
  - clear Hw Hadd. revert Hloop. generalize (_root t) as r. generalize (parts p) as ps.
    clear. intros ps. revert h.
    induction ps as [|part rest IH]; intros h r; cbn [PathTree.add_loop].
    + intros [= <- <-]. simpl. lia.
    + destruct (PathNode.has_child h r part).
      * destruct (PathNode.child h r part) as [c| |]; [|done..]. rewrite bind_Ok.
        intros E%IH. simpl. lia.
      * destruct (PathNode.add_child h r part) as [[h1 c]| |] eqn:Eadd; [|done..].
        rewrite bind_Ok. cbv beta iota. intros E%IH.
        rewrite (add_child_length _ _ _ _ _ Eadd) in E. simpl. lia.
Qed.

Lemma add_makes_the_prefixes_present_witness :
  let r := tree_of ["a/b"] in
  exists h' n,
    PathTree.add (store_of r) (tree_in r) (Path "a/c/d") = Ok (h', n)
    /\ (forall q,
           PathTree.has_descendant h' (tree_in r) q
           = (fun b => b || bool_decide (parts q `prefix_of` parts (Path "a/c/d")))
               <$> PathTree.has_descendant (store_of r) (tree_in r) q)
    /\ (forall q m, PathTree.descendant (store_of r) (tree_in r) q = Ok m
                    -> PathTree.descendant h' (tree_in r) q = Ok m)
    /\ PathTree.descendant h' (tree_in r) (Path "a/c/d") = Ok n
    /\ length (store_of r) <= length h'
       <= length (store_of r) + length (parts (Path "a/c/d")).
Proof.
  eexists _, _. split; [reflexivity|].
  apply (add_makes_the_prefixes_present
           (store_of (tree_of ["a/b"])) (tree_in (tree_of ["a/b"])) (Path "a/c/d")).
  - by apply (tree_of_wf ["a/b"]).
  - reflexivity.
Defined.


Lemma add_all_walk t paths :
  forall h h',
    wf_tree h t -> PathTree.add_all h t paths = Ok h' ->
    forall qs,
      is_Some (walk h' (_root t) qs)
      <-> is_Some (walk h (_root t) qs)
          \/ Exists (fun p => qs `prefix_of` parts p) paths.
Proof.
  induction paths as [|p paths IH]; intros h h' Hwf; cbn [PathTree.add_all].
  - intros [= <-] qs. rewrite Exists_nil. tauto.
  - destruct (PathTree.add h t p) as [[h1 n]| |] eqn:Eadd; [|done..].
    rewrite bind_Ok. cbv beta iota. intros Hall qs.
    rewrite (IH h1 h' (add_wf _ _ _ _ _ Hwf Eadd) Hall qs).
    rewrite (add_walk h t p h1 n Hwf Eadd qs), Exists_cons. tauto.
Qed.

Lemma add_all_absolute t paths :
  forall h,
    wf_tree h t -> Forall valid paths ->
    Exists (fun p => is_absolute p = true) paths ->
    PathTree.add_all h t paths = Raise NotRelativePath.
Proof.
  induction paths as [|p paths IH]; intros h Hwf Hv Hex.
  - by apply Exists_nil in Hex.
  - apply Forall_cons in Hv as [Hp Hv]. cbn [PathTree.add_all].
    destruct (is_absolute p) eqn:Hrel.
    + unfold PathTree.add, PathTree._check_path. by rewrite Hrel.
    + destruct (add_total h t p Hwf Hp Hrel) as (h1 & n & -> & Hwf1 & _).
      rewrite bind_Ok. cbv beta iota. apply IH; [done..|].
      apply Exists_cons in Hex as [Hex | Hex]; [congruence | done].
Qed.

(** X9.  [from_iterable] builds the prefix closure of the given paths: a
    path is in the new tree exactly when it is the root's or leads along
    one of the given paths.  The tree gets built when the paths are valid
    relative paths; an absolute one among valid paths makes it raise. *)
Theorem from_iterable_builds_the_prefix_closure h0 paths rp :
  wf_store h0 ->
  (Forall valid paths -> Forall (fun p => is_absolute p = false) paths ->
   exists h t, PathTree.from_iterable h0 paths rp = Ok (h, t))
  /\ (Forall valid paths -> Exists (fun p => is_absolute p = true) paths ->
      PathTree.from_iterable h0 paths rp = Raise NotRelativePath)
  /\ forall h t,
      PathTree.from_iterable h0 paths rp = Ok (h, t) ->
      PathTree.rootpath t = rp
      /\ wf_tree h t
      /\ forall q,
          PathTree.has_descendant h t q = Ok true
          <-> parts q = [] \/ Exists (fun p => parts q `prefix_of` parts p) paths.
Proof.
  intros Hwf0.
  assert (PathTree.init h0 rp
          = Ok (h0 ++ [mkNode "." None []], mkTree rp (length h0))) as Einit by done.
  pose proof (init_wf _ _ _ _ Hwf0 Einit) as Hwf1.
  unfold PathTree.from_iterable. rewrite Einit, bind_Ok. cbv beta iota.
  split; [|split].
  - intros Hv Hrel.
    destruct (add_all_total _ _ paths Hwf1 Hv Hrel) as (h2 & -> & _).
    rewrite bind_Ok. eauto.
  - intros Hv Hex. by rewrite (add_all_absolute _ paths _ Hwf1 Hv Hex).
  - intros h t.
    destruct (PathTree.add_all _ _ paths) as [h2| |] eqn:Eall; [|done..].
    rewrite bind_Ok. intros [= <- <-]. split; [done|].
    split; [by eapply add_all_wf|].
    intros q. rewrite has_descendant_walk.
    pose proof (add_all_walk _ paths _ _ Hwf1 Eall (parts q)) as Hw.
    assert (is_Some (walk (h0 ++ [mkNode "." None []]) (length h0) (parts q))
            <-> parts q = []) as Hroot.
    { destruct (parts q) as [|a qs]; simpl.
      - split; [done | eauto].
      - rewrite deref_alloc. simpl. split; [by intros [? ?] | done]. }
    simpl in Hw. rewrite Hroot in Hw. rewrite <- Hw. cbn [_root].
    destruct (walk h2 (length h0) (parts q)) as [y|]; cbv beta iota.
    + split; [intros _; by exists y | done].
    + split; [done | by intros [? ?]].
Qed.

Lemma from_iterable_builds_the_prefix_closure_witness :
  (exists h t,
      PathTree.from_iterable [] [Path "a/b"; Path "c"] (Path "/repo") = Ok (h, t))
  /\ PathTree.from_iterable [] [Path "a/b"; Path "/c"] (Path "/repo")
     = Raise NotRelativePath.
Proof.
  split.
  - apply (proj1 (from_iterable_builds_the_prefix_closure
                    [] [Path "a/b"; Path "c"] (Path "/repo") wf_store_nil)).
    + repeat constructor; done.
    + repeat constructor.
  - apply (proj1 (proj2 (from_iterable_builds_the_prefix_closure
                    [] [Path "a/b"; Path "/c"] (Path "/repo") wf_store_nil))).
    + repeat constructor; (done || by right; left).
    + right. by left.
Defined.

End AddExactly.

(** ** What [all_paths] enumerates *)

Section AllPaths.

Import Pathlib.

Variables (h : store) (t : PathTree).
Hypothesis Hwf : wf_tree h t.
Hypothesis Hkeys : segment_keys h.

Implicit Types (p : PurePath) (bs suf : list string) (b c : ref)
  (q : list (PurePath * list ref)) (ys : list PurePath).

Lemma walk_node bs b :
  walk h (_root t) bs = Some b ->
  exists nd, h !! b = Some nd /\ deref h b = nd
             /\ NoDup (OrderedDict.keys (_children nd))
             /\ Forall valid_segment (OrderedDict.keys (_children nd)).
Proof.
  intros E.
  pose proof (walk_lt h _ _ _ (proj1 Hwf) (wf_tree_root h t Hwf) E) as Hb.
  destruct (lookup_lt_is_Some_2 h b Hb) as [nd End].
  exists nd. split; [done|]. split; [by apply deref_Some|].
  split; [by apply (proj1 Hwf b nd End)|].
  unfold segment_keys in Hkeys. rewrite Forall_forall in Hkeys.
  apply Hkeys. by eapply list_elem_of_lookup_2.
Qed.

(** The paths yielded and the entries appended for the children of the
    node at [bs]. *)
Lemma all_paths_nodes_children bs b :
  walk h (_root t) bs = Some b ->
  PathTree.all_paths_nodes h (mkPath "" bs) (PathNode.children h b)
  = (map (fun e => mkPath "" (bs ++ [fst e])) (_children (deref h b)),
     map (fun e => (mkPath "" (bs ++ [fst e]), PathNode.children h (snd e)))
       (_children (deref h b))).
Proof.
  intros E. destruct (walk_node bs b E) as (nd & End & Hd & Hnd & Hseg).
  rewrite (surjective_pairing (PathTree.all_paths_nodes _ _ _)).
  rewrite all_paths_nodes_fst, all_paths_nodes_snd.
  unfold PathNode.children, OrderedDict.values. rewrite Hd, !map_map.
  assert (forall e, In e (_children nd) ->
            joinpath (mkPath "" bs) (PathNode.name h (snd e))
            = mkPath "" (bs ++ [fst e])) as Hjoin.
  { intros [k c] Hin%list_elem_of_In. simpl.
    destruct (proj2 (proj1 Hwf b nd End) k c Hin) as (_ & ndc & Ec & Hn & _).
    unfold PathNode.name. rewrite (deref_Some _ _ _ Ec), Hn.
    apply joinpath_segment. rewrite Forall_forall in Hseg. apply Hseg.
    by apply (elem_keys k c). }
  f_equal; apply map_ext_in; intros e He; by rewrite Hjoin.
Qed.

Lemma child_entry bs b k c :
  walk h (_root t) bs = Some b -> (k, c) ∈ _children (deref h b) ->
  walk h (_root t) (bs ++ [k]) = Some c.
Proof.
  intros E Hin. apply walk_snoc. exists b. split; [done|].
  apply wf_parent_get; [apply Hwf | | done].
  by eapply walk_lt; [apply Hwf | by apply wf_tree_root | exact E].
Qed.

Lemma entries_of_children bs b :
  walk h (_root t) bs = Some b ->
  Forall (entry_of_tree h t)
    (map (fun e => (mkPath "" (bs ++ [fst e]), PathNode.children h (snd e)))
       (_children (deref h b))).
Proof.
  intros E. apply Forall_forall. intros e (e' & <- & Hin)%list_elem_of_In%in_map_iff.
  destruct e' as [k c]. apply list_elem_of_In in Hin.
  exists (bs ++ [k]), c. split; [done|]. split; [|done].
  by apply (child_entry bs b).
Qed.

(** One round of the loop on an entry of the tree. *)
Lemma all_paths_loop_entry fuel bs b nodes q :
  walk h (_root t) bs = Some b -> nodes = PathNode.children h b ->
  PathTree.all_paths_loop (S fuel) h ((mkPath "" bs, nodes) :: q) =
  rest ← PathTree.all_paths_loop fuel h
           (q ++ map (fun e => (mkPath "" (bs ++ [fst e]),
                                PathNode.children h (snd e)))
                   (_children (deref h b)));
  Ok (map (fun e => mkPath "" (bs ++ [fst e])) (_children (deref h b)) ++ rest).
Proof.
  intros E ->. rewrite all_paths_loop_step.
  by rewrite (all_paths_nodes_children bs b E).
Qed.

(** Whatever the loop yields lies below the path of an entry. *)
Lemma all_paths_loop_sound fuel :
  forall q ys,
    Forall (entry_of_tree h t) q ->
    PathTree.all_paths_loop fuel h q = Ok ys ->
    forall p, p ∈ ys ->
      exists e suf, e ∈ q /\ suf <> []
                    /\ p = mkPath "" (segs (fst e) ++ suf)
                    /\ is_Some (walk h (_root t) (segs (fst e) ++ suf)).
Proof.
  induction fuel as [|fuel IH]; intros q ys Hq; [done|].
  destruct q as [|[base nodes] q]; [intros [= <-] p Hp; by apply elem_of_nil in Hp|].
  apply Forall_cons in Hq as [(bs & b & Hbase & Eb & Hnodes) Hq].
  simpl in Hbase, Hnodes. subst base.
  rewrite (all_paths_loop_entry fuel bs b nodes q Eb Hnodes).
  destruct (PathTree.all_paths_loop fuel h _) as [rest| |] eqn:Erest; [|done..].
  rewrite bind_Ok. intros [= <-] p [Hp | Hp]%elem_of_app.
  - apply list_elem_of_In, in_map_iff in Hp as ([k c] & <- & Hin).
    apply list_elem_of_In in Hin. simpl.
    exists (mkPath "" bs, nodes), [k]. split; [apply list_elem_of_here|].
    split; [done|]. split; [done|]. simpl.
    rewrite (child_entry bs b k c Eb Hin). eauto.
  - assert (Forall (entry_of_tree h t)
              (q ++ map (fun e => (mkPath "" (bs ++ [fst e]),
                                   PathNode.children h (snd e)))
                      (_children (deref h b)))) as Hq'.
    { apply Forall_app. split; [done | by apply entries_of_children]. }
    destruct (IH _ rest Hq' Erest p Hp) as (e & suf & He & Hsuf & -> & Hw).
    apply elem_of_app in He as [He | He].
    + exists e, suf. split; [by apply list_elem_of_further | done].
    + apply list_elem_of_In, in_map_iff in He as ([k c] & <- & Hin). simpl in *.
      exists (mkPath "" bs, nodes), (k :: suf). simpl.
      rewrite <- app_assoc in Hw. rewrite <- app_assoc. simpl in *.
      split; [apply list_elem_of_here|]. done.
Qed.

(** Every path of the tree below the path of an entry gets yielded. *)
Lemma all_paths_loop_complete fuel :
  forall q ys,
    Forall (entry_of_tree h t) q ->
    PathTree.all_paths_loop fuel h q = Ok ys ->
    forall e suf,
      e ∈ q -> suf <> [] ->
      is_Some (walk h (_root t) (segs (fst e) ++ suf)) ->
      mkPath "" (segs (fst e) ++ suf) ∈ ys.
Proof.
  induction fuel as [|fuel IH]; intros q ys Hq; [done|].
  destruct q as [|[base nodes] q]; [intros _ e suf He; by apply elem_of_nil in He|].
  pose proof Hq as Hq0.
  apply Forall_cons in Hq as [(bs & b & Hbase & Eb & Hnodes) Hq].
  simpl in Hbase, Hnodes. subst base.
  rewrite (all_paths_loop_entry fuel bs b nodes q Eb Hnodes).
  destruct (PathTree.all_paths_loop fuel h _) as [rest| |] eqn:Erest; [|done..].
  rewrite bind_Ok. intros [= <-] e suf He Hsuf Hw.
  assert (Forall (entry_of_tree h t)
            (q ++ map (fun e => (mkPath "" (bs ++ [fst e]),
                                 PathNode.children h (snd e)))
                    (_children (deref h b)))) as Hq'.
  { apply Forall_app. split; [done | by apply entries_of_children]. }
  apply elem_of_app.
  apply elem_of_cons in He as [-> | He].
  - simpl in *. destruct suf as [|k suf]; [done|].
    destruct Hw as [y Hy].
    destruct (walk_through _ _ _ _ _ _ Hy) as (x & c & Ex & Ek).
    assert (x = b) as -> by congruence.
    apply get_elem in Ek.
    destruct suf as [|k' suf].
    + left. apply list_elem_of_In, in_map_iff. exists (k, c).
      split; [done | by apply list_elem_of_In].
    + right.
      pose proof (IH _ rest Hq' Erest
                    (mkPath "" (bs ++ [k]), PathNode.children h c) (k' :: suf))
        as Hin.
      simpl in Hin. rewrite <- app_assoc in Hin. apply Hin; [|done|by exists y].
      apply elem_of_app. right. apply list_elem_of_In, in_map_iff.
      exists (k, c). split; [done | by apply list_elem_of_In].
  - right. apply (IH _ rest Hq' Erest e suf); [|done..].
    apply elem_of_app. by left.
Qed.


Lemma NoDup_map_fst_inj {B} (g : string -> B) (d : list (string * nat)) :
  (forall x y, g x = g y -> x = y) ->
  NoDup (OrderedDict.keys d) -> NoDup (map (fun e => g (fst e)) d).
Proof.
  intros Hinj. induction d as [|[k c] d IH]; simpl; [intros _; apply NoDup_nil_2|].
  intros [Hk Hd]%NoDup_cons. apply NoDup_cons. split; [|by apply IH].
  intros ([k' c'] & E & Hin)%list_elem_of_In%in_map_iff. simpl in E.
  apply Hinj in E as ->. apply Hk, list_elem_of_In, in_map_iff.
  by exists (k, c').
Qed.

Lemma snoc_not_self {A} (l : list A) (a : A) : l ++ [a] <> l.
Proof. intros E%(f_equal length). rewrite length_app in E. simpl in E. lia. Qed.

(** The paths on the deque stay pairwise incomparable. *)
Lemma antichain_step bs (B : list (list string)) (d : list (string * nat)) :
  antichain (bs :: B) -> NoDup (OrderedDict.keys d) ->
  antichain (B ++ map (fun e => bs ++ [fst e]) d).
Proof.
  intros [[Hbs HB]%NoDup_cons Hpre] Hd.
  assert (forall x, x ∈ map (fun e => bs ++ [fst e]) d ->
                    exists k, x = bs ++ [k]) as HN.
  { intros x (e & <- & _)%list_elem_of_In%in_map_iff. eauto. }
  assert (forall x, x ∈ B -> bs `prefix_of` x -> False) as Hnot.
  { intros x Hx Hp. apply Hbs.
    rewrite (Hpre bs x); [done | apply list_elem_of_here
                         | by apply list_elem_of_further | done]. }
  split.
  - apply NoDup_app. split; [done|]. split.
    + intros x Hx [k ->]%HN. apply (Hnot _ Hx). by exists [k].
    + apply (NoDup_map_fst_inj (fun k => bs ++ [k])); [|done].
      intros x y E%app_inv_head. by injection E.
  - intros x y [Hx | Hx]%elem_of_app [Hy | Hy]%elem_of_app Hxy.
    + apply Hpre; [by apply list_elem_of_further.. | done].
    + apply HN in Hy as [k ->].
      apply prefix_snoc_inv in Hxy as [Hxy | ->]; [|done].
      exfalso. apply Hbs.
      rewrite <- (Hpre x bs); [done | by apply list_elem_of_further
                              | apply list_elem_of_here | done].
    + apply HN in Hx as [k ->]. exfalso. apply (Hnot _ Hy).
      destruct Hxy as [r ->]. exists ([k] ++ r). by rewrite app_assoc.
    + apply HN in Hx as [k ->]. apply HN in Hy as [k' ->].
      destruct Hxy as [r E]. pose proof (f_equal length E) as El.
      rewrite !length_app in El. simpl in El.
      destruct r; [by rewrite app_nil_r in E | simpl in El; lia].
Qed.

(** No path is yielded twice. *)
Lemma all_paths_loop_NoDup fuel :
  forall q ys,
    Forall (entry_of_tree h t) q ->
    antichain (map (fun e => segs (fst e)) q) ->
    PathTree.all_paths_loop fuel h q = Ok ys -> NoDup ys.
Proof.
  induction fuel as [|fuel IH]; intros q ys Hq Hanti; [done|].
  destruct q as [|[base nodes] q]; [intros [= <-]; apply NoDup_nil_2|].
  apply Forall_cons in Hq as [(bs & b & Hbase & Eb & Hnodes) Hq].
  simpl in Hbase, Hnodes. subst base.
  rewrite (all_paths_loop_entry fuel bs b nodes q Eb Hnodes).
  destruct (PathTree.all_paths_loop fuel h _) as [rest| |] eqn:Erest; [|done..].
  rewrite bind_Ok. intros [= <-].
  destruct (walk_node bs b Eb) as (nd & End & Hd & Hnd & Hseg).
  assert (Forall (entry_of_tree h t)
            (q ++ map (fun e => (mkPath "" (bs ++ [fst e]),
                                 PathNode.children h (snd e)))
                    (_children (deref h b)))) as Hq'.
  { apply Forall_app. split; [done | by apply entries_of_children]. }
  cbn [map fst segs] in Hanti.
  apply NoDup_app. split; [|split].
  - apply (NoDup_map_fst_inj (fun k => mkPath "" (bs ++ [k]))); [|by rewrite Hd].
    intros x y [= E%app_inv_head]. by injection E.
  - intros p ([k c] & <- & Hin)%list_elem_of_In%in_map_iff Hrest. simpl in Hrest.
    destruct (all_paths_loop_sound fuel _ rest Hq' Erest _ Hrest)
      as (e & suf & He & Hsuf & [= E] & _).
    apply elem_of_app in He as [He | He].
    + destruct Hanti as [[Hbs _]%NoDup_cons Hpre]. apply Hbs.
      assert (segs (fst e) ∈ map (fun e => segs (fst e)) q) as Hin'.
      { apply list_elem_of_In, in_map_iff. exists e.
        split; [done | by apply list_elem_of_In]. }
      assert (segs (fst e) = bs) as Heq.
      { apply Hpre; [by apply list_elem_of_further | apply list_elem_of_here |].
        destruct suf as [|k0 suf _] using rev_ind; [done|].
        rewrite app_assoc in E. apply app_inj_tail in E as [-> _].
        by exists suf. }
      by rewrite Heq in Hin'.
    + apply list_elem_of_In, in_map_iff in He as ([k' c'] & <- & _). simpl in E.
      apply (f_equal length) in E. rewrite !length_app in E. simpl in E.
      destruct suf; [done | simpl in E; lia].
  - apply (IH _ rest Hq'); [|done].
    rewrite map_app, map_map. simpl.
    apply antichain_step; [done | by rewrite Hd].
Qed.

End AllPaths.

Section AllPathsTheorem.

Import Pathlib.

Implicit Types (h : store) (t : PathTree) (p : PurePath).

Lemma relative_path_shape p :
  is_absolute p = false -> p = mkPath "" (segs p) /\ parts p = segs p.
Proof.
  unfold is_absolute, parts. intros H%negb_false_iff. rewrite H.
  apply is_empty_true in H. destruct p as [r l]. simpl in *. by subst.
Qed.

Lemma all_paths_spec h t :
  wf_tree h t -> segment_keys h -> PathNode.name h (_root t) = "." ->
  exists paths,
    (forall fuel,
        S (S (weight h (_root t))) <= fuel -> PathTree.all_paths fuel h t = Ok paths)
    /\ (forall p,
           p ∈ paths
           <-> is_absolute p = false /\ PathTree.has_descendant h t p = Ok true)
    /\ NoDup paths
    /\ head paths = Some (Path ".").
Proof.
  intros Hwf Hkeys Hname.
  destruct (all_paths_total h t (proj1 Hwf)) as (paths & _ & Hpaths).
  exists paths. split; [exact Hpaths|].
  pose proof (Hpaths _ (Nat.le_refl _)) as E.
  unfold PathTree.all_paths in E. rewrite all_paths_loop_step in E.
  cbn [PathTree.all_paths_nodes fst snd app] in E. rewrite Hname in E.
  change (joinpath (parse ".") ".") with (mkPath "" []) in E.
  destruct (PathTree.all_paths_loop _ h _) as [rest| |] eqn:Erest; [|done..].
  rewrite bind_Ok in E. injection E as <-.
  assert (Forall (entry_of_tree h t)
            [(mkPath "" [], PathNode.children h (_root t))]) as Hq.
  { constructor; [|constructor]. by exists [], (_root t). }
  pose proof (all_paths_loop_sound h t Hwf Hkeys _ _ rest Hq Erest) as Hsound.
  pose proof (all_paths_loop_complete h t Hwf Hkeys _ _ rest Hq Erest) as Hcomplete.
  split; [|split; [|done]].
  - intros p. rewrite has_descendant_walk. split.
    + intros [-> | Hp]%elem_of_cons; [done|].
      destruct (Hsound p Hp) as (e & suf & ->%list_elem_of_singleton & _ & -> & [y Hy]).
      simpl in *. split; [done|]. unfold parts. simpl. by rewrite Hy.
    + intros [Hrel Hw]. destruct (relative_path_shape p Hrel) as [Hp Hparts].
      rewrite Hparts in Hw. rewrite Hp.
      destruct (segs p) as [|k suf]; [apply list_elem_of_here|].
      apply list_elem_of_further.
      apply (Hcomplete (mkPath "" [], PathNode.children h (_root t)) (k :: suf));
        [apply list_elem_of_here | done |].
      cbn [fst segs app].
      destruct (walk h (_root t) (k :: suf)) as [y|]; [by exists y | done].
  - apply NoDup_cons. split.
    + intros Hp. destruct (Hsound _ Hp) as (e & suf & _ & Hne & [= E] & _).
      symmetry in E. by apply app_eq_nil in E as [_ ?].
    + eapply all_paths_loop_NoDup;
        [exact Hwf | exact Hkeys | exact Hq | | exact Erest].
      split; [apply NoDup_singleton|].
      by intros x y ->%list_elem_of_singleton ->%list_elem_of_singleton _.
Qed.

Lemma segment_keys_deref h r :
  segment_keys h ->
  Forall valid_segment (OrderedDict.keys (_children (deref h r))).
Proof.
  intros Hk. unfold deref. destruct (h !! r) as [nd|] eqn:E; simpl; [|done].
  unfold segment_keys in Hk. rewrite Forall_forall in Hk.
  apply Hk. by eapply list_elem_of_lookup_2.
Qed.

Lemma segment_keys_set_children h r d :
  segment_keys h -> Forall valid_segment (OrderedDict.keys d) ->
  segment_keys (set_children h r d).
Proof. intros Hk Hd. by apply Forall_insert. Qed.

Lemma add_child_segment_keys h self k h' c :
  segment_keys h -> valid_segment k ->
  PathNode.add_child h self k = Ok (h', c) -> segment_keys h'.
Proof.
  intros Hk Hv H. destruct (add_child_Ok _ _ _ _ _ H) as (_ & Hnew & _ & _ & ->).
  assert (segment_keys (h ++ [mkNode k (Some self) []])) as Hk'.
  { apply Forall_app. split; [done|]. constructor; [constructor | constructor]. }
  apply segment_keys_set_children; [done|].
  pose proof (segment_keys_deref _ self Hk') as Hd.
  revert Hd. generalize (_children (deref (h ++ [mkNode k (Some self) []]) self)).
  intros d Hd. induction d as [|[k' v] d IH]; simpl.
  - constructor; [exact Hv | constructor].
  - apply Forall_cons in Hd as [Hk0 Hd].
    destruct (String.eqb k' k); simpl; constructor; auto.
Qed.

Lemma add_loop_segment_keys ps :
  forall h n h' m,
    segment_keys h -> Forall valid_segment ps ->
    PathTree.add_loop h n ps = Ok (h', m) -> segment_keys h'.
Proof.
  induction ps as [|k ps IH]; intros h n h' m Hk Hps; simpl.
  - by intros [= <- <-].
  - apply Forall_cons in Hps as [Hv Hps].
    destruct (PathNode.has_child h n k).
    + destruct (PathNode.child h n k) as [c| |]; simpl; try done. by apply IH.
    + destruct (PathNode.add_child h n k) as [[h1 c]| |] eqn:E; simpl; try done.
      apply IH; [|done]. by eapply add_child_segment_keys.
Qed.

Lemma add_segment_keys h t p h' n :
  segment_keys h -> valid p ->
  PathTree.add h t p = Ok (h', n) -> segment_keys h'.
Proof.
  intros Hk [_ Hv] H. pose proof (add_Ok_relative _ _ _ _ _ H) as Hrel.
  rewrite add_relative in H by done.
  rewrite (proj2 (relative_path_shape p Hrel)) in H.
  by eapply add_loop_segment_keys.
Qed.

Lemma add_all_segment_keys t paths :
  forall h h',
    segment_keys h -> Forall valid paths ->
    PathTree.add_all h t paths = Ok h' -> segment_keys h'.
Proof.
  induction paths as [|p paths IH]; intros h h' Hk Hv; cbn [PathTree.add_all].
  - by intros [= <-].
  - apply Forall_cons in Hv as [Hp Hv].
    destruct (PathTree.add h t p) as [[h1 n]| |] eqn:E; [|done..].
    rewrite bind_Ok. cbv beta iota. apply IH; [|done].
    by eapply add_segment_keys.
Qed.

Lemma tree_of_segment_keys paths h t :
  tree_of paths = Ok (h, t) ->
  segment_keys h /\ PathNode.name h (_root t) = ".".
Proof.
  unfold tree_of. rewrite from_iterable_nil.
  destruct (PathTree.add_all _ _ _) as [h2| |] eqn:E; [|done..].
  rewrite bind_Ok. intros [= <- <-]. split.
  - eapply add_all_segment_keys; [| |exact E].
    + by repeat constructor.
    + apply Forall_forall. intros p (s & <- & _)%list_elem_of_In%in_map_iff.
      apply parse_valid.
  - assert (extends [mkNode "." None []] h2) as Hext.
    { clear -E. revert E. generalize [mkNode "." None []].
      induction (map Path paths) as [|p l IH]; intros h0; cbn [PathTree.add_all].
      - intros [= <-]. apply extends_refl.
      - destruct (PathTree.add h0 _ p) as [[h1 n]| |] eqn:E1; [|done..].
        rewrite bind_Ok. cbv beta iota. intros E.
        eapply extends_trans; [|by apply IH].
        unfold PathTree.add in E1.
        destruct (PathTree._check_path p); [|done..]. rewrite bind_Ok in E1.
        by eapply add_loop_extends. }
    destruct (Hext 0 _ eq_refl) as (nd & End & Hn & _).
    unfold PathNode.name. simpl. by rewrite (deref_Some _ _ _ End).
Qed.

(** X10.  On a tree whose children are keyed by path segments and whose
    root is named ["."], [all_paths] stops and yields exactly the relative
    paths that are in the tree, each once, the path of the root first. *)
Theorem all_paths_enumerates_the_tree h t :
  wf_tree h t -> segment_keys h -> PathNode.name h (_root t) = "." ->
  exists paths,
    (forall fuel,
        S (S (weight h (_root t))) <= fuel -> PathTree.all_paths fuel h t = Ok paths)
    /\ (forall p,
           p ∈ paths
           <-> is_absolute p = false /\ PathTree.has_descendant h t p = Ok true)
    /\ NoDup paths
    /\ head paths = Some (Path ".").
Proof. apply all_paths_spec. Qed.

Lemma all_paths_enumerates_the_tree_witness :
  let r := tree_of ["a/b"; "c"] in
  exists paths,
    (forall fuel,
        S (S (weight (store_of r) (_root (tree_in r)))) <= fuel ->
        PathTree.all_paths fuel (store_of r) (tree_in r) = Ok paths)
    /\ (forall p,
           p ∈ paths
           <-> is_absolute p = false
               /\ PathTree.has_descendant (store_of r) (tree_in r) p = Ok true)
    /\ NoDup paths
    /\ head paths = Some (Path ".").
Proof.
  apply (all_paths_enumerates_the_tree
           (store_of (tree_of ["a/b"; "c"])) (tree_in (tree_of ["a/b"; "c"]))).
  - by apply (tree_of_wf ["a/b"; "c"]).
  - by apply (tree_of_segment_keys ["a/b"; "c"] _ _ eq_refl).
  - reflexivity.
Defined.

End AllPathsTheorem.

(** ** The paths the checker examines *)

Section Examined.

Import Pathlib UnityGitRepository Checker.

Implicit Types (h : store) (t : PathTree) (p : PurePath) (r : Repository).

Lemma name_extends h h' n :
  extends h h' -> n < length h -> PathNode.name h' n = PathNode.name h n.
Proof.
  intros Hext Hn. destruct (lookup_lt_is_Some_2 h n Hn) as [nd End].
  destruct (Hext n nd End) as (nd' & End' & Hname & _).
  unfold PathNode.name. by rewrite (deref_Some _ _ _ End), (deref_Some _ _ _ End').
Qed.

Lemma remove_child_segment_keys h self k h' s :
  segment_keys h -> PathNode.remove_child h self k = Ok (h', s) -> segment_keys h'.
Proof.
  intros Hk (_ & _ & ->)%remove_child_Ok.
  apply segment_keys_set_children; [done|].
  rewrite keys_pop. pose proof (segment_keys_deref h self Hk) as Hd.
  rewrite Forall_forall in Hd. apply Forall_forall.
  intros x [_ Hx]%list_elem_of_filter. by apply Hd.
Qed.

Lemma prune_unlink_segment_keys fuel lim :
  forall h (par : nat) h' s,
    segment_keys h ->
    PathTree.prune_unlink fuel h lim par = Ok (h', s) -> segment_keys h'.
Proof.
  induction fuel as [|fuel IH]; intros h par h' s Hk; [done|]. simpl.
  destruct (negb (PathNode.is_root_node h par) && negb (bool_decide (par = lim))
            && negb (PathNode.has_children h par)).
  - destruct (PathNode.parent h par) as [gp|]; [|done].
    destruct (PathNode.remove_child h gp (PathNode.name h par)) as [[h1 r1]| |] eqn:E;
      simpl; try done.
    apply IH. by eapply remove_child_segment_keys.
  - by intros [= <- <-].
Qed.

Lemma prune_segment_keys h t path limit_path h' s :
  segment_keys h ->
  PathTree.prune h t path limit_path = Ok (h', s) -> segment_keys h'.
Proof.
  intros Hk. unfold PathTree.prune.
  destruct (PathTree.descendant h t path) as [node| |]; simpl; try done.
  destruct (PathTree.descendant h t limit_path) as [lim| |]; simpl; try done.
  destruct (PathTree.prune_climb (length h) h lim node) as [cur| |]; simpl; try done.
  destruct (PathNode.parent h cur); [|done].
  destruct (PathNode.parent h node) as [parent|]; [|done].
  destruct (PathNode.remove_child h parent (PathNode.name h node)) as [[h1 r]| |] eqn:E;
    simpl; try done.
  apply prune_unlink_segment_keys. by eapply remove_child_segment_keys.
Qed.

Lemma add_path_keyed h t p h' n :
  wf_tree h t -> path_keyed h t -> valid p ->
  PathTree.add h t p = Ok (h', n) -> path_keyed h' t.
Proof.
  intros Hwf [Hk Hn] Hp H. split; [by eapply add_segment_keys|].
  rewrite <- Hn. apply name_extends; [|by apply wf_tree_root].
  pose proof (add_Ok_relative _ _ _ _ _ H) as Hrel.
  rewrite add_relative in H by done. by eapply add_loop_extends.
Qed.

Lemma prune_path_keyed h t p lim h' s :
  wf_tree h t -> path_keyed h t ->
  PathTree.prune h t p lim = Ok (h', s) -> path_keyed h' t.
Proof.
  intros Hwf [Hk Hn] H. split; [by eapply prune_segment_keys|].
  rewrite <- Hn. apply name_extends; [|by apply wf_tree_root].
  by destruct (prune_keeps _ _ _ _ _ _ (proj1 Hwf) H) as (_ & ? & _).
Qed.

Lemma add_all_path_keyed t paths :
  forall h h',
    wf_tree h t -> path_keyed h t -> Forall valid paths ->
    PathTree.add_all h t paths = Ok h' -> path_keyed h' t.
Proof.
  induction paths as [|p paths IH]; intros h h' Hwf Hk Hv; cbn [PathTree.add_all].
  - by intros [= <-].
  - apply Forall_cons in Hv as [Hp Hv].
    destruct (PathTree.add h t p) as [[h1 n]| |] eqn:E; [|done..].
    rewrite bind_Ok. cbv beta iota.
    apply IH; [by eapply add_wf | by eapply add_path_keyed | done].
Qed.

Lemma staged_D_path_keyed t paths :
  forall h h',
    wf_tree h t -> path_keyed h t ->
    staged_D t h paths = Ok h' -> path_keyed h' t.
Proof.
  induction paths as [|p paths IH]; intros h h' Hwf Hk; simpl.
  - by intros [= <-].
  - destruct (is_hidden p); simpl; [by apply IH|].
    destruct (PathTree.prune h t p (parse "Assets")) as [[h1 s]| |] eqn:E;
      simpl; try done.
    apply IH; [by eapply prune_wf | by eapply prune_path_keyed].
Qed.

Lemma staged_A_path_keyed t paths :
  forall h h',
    wf_tree h t -> path_keyed h t -> Forall valid paths ->
    staged_A t h paths = Ok h' -> path_keyed h' t.
Proof.
  induction paths as [|p paths IH]; intros h h' Hwf Hk Hv; simpl.
  - by intros [= <-].
  - apply Forall_cons in Hv as [Hp Hv].
    destruct (is_hidden p); simpl; [by apply IH|].
    destruct (PathTree.add h t p) as [[h1 n]| |] eqn:E; simpl; try done.
    apply IH; [by eapply add_wf | by eapply add_path_keyed | done].
Qed.

Lemma staged_rename_path_keyed t h old new h' :
  wf_tree h t -> path_keyed h t -> valid new ->
  staged_rename t h old new = Ok h' -> path_keyed h' t.
Proof.
  intros Hwf Hk Hnew. unfold staged_rename.
  assert (forall h1,
    wf_tree h1 t -> path_keyed h1 t ->
    (if negb (is_hidden new)
     then '(h2, _) ← PathTree.add h1 t new; Ok h2 else Ok h1) = Ok h' ->
    path_keyed h' t) as Hstep.
  { intros h1 Hwf1 Hk1. destruct (is_hidden new); simpl.
    - by intros [= <-].
    - destruct (PathTree.add h1 t new) as [[h2 n]| |] eqn:E; simpl; try done.
      intros [= <-]. by eapply add_path_keyed. }
  destruct (is_hidden old); simpl; [by apply Hstep|].
  destruct (PathTree.prune h t old (parse "Assets")) as [[h1 s]| |] eqn:E;
    simpl; try done.
  apply Hstep; [by eapply prune_wf | by eapply prune_path_keyed].
Qed.

Lemma staged_R_path_keyed t paths :
  forall h h',
    wf_tree h t -> path_keyed h t ->
    Forall (fun on => valid (fst on) /\ valid (snd on)) paths ->
    staged_R t h paths = Ok h' -> path_keyed h' t.
Proof.
  induction paths as [|[old new] paths IH]; intros h h' Hwf Hk Hv; simpl.
  - by intros [= <-].
  - apply Forall_cons in Hv as [[_ Hnew] Hv]. simpl in Hnew.
    destruct (staged_rename t h old new) as [h1| |] eqn:E; simpl; try done.
    apply IH; [|by eapply staged_rename_path_keyed | done].
    by destruct (staged_rename_keeps _ _ _ _ _ Hwf E).
Qed.

Lemma apply_staged_path_keyed t changes :
  forall h h',
    wf_tree h t -> path_keyed h t -> Forall valid_entry changes ->
    apply_staged t h changes = Ok h' -> path_keyed h' t.
Proof.
  induction changes as [|e changes IH]; intros h h' Hwf Hk Hv; simpl.
  - by intros [= <-].
  - apply Forall_cons in Hv as [He Hv]. destruct e as [paths|paths|paths].
    + destruct (staged_A t h paths) as [h1| |] eqn:E; simpl; try done.
      apply IH; [|by eapply staged_A_path_keyed | done].
      by destruct (staged_A_keeps _ _ _ _ Hwf E).
    + destruct (staged_D t h paths) as [h1| |] eqn:E; simpl; try done.
      apply IH; [|by eapply staged_D_path_keyed | done].
      by destruct (staged_D_keeps _ _ _ _ Hwf E).
    + destruct (staged_R t h paths) as [h1| |] eqn:E; simpl; try done.
      apply IH; [|by eapply staged_R_path_keyed | done].
      by destruct (staged_R_keeps _ _ _ _ Hwf E).
Qed.

Lemma build_path_keyed r h t :
  valid_repository r -> build r = Ok (h, t) -> path_keyed h t.
Proof.
  intros [Htr Hst]. unfold build. rewrite from_iterable_nil.
  set (t0 := mkTree (root r) 0).
  destruct (PathTree.add_all [mkNode "." None []] t0 _) as [h1| |] eqn:E1;
    [|done..].
  rewrite !bind_Ok. cbv beta iota.
  destruct (apply_staged t0 h1 _) as [h2| |] eqn:E2; [|done..].
  rewrite bind_Ok. intros [= <- <-].
  assert (wf_tree [mkNode "." None []] t0) as Hwf0.
  { split; [apply (wf_store_alloc [] "." None wf_store_nil)|].
    by exists (mkNode "." None []). }
  assert (path_keyed [mkNode "." None []] t0) as Hk0.
  { split; [|done]. constructor; [constructor | constructor]. }
  pose proof (add_all_wf _ _ _ _ Hwf0 E1) as Hwf1.
  eapply apply_staged_path_keyed; [exact Hwf1 | | exact Hst | exact E2].
  eapply add_all_path_keyed; [exact Hwf0 | exact Hk0 | | exact E1].
  by apply Forall_bfilter.
Qed.

(** X11.  On a repository whose listings hold valid paths, the paths the
    checker examines are exactly the relative paths in the tree of the
    proposed state: it reports the companion of every asset path of the
    tree that exists while its companion is no file, and every
    metadata-file path of the tree that is a file while its asset path
    does not exist. *)
Theorem checker_examines_the_paths_of_the_tree r h t :
  valid_repository r -> build r = Ok (h, t) ->
  exists success missing orphans,
    (forall fuel,
        S (S (weight h (_root t))) <= fuel ->
        check_unity_meta_files fuel r = Ok (success, missing, orphans))
    /\ (forall x,
           x ∈ missing
           <-> exists p,
                 is_absolute p = false
                 /\ PathTree.has_descendant h t p = Ok true
                 /\ is_asset p = true /\ path_exists r p = true
                 /\ meta_file_for_asset p = Ok x /\ is_file r x = false)
    /\ (forall x,
           x ∈ orphans
           <-> is_absolute x = false
               /\ PathTree.has_descendant h t x = Ok true
               /\ is_meta_file x = true /\ is_file r x = true
               /\ exists a, asset_for_meta_file x = Ok a /\ path_exists r a = false).
Proof.
  intros Hv Hbuild.
  destruct (build_keeps r h t Hbuild) as [Hwf _].
  destruct (build_path_keyed r h t Hv Hbuild) as [Hk Hn].
  destruct (all_paths_spec h t Hwf Hk Hn) as (paths & Hpaths & Hin & _).
  destruct (proj1 check_spec r h t Hbuild)
    as (paths' & success & missing & orphans & Hcheck & Hm & Ho & _).
  assert (paths' = paths) as ->.
  { destruct (Hcheck _ (Nat.le_refl _)) as [E _].
    rewrite (Hpaths _ (Nat.le_refl _)) in E. by injection E. }
  exists success, missing, orphans. split; [intros fuel Hf; by apply Hcheck|].
  split.
  - intros x. rewrite Hm. unfold is_missing. split.
    + intros (p & [? ?]%Hin & ?). by exists p.
    + intros (p & ? & ? & ?). exists p. split; [by apply Hin | done].
  - intros x. rewrite Ho. unfold is_orphan. rewrite Hin. tauto.
Qed.

Lemma checker_examines_the_paths_of_the_tree_witness :
  exists success missing orphans,
    (forall fuel,
        S (S (weight (store_of (build repo_remove_nested))
                (_root (tree_in (build repo_remove_nested))))) <= fuel ->
        check_unity_meta_files fuel repo_remove_nested
        = Ok (success, missing, orphans))
    /\ (forall x,
           x ∈ missing
           <-> exists p,
                 is_absolute p = false
                 /\ PathTree.has_descendant (store_of (build repo_remove_nested))
                      (tree_in (build repo_remove_nested)) p = Ok true
                 /\ is_asset p = true /\ path_exists repo_remove_nested p = true
                 /\ meta_file_for_asset p = Ok x
                 /\ is_file repo_remove_nested x = false)
    /\ (forall x,
           x ∈ orphans
           <-> is_absolute x = false
               /\ PathTree.has_descendant (store_of (build repo_remove_nested))
                    (tree_in (build repo_remove_nested)) x = Ok true
               /\ is_meta_file x = true /\ is_file repo_remove_nested x = true
               /\ exists a, asset_for_meta_file x = Ok a
                            /\ path_exists repo_remove_nested a = false).
Proof.
  apply (checker_examines_the_paths_of_the_tree repo_remove_nested).
  - split; simpl.
    + constructor; [apply parse_valid|].
      constructor; [apply parse_valid | constructor].
    + constructor; [|constructor]. simpl.
      constructor; [apply parse_valid | constructor].
  - reflexivity.
Defined.

End Examined.

(** ** The links between the nodes, under any sequence of calls *)

Section Links.

Implicit Types (h : store) (t : PathTree) (n c : ref) (k : string).

Lemma apply_op_wf h t op h' :
  wf_tree h t -> apply_op h t op = Ok h' -> wf_tree h' t.
Proof.
  intros Hwf. destruct op as [p | p | p lp |]; simpl.
  - destruct (PathTree.add h t p) as [[h1 n]| |] eqn:E; simpl; try done.
    intros [= <-]. by eapply add_wf.
  - destruct (PathTree.remove h t p) as [[h1 n]| |] eqn:E; simpl; try done.
    intros [= <-]. by eapply remove_wf.
  - destruct (PathTree.prune h t p lp) as [[h1 n]| |] eqn:E; simpl; try done.
    intros [= <-]. by eapply prune_wf.
  - intros [= <-]. by apply clear_wf.
Qed.

Lemma apply_ops_wf t ops :
  forall h h', wf_tree h t -> apply_ops h t ops = Ok h' -> wf_tree h' t.
Proof.
  induction ops as [|op ops IH]; intros h h' Hwf; simpl.
  - by intros [= <-].
  - destruct (apply_op h t op) as [h1| |] eqn:E; simpl; try done.
    apply IH. by eapply apply_op_wf.
Qed.

Lemma child_Ok_get h n k c :
  PathNode.child h n k = Ok c ->
  OrderedDict.get k (_children (deref h n)) = Some c.
Proof.
  unfold PathNode.child.
  destruct (OrderedDict.get k (_children (deref h n))); by intros [= ->].
Qed.

Lemma wf_children_NoDup h n : wf_store h -> NoDup (PathNode.children h n).
Proof.
  intros Hwf. unfold PathNode.children, deref.
  destruct (h !! n) as [nd|] eqn:E; simpl; [|apply NoDup_nil_2].
  destruct (Hwf n nd E) as [Hnd Hch].
  assert (forall e, e ∈ _children nd -> PathNode.name h (snd e) = fst e) as Hname.
  { intros [k c] Hin. destruct (Hch k c Hin) as (_ & ndc & Ec & Hn & _).
    unfold PathNode.name. simpl. by rewrite (deref_Some _ _ _ Ec). }
  clear Hch. revert Hnd Hname. generalize (_children nd). intros d.
  induction d as [|[k c] d IH]; simpl; [intros _ _; apply NoDup_nil_2|].
  intros [Hk Hd]%NoDup_cons Hname. apply NoDup_cons. split.
  - intros ([k' c'] & E' & Hin)%list_elem_of_In%in_map_iff. simpl in E'. subst c'.
    apply Hk. apply list_elem_of_In, in_map_iff. exists (k', c).
    split; [|done].
    pose proof (Hname (k', c)
                  ltac:(apply list_elem_of_further; by apply list_elem_of_In)) as H1.
    pose proof (Hname (k, c) ltac:(apply list_elem_of_here)) as H2.
    simpl in *. congruence.
  - apply IH; [done|]. intros e He. apply Hname. by apply list_elem_of_further.
Qed.

Lemma links_consistent h t :
  wf_tree h t ->
  PathNode.is_root_node h (_root t) = true
  /\ (forall n k c,
         PathNode.child h n k = Ok c ->
         PathNode.parent h c = Some n /\ PathNode.name h c = k
         /\ PathNode.is_child_of h c n = true
         /\ PathNode.is_parent_of h n c = true
         /\ PathNode.is_root_node h c = false
         /\ n < c)
  /\ (forall n c, c ∈ PathNode.children h n -> PathNode.parent h c = Some n)
  /\ (forall n, NoDup (PathNode.children h n)).
Proof.
  intros Hwf. split.
  { unfold PathNode.is_root_node. by rewrite (wf_tree_root_parent h t Hwf). }
  split.
  { intros n k c Hc%child_Ok_get.
    destruct (wf_get h n k c (proj1 Hwf) Hc) as (Hlt & _ & Hn & Hp).
    split; [done|]. split; [done|].
    unfold PathNode.is_child_of, PathNode.is_parent_of, PathNode.is_root_node.
    rewrite Hp, !bool_decide_eq_true_2 by done. done. }
  split; [|intros n; apply wf_children_NoDup, Hwf].
  intros n c Hc. unfold PathNode.children, OrderedDict.values in Hc.
  apply list_elem_of_In, in_map_iff in Hc as ([k c'] & <- & Hin). simpl.
  apply list_elem_of_In in Hin. unfold deref in Hin.
  destruct (h !! n) as [nd|] eqn:E; simpl in Hin; [|by apply elem_of_nil in Hin].
  destruct (proj2 (proj1 Hwf n nd E) k c' Hin) as (_ & ndc & Ec & _ & Hp).
  unfold PathNode.parent. by rewrite (deref_Some _ _ _ Ec).
Qed.

(** X12.  Whatever sequence of [add], [remove], [prune] and [clear] runs
    on a tree without raising, the links stay consistent: the root has no
    parent, the child a node returns for a name has that name, has the
    node as its parent and was created after it, and no node is listed
    twice among the children of a node. *)
Theorem mutators_keep_the_links_consistent h t ops h' :
  wf_tree h t -> apply_ops h t ops = Ok h' ->
  PathNode.is_root_node h' (_root t) = true
  /\ (forall n k c,
         PathNode.child h' n k = Ok c ->
         PathNode.parent h' c = Some n /\ PathNode.name h' c = k
         /\ PathNode.is_child_of h' c n = true
         /\ PathNode.is_parent_of h' n c = true
         /\ PathNode.is_root_node h' c = false
         /\ n < c)
  /\ (forall n c, c ∈ PathNode.children h' n -> PathNode.parent h' c = Some n)
  /\ (forall n, NoDup (PathNode.children h' n)).
Proof.
  intros Hwf Hops. apply (links_consistent h' t). by eapply apply_ops_wf.
Qed.

Lemma mutators_keep_the_links_consistent_witness :
  let r := tree_of ["a/b/c"; "a/d"] in
  let ops := [OpAdd (Path "a/b/e"); OpPrune (Path "a/b/c") (Path "a");
              OpRemove (Path "a/d"); OpAdd (Path "x")] in
  exists h',
    apply_ops (store_of r) (tree_in r) ops = Ok h'
    /\ PathNode.is_root_node h' 0 = true
    /\ (forall n k c,
           PathNode.child h' n k = Ok c ->
           PathNode.parent h' c = Some n /\ PathNode.name h' c = k
           /\ PathNode.is_child_of h' c n = true
           /\ PathNode.is_parent_of h' n c = true
           /\ PathNode.is_root_node h' c = false
           /\ n < c)
    /\ (forall n c, c ∈ PathNode.children h' n -> PathNode.parent h' c = Some n)
    /\ (forall n, NoDup (PathNode.children h' n)).
Proof.
  eexists. split; [reflexivity|].
  apply (mutators_keep_the_links_consistent
           (store_of (tree_of ["a/b/c"; "a/d"])) (tree_in (tree_of ["a/b/c"; "a/d"]))
           [OpAdd (Path "a/b/e"); OpPrune (Path "a/b/c") (Path "a");
            OpRemove (Path "a/d"); OpAdd (Path "x")]).
  - by apply (tree_of_wf ["a/b/c"; "a/d"]).
  - reflexivity.
Defined.

End Links.

(** ** Queries on a path *)

Section Queries.

Import Pathlib.

Implicit Types (h : store) (t : PathTree) (p q : PurePath) (k : string).

Lemma check_path_relative p :
  is_absolute p = false -> PathTree._check_path p = Ok tt.
Proof. intros H. unfold PathTree._check_path. by rewrite H. Qed.

Lemma children_named h t qs node k :
  wf_tree h t -> walk h (_root t) qs = Some node ->
  is_Some (walk h (_root t) (qs ++ [k]))
  <-> exists c, c ∈ PathNode.children h node /\ PathNode.name h c = k.
Proof.
  intros Hwf Enode.
  pose proof (walk_lt h _ _ _ (proj1 Hwf) (wf_tree_root h t Hwf) Enode) as Hlt.
  split.
  - intros [c (m & Em & Ek)%walk_snoc]. assert (m = node) as -> by congruence.
    exists c. split.
    + apply list_elem_of_In, in_map_iff. exists (k, c).
      split; [done | by apply list_elem_of_In, get_elem].
    + by destruct (wf_get h node k c (proj1 Hwf) Ek) as (_ & _ & ? & _).
  - intros (c & ([k' c'] & Ec & Hin)%list_elem_of_In%in_map_iff & Hname).
    simpl in Ec. subst c'. apply list_elem_of_In in Hin.
    pose proof (wf_parent_get h node k' c (proj1 Hwf) Hlt Hin) as Ek.
    destruct (wf_get h node k' c (proj1 Hwf) Ek) as (_ & _ & Hn & _).
    exists c. apply walk_snoc. exists node. split; [done | congruence].
Qed.

(** X13.  The queries of [PathTree] on a relative path: on a path that is
    not in the tree [descendant], [children], [children_count] and
    [has_children] all raise the not-found error of [PathNode.descendant];
    on a path that is, they answer for its node, and the names of the
    children are exactly the segments by which the path extends to a path
    of the tree. *)
Theorem queries_answer_for_the_node_of_the_path h t p :
  is_absolute p = false ->
  (PathTree.has_descendant h t p = Ok false ->
   PathTree.descendant h t p = Raise NonExistentPath
   /\ PathTree.children h t p = Raise NonExistentPath
   /\ PathTree.children_count h t p = Raise NonExistentPath
   /\ PathTree.has_children h t p = Raise NonExistentPath
   /\ kind_of NonExistentPath = NotFoundError)
  /\ (PathTree.has_descendant h t p = Ok true ->
      exists node,
        PathTree.descendant h t p = Ok node
        /\ PathTree.children h t p = Ok (PathNode.children h node)
        /\ PathTree.children_count h t p = Ok (length (PathNode.children h node))
        /\ PathTree.has_children h t p
           = Ok (bool_decide (PathNode.children h node <> []))
        /\ (wf_tree h t ->
            forall q k,
              parts q = parts p ++ [k] ->
              PathTree.has_descendant h t q = Ok true
              <-> exists c, c ∈ PathNode.children h node /\ PathNode.name h c = k)).
Proof.
  intros Hrel. rewrite has_descendant_walk.
  unfold PathTree.has_children, PathTree.children_count, PathTree.children,
    PathTree.descendant, PathNode.descendant.
  rewrite (check_path_relative p Hrel), bind_Ok, descendant_loop_walk.
  destruct (walk h (_root t) (parts p)) as [node|] eqn:Ep; split; try done.
  intros _. exists node. rewrite !bind_Ok. split; [done|]. split; [done|].
  rewrite children_count_length. split; [done|]. split.
  - f_equal. by destruct (PathNode.children h node).
  - intros Hwf q k Hq. rewrite has_descendant_walk, Hq.
    rewrite <- (children_named h t (parts p) node k Hwf Ep).
    destruct (walk h (_root t) (parts p ++ [k])) as [y|].
    + split; [intros _; by exists y | done].
    + split; [done | by intros [? ?]].
Qed.

Lemma queries_answer_for_the_node_of_the_path_witness :
  let r := tree_of ["a/b"; "a/c"] in
  (PathTree.has_descendant (store_of r) (tree_in r) (Path "a/x") = Ok false ->
   PathTree.descendant (store_of r) (tree_in r) (Path "a/x") = Raise NonExistentPath
   /\ PathTree.children (store_of r) (tree_in r) (Path "a/x") = Raise NonExistentPath
   /\ PathTree.children_count (store_of r) (tree_in r) (Path "a/x")
      = Raise NonExistentPath
   /\ PathTree.has_children (store_of r) (tree_in r) (Path "a/x")
      = Raise NonExistentPath
   /\ kind_of NonExistentPath = NotFoundError)
  /\ (PathTree.has_descendant (store_of r) (tree_in r) (Path "a/x") = Ok true ->
      exists node,
        PathTree.descendant (store_of r) (tree_in r) (Path "a/x") = Ok node
        /\ PathTree.children (store_of r) (tree_in r) (Path "a/x")
           = Ok (PathNode.children (store_of r) node)
        /\ PathTree.children_count (store_of r) (tree_in r) (Path "a/x")
           = Ok (length (PathNode.children (store_of r) node))
        /\ PathTree.has_children (store_of r) (tree_in r) (Path "a/x")
           = Ok (bool_decide (PathNode.children (store_of r) node <> []))
        /\ (wf_tree (store_of r) (tree_in r) ->
            forall q k,
              parts q = parts (Path "a/x") ++ [k] ->
              PathTree.has_descendant (store_of r) (tree_in r) q = Ok true
              <-> exists c, c ∈ PathNode.children (store_of r) node
                            /\ PathNode.name (store_of r) c = k)).
Proof.
  apply (queries_answer_for_the_node_of_the_path
           (store_of (tree_of ["a/b"; "a/c"])) (tree_in (tree_of ["a/b"; "a/c"]))
           (Path "a/x")).
  reflexivity.
Defined.

End Queries.

(** ** The nodes the traversals visit *)

Section Visits.

Implicit Types (h : store) (t : PathTree) (qs : list string) (d j : nat).

Lemma elem_of_rev_2 {A} (l : list A) (a : A) : a ∈ l -> a ∈ rev l.
Proof. rewrite !list_elem_of_In. apply in_rev. Qed.

Lemma NoDup_rev_list {A} (l : list A) : NoDup l -> NoDup (rev l).
Proof. intros H. by rewrite <- Permutation_rev. Qed.

Lemma elem_of_flat_map {A B} (f : A -> list B) (l : list A) (z : B) :
  z ∈ flat_map f l <-> exists x, x ∈ l /\ z ∈ f x.
Proof.
  rewrite list_elem_of_In, in_flat_map. split.
  - intros (x & ? & ?). exists x. by rewrite !list_elem_of_In.
  - intros (x & ? & ?). exists x. by rewrite <- !list_elem_of_In.
Qed.

Lemma NoDup_flat_map {A B} (f : A -> list B) (l : list A) :
  NoDup l -> (forall x, x ∈ l -> NoDup (f x)) ->
  (forall x y z, x ∈ l -> y ∈ l -> z ∈ f x -> z ∈ f y -> x = y) ->
  NoDup (flat_map f l).
Proof.
  induction l as [|a l IH]; simpl; [intros; apply NoDup_nil_2|].
  intros [Ha Hl]%NoDup_cons Hf Hdisj. apply NoDup_app. split; [|split].
  - apply Hf, list_elem_of_here.
  - intros z Hz (y & Hy & Hzy)%elem_of_flat_map. apply Ha.
    by rewrite (Hdisj a y z (list_elem_of_here _ _) (list_elem_of_further _ _ _ Hy)).
  - apply IH; [done | |].
    + intros x Hx. by apply Hf, list_elem_of_further.
    + intros x y z Hx Hy. apply Hdisj; by apply list_elem_of_further.
Qed.

(** Two walks from the same node to the same node take the same names. *)
Lemma walk_inj_from h n qs qs' x :
  wf_store h -> walk h n qs = Some x -> walk h n qs' = Some x -> qs = qs'.
Proof.
  intros Hwf.
  revert qs' x; induction qs as [|k qs IH] using rev_ind; intros qs' x E E'.
  - simpl in E. injection E as <-.
    destruct qs' as [|k' qs' _] using rev_ind; [done|].
    pose proof (walk_le h _ _ _ Hwf E') as Hle. rewrite length_app in Hle.
    simpl in Hle. lia.
  - destruct (walk_snoc_parent _ _ _ _ _ Hwf E) as (m & Em & _ & Hp & Hn & _).
    destruct qs' as [|k' qs' _] using rev_ind.
    + simpl in E'. injection E' as <-.
      pose proof (walk_le h _ _ _ Hwf E) as Hle. rewrite length_app in Hle.
      simpl in Hle. lia.
    + destruct (walk_snoc_parent _ _ _ _ _ Hwf E') as (m' & Em' & _ & Hp' & Hn' & _).
      assert (m' = m) as -> by congruence.
      rewrite (IH qs' m Em Em'). congruence.
Qed.

(** The children of a node are the nodes one step away. *)
Lemma children_step h n c :
  wf_store h -> c ∈ PathNode.children h n <-> exists k, walk h n [k] = Some c.
Proof.
  intros Hwf. split.
  - intros Hc. destruct (wf_children_gt h n c Hwf Hc) as [_ Hlt].
    unfold PathNode.children, OrderedDict.values in Hc.
    apply list_elem_of_In, in_map_iff in Hc as ([k c'] & <- & Hin).
    apply list_elem_of_In in Hin. exists k. simpl.
    destruct (Nat.lt_ge_cases n (length h)) as [Hn | Hn].
    + by rewrite (wf_parent_get h n k c' Hwf Hn Hin).
    + rewrite deref_ge in Hin by done. by apply elem_of_nil in Hin.
  - intros [k Hk]. simpl in Hk.
    destruct (OrderedDict.get k (_children (deref h n))) as [c'|] eqn:E; [|done].
    injection Hk as ->. apply get_elem in E.
    apply list_elem_of_In, in_map_iff. exists (k, c).
    split; [done | by apply list_elem_of_In].
Qed.

Lemma preorder_walk h d :
  wf_store h ->
  forall n x, x ∈ preorder_last_first d h n -> exists qs, walk h n qs = Some x.
Proof.
  intros Hwf. induction d as [|d IH]; intros n x; simpl.
  - intros ->%list_elem_of_singleton. by exists [].
  - intros [-> | Hx]%elem_of_cons; [by exists []|].
    apply elem_of_flat_map in Hx as (c & Hc%elem_of_rev & Hx).
    apply (children_step h n c Hwf) in Hc as [k Hk].
    destruct (IH c x Hx) as [qs Hqs]. exists ([k] ++ qs).
    rewrite walk_app, Hk. done.
Qed.

Lemma walk_preorder h d :
  wf_store h ->
  forall n qs x,
    walk h n qs = Some x -> length h <= n + d -> x ∈ preorder_last_first d h n.
Proof.
  intros Hwf. induction d as [|d IH]; intros n qs x Hw Hd.
  - destruct qs as [|k qs]; [simpl in *; injection Hw as ->; apply list_elem_of_here|].
    simpl in Hw. rewrite deref_ge in Hw by lia. done.
  - destruct qs as [|k qs]; [simpl in *; injection Hw as ->; apply list_elem_of_here|].
    cbn [preorder_last_first]. apply list_elem_of_further, elem_of_flat_map.
    change (k :: qs) with ([k] ++ qs) in Hw. rewrite walk_app in Hw.
    destruct (walk h n [k]) as [c|] eqn:Ek; [|done]. simpl in Hw.
    exists c. assert (c ∈ PathNode.children h n) as Hc
      by (apply (children_step h n c Hwf); eauto).
    split; [by apply elem_of_rev_2|].
    apply (IH c qs x Hw). destruct (wf_children_gt h n c Hwf Hc). lia.
Qed.

Lemma preorder_NoDup h d :
  wf_store h -> forall n, NoDup (preorder_last_first d h n).
Proof.
  intros Hwf. induction d as [|d IH]; intros n; simpl; [apply NoDup_singleton|].
  apply NoDup_cons. split.
  - intros (c & Hc%elem_of_rev & Hn)%elem_of_flat_map.
    destruct (preorder_walk h d Hwf c n Hn) as [qs Hqs].
    pose proof (walk_le h _ _ _ Hwf Hqs).
    destruct (wf_children_gt h n c Hwf Hc). lia.
  - apply NoDup_flat_map.
    + apply NoDup_rev_list, wf_children_NoDup, Hwf.
    + intros c _. apply IH.
    + intros c1 c2 x Hc1%elem_of_rev Hc2%elem_of_rev Hx1 Hx2.
      apply (children_step h n _ Hwf) in Hc1 as [k1 Hk1].
      apply (children_step h n _ Hwf) in Hc2 as [k2 Hk2].
      destruct (preorder_walk h d Hwf _ _ Hx1) as [q1 Hq1].
      destruct (preorder_walk h d Hwf _ _ Hx2) as [q2 Hq2].
      assert (walk h n ([k1] ++ q1) = Some x) as E1 by (by rewrite walk_app, Hk1).
      assert (walk h n ([k2] ++ q2) = Some x) as E2 by (by rewrite walk_app, Hk2).
      pose proof (walk_inj_from h n _ _ x Hwf E1 E2) as E.
      injection E as -> _. congruence.
Qed.

(** The nodes [j] steps below [n], and the next level. *)
Lemma next_level h n ns j :
  wf_store h ->
  NoDup ns ->
  (forall x, x ∈ ns <-> exists qs, length qs = j /\ walk h n qs = Some x) ->
  NoDup (flat_map (PathNode.children h) ns)
  /\ forall x, x ∈ flat_map (PathNode.children h) ns
               <-> exists qs, length qs = S j /\ walk h n qs = Some x.
Proof.
  intros Hwf Hnd Hns. split.
  - apply NoDup_flat_map; [done | intros; by apply wf_children_NoDup |].
    intros x y z _ _ Hx Hy.
    unfold PathNode.children, OrderedDict.values in Hx, Hy.
    apply (children_step h x z Hwf) in Hx as [kx Hx].
    apply (children_step h y z Hwf) in Hy as [ky Hy].
    destruct (walk_snoc_parent h x [] kx z Hwf Hx) as (m & [= <-] & _ & Hp & _).
    destruct (walk_snoc_parent h y [] ky z Hwf Hy) as (m' & [= <-] & _ & Hp' & _).
    congruence.
  - intros x. rewrite elem_of_flat_map. split.
    + intros (m & (qs & Hlen & Hqs)%Hns & [k Hk]%(children_step h m x Hwf)).
      exists (qs ++ [k]). rewrite length_app, walk_app, Hqs. simpl in *.
      split; [lia | done].
    + intros (qs & Hlen & Hqs).
      destruct qs as [|k qs _] using rev_ind; [done|].
      rewrite walk_app in Hqs.
      destruct (walk h n qs) as [m|] eqn:Em; [|done]. simpl in Hqs.
      exists m. split.
      * apply Hns. exists qs. rewrite length_app in Hlen. simpl in Hlen.
        split; [lia | done].
      * apply (children_step h m x Hwf). by exists k.
Qed.

Lemma level_order_visits h n d :
  wf_store h ->
  forall ns j,
    NoDup ns ->
    (forall x, x ∈ ns <-> exists qs, length qs = j /\ walk h n qs = Some x) ->
    NoDup (level_order d h ns)
    /\ forall x, x ∈ level_order d h ns
                 <-> exists qs, j <= length qs <= j + d /\ walk h n qs = Some x.
Proof.
  intros Hwf. induction d as [|d IH]; intros ns j Hnd Hns; simpl.
  - split; [done|]. intros x. rewrite Hns. split.
    + intros (qs & <- & ?). exists qs. split; [lia | done].
    + intros (qs & ? & ?). exists qs. split; [lia | done].
  - destruct (next_level h n ns j Hwf Hnd Hns) as [Hnd' Hns'].
    destruct (IH _ (S j) Hnd' Hns') as [Hnd'' Hin].
    split.
    + apply NoDup_app. split; [done|]. split; [|done].
      intros x (q1 & Hl1 & Hq1)%Hns (q2 & Hl2 & Hq2)%Hin.
      pose proof (walk_inj_from h n _ _ x Hwf Hq1 Hq2) as ->. lia.
    + intros x. rewrite elem_of_app, Hns, Hin. split.
      * intros [(qs & <- & ?) | (qs & ? & ?)]; exists qs; (split; [lia | done]).
      * intros (qs & Hl & ?).
        destruct (decide (length qs = j)); [left | right]; exists qs;
          (split; [lia | done]).
Qed.

Lemma bounded_NoDup_length (l : list nat) (N : nat) :
  NoDup l -> (forall x, x ∈ l -> x < N) -> length l <= N.
Proof.
  intros Hnd Hlt. transitivity (length (seq 0 N)); [|by rewrite length_seq].
  apply submseteq_length, NoDup_submseteq; [done|].
  intros x Hx. apply elem_of_seq. specialize (Hlt x Hx). lia.
Qed.

Lemma traversals_spec h t :
  wf_tree h t ->
  exists bfs dfs,
    (forall fuel,
        length h < fuel ->
        PathTree.traverse_breadth_first fuel h t = Ok bfs
        /\ PathTree.traverse_depth_first fuel h t = Ok dfs)
    /\ NoDup bfs /\ NoDup dfs
    /\ (forall n, n ∈ bfs <-> exists p, PathTree.descendant h t p = Ok n)
    /\ (forall n, n ∈ dfs <-> exists p, PathTree.descendant h t p = Ok n)
    /\ bfs ≡ₚ dfs
    /\ head bfs = Some (_root t) /\ head dfs = Some (_root t).
Proof.
  intros Hwf. pose proof (proj1 Hwf) as Hs.
  pose proof (wf_tree_root h t Hwf) as Hroot.
  set (bfs := level_order (length h) h [_root t]).
  set (dfs := preorder_last_first (length h) h (_root t)).
  assert (forall n, (exists p, PathTree.descendant h t p = Ok n)
                    <-> exists qs, walk h (_root t) qs = Some n) as Hdesc.
  { intros n. split.
    - intros [p Hp]. exists (Pathlib.parts p). by apply descendant_Ok_walk.
    - intros [qs Hqs]. exists (mkPath "" qs).
      unfold PathTree.descendant, PathNode.descendant.
      rewrite descendant_loop_walk. unfold Pathlib.parts. simpl. by rewrite Hqs. }
  destruct (level_order_visits h (_root t) (length h) Hs [_root t] 0)
    as [Hnd_b Hin_b]; [apply NoDup_singleton | |].
  { intros x. rewrite list_elem_of_singleton. split.
    - intros ->. by exists [].
    - intros ([|? ?] & Hl & Hq); [simpl in Hq; congruence | done]. }
  assert (forall n, n ∈ bfs <-> exists qs, walk h (_root t) qs = Some n) as Hb.
  { intros n. unfold bfs. rewrite Hin_b. split.
    - intros (qs & _ & ?). by exists qs.
    - intros (qs & Hq). exists qs. split; [|done].
      pose proof (walk_le h _ _ _ Hs Hq).
      pose proof (walk_lt h _ _ _ Hs Hroot Hq). lia. }
  assert (forall n, n ∈ dfs <-> exists qs, walk h (_root t) qs = Some n) as Hd.
  { intros n. split; [apply preorder_walk, Hs|].
    intros [qs Hq]. apply (walk_preorder h _ Hs _ qs); [done | lia]. }
  pose proof (preorder_NoDup h (length h) Hs (_root t)) as Hnd_d.
  assert (forall l : list nat,
             (forall n, n ∈ l <-> exists qs, walk h (_root t) qs = Some n) ->
             NoDup l -> length l <= length h) as Hlen.
  { intros l Hl Hnd. apply bounded_NoDup_length; [done|].
    intros x [qs Hq]%Hl. by eapply walk_lt. }
  exists bfs, dfs. split.
  { intros fuel Hfuel. split.
    - unfold PathTree.traverse_breadth_first.
      replace fuel with (length bfs + S (fuel - length bfs - 1))
        by (specialize (Hlen bfs Hb Hnd_b); lia).
      apply bfs_loop_levels; [done|]. intros n Hn. lia.
    - unfold PathTree.traverse_depth_first.
      replace fuel with (length dfs + S (fuel - length dfs - 1))
        by (specialize (Hlen dfs Hd Hnd_d); lia).
      unfold dfs. rewrite dfs_loop_subtree by (done || lia).
      simpl. by rewrite app_nil_r. }
  split; [done|]. split; [done|].
  split; [intros n; by rewrite Hdesc|]. split; [intros n; by rewrite Hdesc|].
  split.
  { apply NoDup_Permutation; [done..|]. intros x. by rewrite Hb, Hd. }
  split.
  - unfold bfs. by destruct (length h).
  - unfold dfs. by destruct (length h).
Qed.

(** X14.  On a well-formed tree both traversals stop, for every fuel above
    the number of objects, and visit exactly the nodes that [descendant]
    can return, each once; they start at the root and differ in the order
    only. *)
Theorem traversals_visit_each_node_once h t :
  wf_tree h t ->
  exists bfs dfs,
    (forall fuel,
        length h < fuel ->
        PathTree.traverse_breadth_first fuel h t = Ok bfs
        /\ PathTree.traverse_depth_first fuel h t = Ok dfs)
    /\ NoDup bfs /\ NoDup dfs
    /\ (forall n, n ∈ bfs <-> exists p, PathTree.descendant h t p = Ok n)
    /\ (forall n, n ∈ dfs <-> exists p, PathTree.descendant h t p = Ok n)
    /\ bfs ≡ₚ dfs
    /\ head bfs = Some (_root t) /\ head dfs = Some (_root t).
Proof. apply traversals_spec. Qed.

Lemma traversals_visit_each_node_once_witness :
  let r := tree_of ["a/b/c"; "a/d"; "e"] in
  exists bfs dfs,
    (forall fuel,
        length (store_of r) < fuel ->
        PathTree.traverse_breadth_first fuel (store_of r) (tree_in r) = Ok bfs
        /\ PathTree.traverse_depth_first fuel (store_of r) (tree_in r) = Ok dfs)
    /\ NoDup bfs /\ NoDup dfs
    /\ (forall n, n ∈ bfs
                  <-> exists p, PathTree.descendant (store_of r) (tree_in r) p = Ok n)
    /\ (forall n, n ∈ dfs
                  <-> exists p, PathTree.descendant (store_of r) (tree_in r) p = Ok n)
    /\ bfs ≡ₚ dfs
    /\ head bfs = Some (_root (tree_in r)) /\ head dfs = Some (_root (tree_in r)).
Proof.
  apply (traversals_visit_each_node_once
           (store_of (tree_of ["a/b/c"; "a/d"; "e"]))
           (tree_in (tree_of ["a/b/c"; "a/d"; "e"]))).
  by apply (tree_of_wf ["a/b/c"; "a/d"; "e"]).
Defined.

End Visits.

(** ** The words of [git diff --name-status -z] *)

Section StagedWords.

Import GitRepository.

Implicit Types (words pre : list string) (i fuel : nat)
  (changes ch : list (string * list (list PurePath)))
  (tup : list PurePath) (key : string).

(** One round of the loop, on the words from [i] on. *)
Lemma staged_at_loop_unfold fuel words i ch :
  staged_at_loop (S fuel) words i ch =
  match drop i words with
  | [] => Ok ch
  | change :: rest =>
      if String.eqb change "A" && Nat.ltb 0 (length rest) then
        staged_at_loop fuel words (i + 2)
          (setdefault_add change [Pathlib.parse (default "" (rest !! 0))] ch)
      else if String.eqb change "D" && Nat.ltb 0 (length rest) then
        staged_at_loop fuel words (i + 2)
          (setdefault_add change [Pathlib.parse (default "" (rest !! 0))] ch)
      else if Str.startswith "R"%char change && Nat.ltb 1 (length rest) then
        staged_at_loop fuel words (i + 3)
          (setdefault_add "R" [Pathlib.parse (default "" (rest !! 0));
                               Pathlib.parse (default "" (rest !! 1))] ch)
      else staged_at_loop fuel words (i + 1) ch
  end.
Proof.
  cbn [staged_at_loop].
  pose proof (length_drop words i) as Hlen.
  destruct (drop i words) as [|change rest] eqn:E; simpl in Hlen.
  - destruct (Nat.ltb_spec i (length words)); [lia | done].
  - destruct (Nat.ltb_spec i (length words)); [|lia].
    assert (word words i = change) as ->.
    { unfold word. replace i with (i + 0) by lia. by rewrite <- lookup_drop, E. }
    assert (word words (i + 1) = default "" (rest !! 0)) as ->.
    { unfold word. by rewrite <- lookup_drop, E. }
    assert (word words (i + 2) = default "" (rest !! 1)) as ->.
    { unfold word. by rewrite <- lookup_drop, E. }
    assert (Nat.ltb (i + 1) (length words) = Nat.ltb 0 (length rest)) as ->.
    { destruct (Nat.ltb_spec (i + 1) (length words)),
        (Nat.ltb_spec 0 (length rest)); (done || lia). }
    assert (Nat.ltb (i + 2) (length words) = Nat.ltb 1 (length rest)) as ->.
    { destruct (Nat.ltb_spec (i + 2) (length words)),
        (Nat.ltb_spec 1 (length rest)); (done || lia). }
    done.
Qed.

(** More fuel does not change the outcome. *)
Lemma staged_at_loop_mono words :
  forall fuel fuel' i ch ch',
    staged_at_loop fuel words i ch = Ok ch' -> fuel <= fuel' ->
    staged_at_loop fuel' words i ch = Ok ch'.
Proof.
  induction fuel as [|fuel IH]; intros fuel' i ch ch' E Hle; [done|].
  destruct fuel' as [|fuel']; [lia|].
  rewrite staged_at_loop_unfold in *.
  destruct (drop i words) as [|change rest]; [done|].
  repeat match goal with
         | |- context [if ?b then _ else _] => destruct b
         | _ => apply (IH fuel'); [done | lia]
         end.
Qed.

Lemma elem_of_tuple_set_add tup tup' (s : list (list PurePath)) :
  tup ∈ tuple_set_add tup' s <-> tup = tup' \/ tup ∈ s.
Proof.
  unfold tuple_set_add. destruct (bool_decide (tup' ∈ s)) eqn:E.
  - apply bool_decide_eq_true in E. split; [auto | by intros [->|]].
  - rewrite elem_of_app, list_elem_of_singleton. tauto.
Qed.

Lemma NoDup_tuple_set_add tup (s : list (list PurePath)) :
  NoDup s -> NoDup (tuple_set_add tup s).
Proof.
  intros H. unfold tuple_set_add. destruct (bool_decide (tup ∈ s)) eqn:E; [done|].
  apply bool_decide_eq_false in E. apply NoDup_app. split; [done|].
  split; [|apply NoDup_singleton].
  intros y Hy ->%list_elem_of_singleton. by apply E.
Qed.

Lemma changes_get_setdefault_add key key' tup ch :
  changes_get key (setdefault_add key' tup ch)
  = if String.eqb key' key then tuple_set_add tup (changes_get key ch)
    else changes_get key ch.
Proof.
  induction ch as [|[k s] ch IH]; simpl.
  - by destruct (String.eqb key' key).
  - destruct (String.eqb_spec k key') as [-> | Hne]; simpl.
    + by destruct (String.eqb key' key).
    + destruct (String.eqb_spec k key) as [-> | Hne'].
      * destruct (String.eqb_spec key' key) as [-> | _]; [done|]. done.
      * exact IH.
Qed.

Lemma keys_setdefault_add key tup ch :
  map fst (setdefault_add key tup ch)
  = if bool_decide (key ∈ map fst ch) then map fst ch else map fst ch ++ [key].
Proof.
  induction ch as [|[k s] ch IH]; simpl; [done|].
  destruct (String.eqb_spec k key) as [-> | Hne]; simpl.
  - rewrite bool_decide_eq_true_2; [done | apply list_elem_of_here].
  - rewrite IH. destruct (bool_decide (key ∈ map fst ch)) eqn:E.
    + apply bool_decide_eq_true in E.
      rewrite bool_decide_eq_true_2; [done | by apply list_elem_of_further].
    + apply bool_decide_eq_false in E.
      rewrite bool_decide_eq_false_2; [done|].
      intros [? | ?]%elem_of_cons; [congruence | done].
Qed.

End StagedWords.
